(** * htcondor_es.history: the history harvest workers and the checkpoint file

    A shallow embedding of [src/htcondor_es/history.py].  The two workers
    ([process_schedd], [process_startd]) are modelled as state-passing
    programs over the worker's local variables; everything the workers
    talk to (the clock helper of [utils], the converter, the index-name
    helper and the bulk sink of [elastic], the daemon's history iterator)
    is a field of a [world] record, so that every statement quantifies
    over the behaviour of those collaborators.

    What is observable of a run is kept as a trace of events: alerts,
    queries, appends to a buffer, calls of the sink, and the message put on
    the checkpoint queue.  Log lines and the timing statistics are left
    out.  Timestamps and cursors are integers.  The helpers
    [elastic.get_server_handle], [elastic.get_index],
    [convert.unique_doc_id] and [checkpoint_queue.put] are taken to
    return; the calls that the source guards against, or that decide a
    property below, may raise: [convert.to_json], [elastic.post_ads], the
    history iterator, [int()] and the comparisons on ad values,
    [datetime.fromtimestamp]. *)

From Stdlib Require Import ZArith Lia.
From stdpp Require Import gmap strings list fin_maps pretty.

Local Open Scope Z_scope.

(** ** ClassAd values and Python exceptions *)

(** The attribute values the worker inspects: integers and text.
    Comparing text with an integer raises [TypeError]; [int()] reads text
    that is a decimal literal and raises [ValueError] on any other. *)
Inductive value : Type :=
  | VInt (z : Z)
  | VStr (s : string).

#[global] Instance value_eq_dec : EqDecision value.
Proof. solve_decision. Defined.

(** A job ad: attribute name to value, read with [ad.get] and [ad[..]]. *)
Abbreviation classad := (gmap string value).

(** What [convert.to_json(.., return_dict=True)] returns. *)
Abbreviation document := (gmap string value).

Inductive exn : Type :=
  | RuntimeError      (* the daemon query failed *)
  | TypeError
  | ValueError
  | KeyError
  | TransportError    (* elasticsearch.exceptions.TransportError *)
  | IOError
  | OtherException.

#[global] Instance exn_eq_dec : EqDecision exn.
Proof. solve_decision. Defined.

(** What [int()] takes for white space around a literal (the characters
    of [str.isspace] below 128). *)
Definition py_isspace (c : Ascii.ascii) : bool :=
  let n := Ascii.nat_of_ascii c in
  ((9 <=? n) && (n <=? 13) || (28 <=? n) && (n <=? 32))%nat.

Definition digit_of (c : Ascii.ascii) : option Z :=
  let n := Ascii.nat_of_ascii c in
  if ((48 <=? n) && (n <=? 57))%nat then Some (Z.of_nat n - 48) else None.

(** The character with the given code: 95 is the underscore, 45 the minus
    sign, 43 the plus sign. *)
Definition is_char (code : nat) (c : Ascii.ascii) : bool :=
  (Ascii.nat_of_ascii c =? code)%nat.

Fixpoint lstrip (cs : list Ascii.ascii) : list Ascii.ascii :=
  match cs with
  | c :: rest => if py_isspace c then lstrip rest else cs
  | [] => []
  end.

(** The digits of a literal; a single underscore may stand between two
    digits.  [after_digit] says that the character before is a digit. *)
Fixpoint py_digits (acc : Z) (after_digit : bool) (cs : list Ascii.ascii) : option Z :=
  match cs with
  | [] => if after_digit then Some acc else None
  | c :: rest =>
    match digit_of c with
    | Some d => py_digits (10 * acc + d) true rest
    | None =>
      if after_digit && is_char 95 c then py_digits acc false rest else None
    end
  end.

(** [int(s)] for text [s]: white space around, an optional sign, decimal
    digits.  [None] stands for [ValueError].  Text is taken to be ASCII,
    and the limit recent Python versions put on the number of digits is
    left out. *)
Definition py_int_text (s : string) : option Z :=
  match rev (lstrip (rev (lstrip (String.list_ascii_of_string s)))) with
  | [] => None
  | c :: rest =>
    if is_char 45 c then Z.opp <$> py_digits 0 false rest
    else if is_char 43 c then py_digits 0 false rest
    else py_digits 0 false (c :: rest)
  end.

(** [int(v)] *)
Definition py_int (v : value) : exn + Z :=
  match v with
  | VInt z => inr z
  | VStr s =>
    match py_int_text s with
    | Some z => inr z
    | None => inl ValueError
    end
  end.

(** [v > n] for an integer [n] *)
Definition py_gt (v : value) (n : Z) : exn + bool :=
  match v with
  | VInt z => inr (n <? z)
  | VStr _ => inl TypeError
  end.

(** [ad.get(k, d)] *)
Definition ad_get (ad : classad) (k : string) (d : value) : value :=
  default d (ad !! k).

(** [ad[k]] *)
Definition ad_item (ad : classad) (k : string) : exn + value :=
  match ad !! k with
  | Some v => inr v
  | None => inl KeyError
  end.

(** ** [index_time] (history.py, lines 21-41)

    [_LAUNCH_TIME] is the module global [int(time.time())], evaluated once
    when the module is imported; it is passed in as [LAUNCH]. *)
Definition index_time (LAUNCH : Z) (index_attr : string) (ad : classad)
  : exn + value :=
  let preferred :=
    match py_int (ad_get ad index_attr (VInt 0)) with
    | inr n => if 0 <? n then Some (ad_item ad index_attr) else None
    | inl _ => None          (* ValueError / TypeError: logged, fall through *)
    end in
  match preferred with
  | Some r => r
  | None =>
    match py_gt (ad_get ad "EnteredCurrentStatus" (VInt 0)) 0 with
    | inl e => inl e
    | inr true => ad_item ad "EnteredCurrentStatus"
    | inr false =>
      match py_gt (ad_get ad "QDate" (VInt 0)) 0 with
      | inl e => inl e
      | inr true => ad_item ad "QDate"
      | inr false => inr (VInt LAUNCH)
      end
    end
  end.

(** ** The schedd query (history.py, line 63)

    [classad.ExprTree(f"( EnteredCurrentStatus >= {int(last_completion)} )")]
    is an expression tree; the fragment of the ClassAd language it lives in
    is integer comparison of an attribute with a literal. *)
Inductive expr : Type :=
  | EAttr (a : string)
  | EInt (z : Z)
  | EGe (l r : expr).

#[global] Instance expr_eq_dec : EqDecision expr.
Proof. solve_decision. Defined.

Inductive cval : Type :=
  | CInt (z : Z)
  | CBool (b : bool)
  | CUndefined
  | CError.

(** ClassAd evaluation: a missing attribute is UNDEFINED, a comparison with
    an UNDEFINED operand is UNDEFINED, a comparison of non-numbers is ERROR. *)
Fixpoint eval (ad : classad) (e : expr) : cval :=
  let cmp (f : Z -> Z -> bool) (l r : expr) :=
    match eval ad l, eval ad r with
    | CInt a, CInt b => CBool (f a b)
    | CError, _ | _, CError => CError
    | CUndefined, _ | _, CUndefined => CUndefined
    | _, _ => CError
    end in
  match e with
  | EAttr a =>
    match ad !! a with
    | Some (VInt z) => CInt z
    | Some (VStr _) => CError
    | None => CUndefined
    end
  | EInt z => CInt z
  | EGe l r => cmp (fun a b => b <=? a) l r
  end.

(** A constraint selects an ad when it evaluates to TRUE. *)
Definition selects (q : expr) (ad : classad) : bool :=
  match eval ad q with
  | CBool true => true
  | _ => false
  end.

(** The greatest ClassAd integer: ClassAd integers have 64 bits. *)
Definition int64_max : Z := 2 ^ 63 - 1.

(** The integer ClassAd reads from the decimal literal that Python prints
    for [z] ([classad.ExprTree] is outside the repository): the digits are
    read into a 64-bit integer, which stops at [int64_max] when they say
    more, and a minus sign in front negates what was read.  Within the
    64-bit range, where every timestamp a ClassAd holds lies, the literal
    is read as [z]. *)
Definition classad_literal (z : Z) : Z :=
  Z.sgn z * Z.min (Z.abs z) int64_max.

Definition history_query (last_completion : Z) : expr :=
  EGe (EAttr "EnteredCurrentStatus") (EInt (classad_literal last_completion)).

(** ** The startd cursor and its [since] string (history.py, lines 199-200) *)

(** The composite cursor: the dict with keys [GlobalJobId] and
    [EnteredCurrentStatus]; [job_ad.get("GlobalJobId")] is [None] when the
    ad has no such attribute. *)
Record since_t : Type := Since {
  GlobalJobId : option value;
  EnteredCurrentStatus : Z;
}.

#[global] Instance since_eq_dec : EqDecision since_t.
Proof. solve_decision. Defined.

Definition dquote : string :=
  String (Ascii.Ascii false true false false false true false false) EmptyString.

(** [f"{v}"] *)
Definition py_format (o : option value) : string :=
  match o with
  | None => "None"
  | Some (VInt z) => pretty z
  | Some (VStr s) => s
  end.

Definition since_str (since : since_t) : string :=
  "(GlobalJobId == " +:+ dquote +:+ py_format (GlobalJobId since) +:+ dquote
  +:+ ") && (EnteredCurrentStatus == " +:+ pretty (EnteredCurrentStatus since)
  +:+ ")".

(** ** Arguments, collaborators, observable events *)

(** The fields of [args] the workers read. *)
Record args : Type := Args {
  read_only : bool;
  dry_run : bool;
  es_feed_schedd_history : bool;
  es_feed_startd_history : bool;
  es_bunch_size : Z;
  process_max_documents : Z;
  es_index_date_attr : string;
  es_index_name : string;
}.

(** One step of the daemon's history iterator: it yields an ad or raises. *)
Inductive item : Type :=
  | Yield (job_ad : classad)
  | IterRaises (e : exn).

Abbreviation entry := (string * document)%type.

(** Everything outside [history.py] that a worker run depends on.  The
    modules [utils], [convert] and [elastic] and the HTCondor bindings are
    collaborators: their answers are given, call by call. *)
Record world : Type := World {
  LAUNCH_TIME : Z;                   (* history._LAUNCH_TIME *)
  time_time : Z;                     (* time.time() at the worker's entry *)
  time_remaining : nat -> Z;         (* n-th call of utils.time_remaining(start_time) *)
  to_json : classad -> option document;      (* None: convert.to_json raises *)
  unique_doc_id : document -> string;
  get_index : value -> string -> bool -> string;
  post_ads_raises : nat -> bool;     (* n-th call of elastic.post_ads raises *)
  fromtimestamp_raises : Z -> bool;  (* datetime.fromtimestamp(t) raises: t is
                                        outside the platform's range *)
  schedd_history : expr -> Z -> list item;   (* schedd.history(query, [], match) *)
  startd_history : string -> list item;      (* startd.history("True", [], since=..) *)
}.

(** What goes onto the checkpoint queue. *)
Inductive cursor : Type :=
  | Scalar (last_completion : Z)
  | Composite (since : since_t).

#[global] Instance cursor_eq_dec : EqDecision cursor.
Proof. solve_decision. Defined.

Inductive alert : Type :=
  | TimeoutWarning          (* "spider history timeout warning" *)
  | ConversionError         (* "spider history document conversion error" *)
  | QueryError              (* "spider schedd/startd history query error" *)
  | TransportWarning.       (* "spider history transport error warning" *)

#[global] Instance alert_eq_dec : EqDecision alert.
Proof. solve_decision. Defined.

(** The run as seen from outside, in the order things happen.  [EvAppend]
    records line 107/255 ([ad_list.append]); [EvPost] is a call of
    [elastic.post_ads] that returned, [EvPostRaised] one that raised. *)
Inductive event : Type :=
  | EvAlert (subject : alert)
  | EvScheddQuery (q : expr) (limit : Z)
  | EvStartdQuery (since : string)
  | EvAppend (idx : string) (e : entry)
  | EvPost (idx : string) (batch : list entry)
  | EvPostRaised (idx : string) (batch : list entry)
  | EvPut (name : string) (c : cursor).

#[global] Instance event_eq_dec : EqDecision event.
Proof. solve_decision. Defined.

(** The two copies of the worker differ in the feed flag they read, in the
    query they issue and in the shape of the cursor. *)
Inductive kind : Type := Schedd | Startd.

Definition es_feed (k : kind) (a : args) : bool :=
  match k with
  | Schedd => es_feed_schedd_history a
  | Startd => es_feed_startd_history a
  end.

(** ** The worker's local variables

    [buffered_ads] is a Python dict: keys in insertion order, no duplicate
    key.  [clock_calls] and [post_calls] count the calls made so far to
    [utils.time_remaining] and [elastic.post_ads]. *)
Record locals : Type := Locals {
  buffered_ads : list (string * list entry);
  count : Z;
  sent_warnings : bool;
  timed_out : bool;
  last_completion : Z;
  since : since_t;
  clock_calls : nat;
  post_calls : nat;
  trace : list event;
}.

Definition set_buffered (f : list (string * list entry) -> list (string * list entry))
    (st : locals) : locals :=
  Locals (f (buffered_ads st)) (count st) (sent_warnings st) (timed_out st)
         (last_completion st) (since st) (clock_calls st) (post_calls st) (trace st).

Definition emit (e : event) (st : locals) : locals :=
  Locals (buffered_ads st) (count st) (sent_warnings st) (timed_out st)
         (last_completion st) (since st) (clock_calls st) (post_calls st)
         (trace st ++ [e]).

Definition set_count (n : Z) (st : locals) : locals :=
  Locals (buffered_ads st) n (sent_warnings st) (timed_out st)
         (last_completion st) (since st) (clock_calls st) (post_calls st) (trace st).

Definition set_sent_warnings (b : bool) (st : locals) : locals :=
  Locals (buffered_ads st) (count st) b (timed_out st)
         (last_completion st) (since st) (clock_calls st) (post_calls st) (trace st).

Definition set_timed_out (b : bool) (st : locals) : locals :=
  Locals (buffered_ads st) (count st) (sent_warnings st) b
         (last_completion st) (since st) (clock_calls st) (post_calls st) (trace st).

Definition set_last_completion (c : Z) (st : locals) : locals :=
  Locals (buffered_ads st) (count st) (sent_warnings st) (timed_out st)
         c (since st) (clock_calls st) (post_calls st) (trace st).

Definition set_since (s : since_t) (st : locals) : locals :=
  Locals (buffered_ads st) (count st) (sent_warnings st) (timed_out st)
         (last_completion st) s (clock_calls st) (post_calls st) (trace st).

Definition tick_clock (st : locals) : locals :=
  Locals (buffered_ads st) (count st) (sent_warnings st) (timed_out st)
         (last_completion st) (since st) (S (clock_calls st)) (post_calls st) (trace st).

Definition tick_post (st : locals) : locals :=
  Locals (buffered_ads st) (count st) (sent_warnings st) (timed_out st)
         (last_completion st) (since st) (clock_calls st) (S (post_calls st)) (trace st).

(** *** Dict operations on [buffered_ads] *)

Fixpoint dict_get {V} (d : list (string * V)) (k : string) : option V :=
  match d with
  | [] => None
  | (k', v) :: d' => if decide (k' = k) then Some v else dict_get d' k
  end.

(** [d[k] = v]: overwrite in place, or append a new key at the end. *)
Fixpoint dict_set {V} (k : string) (v : V) (d : list (string * V)) : list (string * V) :=
  match d with
  | [] => [(k, v)]
  | (k', v') :: d' =>
    if decide (k' = k) then (k, v) :: d' else (k', v') :: dict_set k v d'
  end.

(** ** Statements of the loop body

    A statement transforms the locals and says how control leaves it. *)
Inductive signal : Type :=
  | Next                 (* fall through to the next statement *)
  | Break                (* [break] *)
  | Raise (e : exn).     (* an exception leaves the [for] loop *)

Definition stmt : Type := locals -> locals * signal.

Definition and_then (c1 c2 : stmt) : stmt := fun st =>
  match c1 st with
  | (st1, Next) => c2 st1
  | r => r
  end.

Declare Scope stmt_scope.
Delimit Scope stmt_scope with stmt.
Bind Scope stmt_scope with stmt.
Notation "c1 ;; c2" := (and_then c1 c2)
  (at level 100, c2 at level 200, right associativity) : stmt_scope.
Local Open Scope stmt_scope.

(** [elastic.post_ads(es.handle, idx, ad_list, metadata=metadata)], guarded
    as in the source by the read-only and feed flags. *)
Definition post_ads (w : world) (idx : string) (ad_list : list entry) : stmt := fun st =>
  let st1 := tick_post st in
  if post_ads_raises w (post_calls st)
  then (emit (EvPostRaised idx ad_list) st1, Raise TransportError)
  else (emit (EvPost idx ad_list) st1, Next).

(** Lines 106-107: [ad_list = buffered_ads.setdefault(idx, [])] and
    [ad_list.append(..)]; the list appended to is the one the dict holds. *)
Definition append_ad (idx : string) (e : entry) : stmt := fun st =>
  let ad_list := default [] (dict_get (buffered_ads st) idx) ++ [e] in
  (emit (EvAppend idx e) (set_buffered (dict_set idx ad_list) st), Next).

(** Lines 109-119. *)
Definition flush_if_full (k : kind) (w : world) (a : args) (idx : string) : stmt := fun st =>
  let ad_list := default [] (dict_get (buffered_ads st) idx) in
  if Z.of_nat (length ad_list) =? es_bunch_size a then
    ((if negb (read_only a) && es_feed k a then post_ads w idx ad_list
      else (fun st => (st, Next))) ;;
     (fun st => (set_buffered (dict_set idx []) st, Next))) st
  else (st, Next).

(** Line 121. *)
Definition incr_count : stmt := fun st => (set_count (count st + 1) st, Next).

(** Lines 125-127 and 271-277: [job_ad.get("EnteredCurrentStatus")] is
    [None] for a missing attribute, and [None > n] raises [TypeError]. *)
Definition update_cursor (k : kind) (job_ad : classad) : stmt := fun st =>
  match job_ad !! "EnteredCurrentStatus" with
  | Some (VInt job_completion) =>
    if last_completion st <? job_completion then
      let st1 := set_last_completion job_completion st in
      match k with
      | Schedd => (st1, Next)
      | Startd => (set_since (Since (job_ad !! "GlobalJobId") job_completion) st1, Next)
      end
    else (st, Next)
  | _ => (st, Raise TypeError)
  end.

(** Lines 129-136. *)
Definition check_deadline (w : world) : stmt := fun st =>
  let r := time_remaining w (clock_calls st) in
  let st1 := tick_clock st in
  if r <? 0 then (set_timed_out true (emit (EvAlert TimeoutWarning) st1), Break)
  else (st1, Next).

(** Lines 138-143: [args.process_max_documents and count > ...], on the
    count after the increment of line 121. *)
Definition over_cap (a : args) (n : Z) : bool :=
  negb (process_max_documents a =? 0) && (process_max_documents a <? n).

Definition check_cap (a : args) : stmt := fun st =>
  if over_cap a (count st) then (st, Break) else (st, Next).

(** Lines 84-99: the conversion and its handler. *)
Definition conversion_failed : stmt := fun st =>
  if sent_warnings st then (st, Next)
  else (set_sent_warnings true (emit (EvAlert ConversionError) st), Next).

(** One iteration of the [for] loop over a yielded ad. *)
Definition loop_body (k : kind) (w : world) (a : args) (job_ad : classad) : stmt := fun st =>
  match to_json w job_ad with
  | None => conversion_failed st                    (* [continue] *)
  | Some dict_ad =>
    match index_time (LAUNCH_TIME w) (es_index_date_attr a) job_ad with
    | inl e => (st, Raise e)
    | inr t =>
      let idx := get_index w t (es_index_name a) (es_feed k a && negb (read_only a)) in
      (append_ad idx (unique_doc_id w dict_ad, dict_ad) ;;
       flush_if_full k w a idx ;;
       incr_count ;;
       update_cursor k job_ad ;;
       check_deadline w ;;
       check_cap a) st
    end
  end.

(** Lines 145-158: [except RuntimeError] only logs, [except Exception]
    also alerts. *)
Definition except_handler (e : exn) (st : locals) : locals :=
  match e with
  | RuntimeError => st
  | _ => emit (EvAlert QueryError) st
  end.

(** [for job_ad in history_iter: ...]: how the loop is left, and with
    which locals.  [Next] means the iterator was exhausted. *)
Fixpoint for_steps (k : kind) (w : world) (a : args) (history_iter : list item)
  : stmt := fun st =>
  match history_iter with
  | [] => (st, Next)
  | IterRaises e :: _ => (st, Raise e)
  | Yield job_ad :: rest =>
    match loop_body k w a job_ad st with
    | (st1, Next) => for_steps k w a rest st1
    | r => r
    end
  end.

(** The [try: ... except RuntimeError: ... except Exception: ...] block
    around the loop. *)
Definition for_loop (k : kind) (w : world) (a : args) (history_iter : list item)
    (st : locals) : locals :=
  match for_steps k w a history_iter st with
  | (st1, Raise e) => except_handler e st1
  | (st1, _) => st1
  end.

(** Lines 160-170: the final flush over [list(buffered_ads.items())].  An
    exception raised here is not caught by the worker. *)
Fixpoint post_remaining (k : kind) (w : world) (a : args)
    (items : list (string * list entry)) : stmt := fun st =>
  match items with
  | [] => (st, Next)
  | (idx, ad_list) :: rest =>
    ((match ad_list with
      | [] => (fun st => (st, Next))
      | _ :: _ =>
        if negb (read_only a) then
          if es_feed k a then post_ads w idx ad_list else (fun st => (st, Next))
        else (fun st => (st, Next))
      end) ;;
     post_remaining k w a rest) st
  end.

(** What a call of a worker amounts to: its events, and the value it
    returns or the exception that escapes it. *)
Record run (A : Type) : Type := Run {
  events : list event;
  outcome : exn + A;
}.
Arguments Run {A} _ _.
Arguments events {A} _.
Arguments outcome {A} _.

Definition init_locals (last_completion : Z) (since : since_t) : locals :=
  Locals [] 0 false false last_completion since 1%nat 0%nat [].

(** The iterator the worker loops over (lines 78-81 and 226-229). *)
Definition history_iter (k : kind) (w : world) (a : args) (st0 : locals) : list item :=
  if negb (dry_run a) then
    match k with
    | Schedd => schedd_history w (history_query (last_completion st0))
                  (Z.max 10000 (process_max_documents a))
    | Startd => startd_history w (since_str (since st0))
    end
  else [].

(** The locals when the loop is entered: the query has been issued. *)
Definition query_issued (k : kind) (a : args) (st0 : locals) : locals :=
  if negb (dry_run a) then
    match k with
    | Schedd => emit (EvScheddQuery (history_query (last_completion st0))
                  (Z.max 10000 (process_max_documents a))) st0
    | Startd => emit (EvStartdQuery (since_str (since st0))) st0
    end
  else st0.

Definition final_cursor (k : kind) (st : locals) : cursor :=
  match k with
  | Schedd => Scalar (last_completion st)
  | Startd => Composite (since st)
  end.

(** Lines 160-189 and 310-339, what follows the loop: the final flush,
    the summary line (whose date formatting raises on a timestamp out of
    range), the checkpoint message. *)
Definition finish (k : kind) (w : world) (a : args) (name : string) : stmt := fun st2 =>
  match post_remaining k w a (buffered_ads st2) st2 with
  | (st3, Next) =>
    if fromtimestamp_raises w (last_completion st3) then (st3, Raise OtherException)
    else if negb (timed_out st3) then (emit (EvPut name (final_cursor k st3)) st3, Next)
    else (st3, Next)
  | r => r
  end.

(** Everything after the preflight, shared by the two workers: query,
    loop, and what follows the loop. *)
Definition harvest (k : kind) (w : world) (a : args) (name : string)
    (st0 : locals) : locals * signal :=
  finish k w a name (for_loop k w a (history_iter k w a st0) (query_issued k a st0)).

(** [process_schedd(start_time, last_completion, checkpoint_queue,
    schedd_ad, args, metadata)]; [name] is [schedd_ad["Name"]]. *)
Definition process_schedd (w : world) (a : args) (name : string)
    (last_completion0 : Z) : run Z :=
  if time_remaining w 0%nat <? 0 then
    Run [EvAlert TimeoutWarning] (inr last_completion0)
  else
    match harvest Schedd w a name
            (init_locals last_completion0 (Since None last_completion0)) with
    | (st, Raise e) => Run (trace st) (inl e)
    | (st, _) => Run (trace st) (inr (last_completion st))
    end.

(** [process_startd(start_time, since, checkpoint_queue, startd_ad, args,
    metadata)]; [name] is [startd_ad["Machine"]]. *)
Definition process_startd (w : world) (a : args) (name : string)
    (since0 : since_t) : run since_t :=
  if time_remaining w 0%nat <? 0 then
    Run [EvAlert TimeoutWarning] (inr since0)
  else
    match harvest Startd w a name
            (init_locals (EnteredCurrentStatus since0) since0) with
    | (st, Raise e) => Run (trace st) (inl e)
    | (st, _) => Run (trace st) (inr (since st))
    end.

(** ** The checkpoint file (history.py, lines 344-360)

    [checkpoint.json] holds one JSON object, daemon name to cursor.  The
    text is kept at the granularity at which [json.dump] hands pieces to
    [fd.write]: braces, keys, values and separators.  Texts that are not
    built from these pieces of a flat object count as undecodable. *)
Inductive tok : Type :=
  | TOpen
  | TKey (k : string)
  | TVal (c : cursor)
  | TComma
  | TClose.

#[global] Instance tok_eq_dec : EqDecision tok.
Proof. solve_decision. Defined.

Fixpoint dump_members (l : list (string * cursor)) : list tok :=
  match l with
  | [] => [TClose]
  | (k, v) :: rest =>
    match rest with
    | [] => [TKey k; TVal v; TClose]
    | _ :: _ => TKey k :: TVal v :: TComma :: dump_members rest
    end
  end.

(** The pieces [json.dump(checkpoint, fd, indent=4)] writes, in order. *)
Definition json_dump (checkpoint : gmap string cursor) : list tok :=
  TOpen :: dump_members (map_to_list checkpoint).

Fixpoint load_members (ts : list tok) (acc : gmap string cursor)
  : option (gmap string cursor) :=
  match ts with
  | TKey k :: TVal v :: TClose :: [] => Some (<[k:=v]> acc)
  | TKey k :: TVal v :: TComma :: rest => load_members rest (<[k:=v]> acc)
  | _ => None
  end.

(** [json.load(fd)]: [None] stands for [json.JSONDecodeError]. *)
Definition json_load (ts : list tok) : option (gmap string cursor) :=
  match ts with
  | [TOpen; TClose] => Some ∅
  | TOpen :: rest => load_members rest ∅
  | _ => None
  end.

(** The state of [checkpoint.json] on disk. *)
Inductive file : Type :=
  | Absent                     (* open(.., "r") raises FileNotFoundError *)
  | Unreadable                 (* open(.., "r") raises another IOError *)
  | Text (ts : list tok).

#[global] Instance file_eq_dec : EqDecision file.
Proof. solve_decision. Defined.

(** [load_checkpoint()]: only [IOError] is handled; a decode error is a
    [ValueError] and leaves the function. *)
Definition load_checkpoint (f : file) : exn + gmap string cursor :=
  match f with
  | Absent | Unreadable => inr ∅
  | Text ts =>
    match json_load ts with
    | Some checkpoint => inr checkpoint
    | None => inl ValueError
    end
  end.

(** What can go wrong while the file is rewritten: [open(.., "w")] may
    raise, and [fd.write] may raise after some pieces went out. *)
Record disk : Type := Disk {
  open_w_raises : bool;
  write_raises_at : option nat;
}.

(** [update_checkpoint(name, completion_date)]: load, set the key, open
    for writing (which empties the file) and dump piece by piece. *)
Definition update_checkpoint (d : disk) (name : string) (completion_date : cursor)
    (f : file) : file * (exn + unit) :=
  match load_checkpoint f with
  | inl e => (f, inl e)
  | inr checkpoint =>
    let checkpoint := <[name := completion_date]> checkpoint in
    if open_w_raises d then (f, inl IOError)
    else
      let pieces := json_dump checkpoint in
      match write_raises_at d with
      | Some n =>
        if (n <? length pieces)%nat then (Text (take n pieces), inl IOError)
        else (Text pieces, inr ())
      | None => (Text pieces, inr ())
      end
  end.

(** ** Waiting for the workers (history.py, lines 422-456) *)

(** What [future.get(timeout)] does. *)
Inductive get_result : Type :=
  | Returned
  | RaisesTimeout              (* multiprocessing.TimeoutError *)
  | RaisesTransport            (* elasticsearch.exceptions.TransportError *)
  | RaisesOther (e : exn).     (* any other exception of the worker: not handled *)

(** How the loop over the futures is left. *)
Inductive wait_end : Type :=
  | AllWaited
  | TookTooLong                (* [timed_out = True; break] *)
  | Uncaught (e : exn).        (* an exception leaves [process_histories] *)

(** The coordinator's clock: the answers of [utils.time_remaining] at the
    [i]-th task, first with [positive=False], then with the defaults. *)
Record coordinator_clock : Type := CoordinatorClock {
  remaining_raw : nat -> Z;
  remaining : nat -> Z;
}.

Inductive cevent : Type :=
  | CWait (name : string) (timeout : Z)     (* future.get(timeout) *)
  | CAlert (subject : alert)
  | CTerminate.                             (* pool.terminate() *)

#[global] Instance cevent_eq_dec : EqDecision cevent.
Proof. solve_decision. Defined.

(** The [for name, future in futures] loop. *)
Fixpoint wait_futures (clk : coordinator_clock) (i : nat)
    (futures : list (string * (Z -> get_result))) : list cevent * wait_end :=
  match futures with
  | [] => ([], AllWaited)
  | (name, future) :: rest =>
    if -30 <? remaining_raw clk i then
      let timeout := remaining clk i + 10 in
      let continue (handled : list cevent) :=
        let '(evs, t) := wait_futures clk (S i) rest in
        (CWait name timeout :: handled ++ evs, t) in
      match future timeout with
      | Returned => continue []
      | RaisesTimeout => continue [CAlert TimeoutWarning]
      | RaisesTransport => continue [CAlert TransportWarning]
      | RaisesOther e => ([CWait name timeout], Uncaught e)
      end
    else ([], TookTooLong)
  end.

(** The tail of [process_histories]: wait, then terminate the pool if the
    whole run took too long. *)
Definition process_histories_wait (clk : coordinator_clock)
    (futures : list (string * (Z -> get_result))) : list cevent * wait_end :=
  let '(evs, t) := wait_futures clk 0 futures in
  match t with
  | TookTooLong => (evs ++ [CTerminate], t)
  | _ => (evs, t)
  end.

(** ** A simulated pool, for running the workers on concrete inputs *)

Definition job (id : string) (completion : Z) : classad :=
  {[ "GlobalJobId" := VStr id; "EnteredCurrentStatus" := VInt completion ]}.

(** A job ad the converter chokes on. *)
Definition broken_job (id : string) (completion : Z) : classad :=
  <["Broken" := VInt 1]> (job id completion).

Definition sim_to_json (ad : classad) : option document :=
  match ad !! "Broken" with
  | Some _ => None
  | None => Some ad
  end.

(** A daemon holding the ads [db]: the schedd answers with the first
    [limit] ads its constraint selects, the startd with all of them.  The
    clock always has ten minutes left, the sink never fails, every
    timestamp can be formatted, the module was imported at time 1000 and
    the worker entered at time 1005. *)
Definition sim_world (db : list classad) : world :=
  World 1000 1005 (fun _ => 600)
        sim_to_json
        (fun d => py_format (d !! "GlobalJobId"))
        (fun t template _ => template +:+ "-" +:+ py_format (Some t))
        (fun _ => false)
        (fun _ => false)
        (fun q limit => Yield <$> take (Z.to_nat limit) (filter (fun ad => selects q ad) db))
        (fun _ => Yield <$> db).

Definition sim_args : args := Args false false true true 250 0 "CompletionDate" "htcondor".


(** The same daemon with a sink whose [n]-th call raises exactly when
    [fails n]. *)
Definition with_sink (fails : nat -> bool) (w : world) : world :=
  World (LAUNCH_TIME w) (time_time w) (time_remaining w) (to_json w) (unique_doc_id w)
        (get_index w) fails (fromtimestamp_raises w)
        (schedd_history w) (startd_history w).

Definition with_cap (c : Z) (a : args) : args :=
  Args (read_only a) (dry_run a) (es_feed_schedd_history a) (es_feed_startd_history a)
       (es_bunch_size a) c (es_index_date_attr a) (es_index_name a).

Definition with_bunch_size (n : Z) (a : args) : args :=
  Args (read_only a) (dry_run a) (es_feed_schedd_history a) (es_feed_startd_history a)
       n (process_max_documents a) (es_index_date_attr a) (es_index_name a).

Definition with_read_only (b : bool) (a : args) : args :=
  Args b (dry_run a) (es_feed_schedd_history a) (es_feed_startd_history a)
       (es_bunch_size a) (process_max_documents a) (es_index_date_attr a)
       (es_index_name a).

(** ** Reading a trace *)

(** The entries appended to a buffer during the run. *)
Definition appended (tr : list event) : list entry :=
  tr ≫= (fun ev => match ev with EvAppend _ e => [e] | _ => [] end).

(** The entries delivered to the sink. *)
Definition posted (tr : list event) : list entry :=
  tr ≫= (fun ev => match ev with EvPost _ batch => batch | _ => [] end).

Definition puts (tr : list event) : list (string * cursor) :=
  tr ≫= (fun ev => match ev with EvPut n c => [(n, c)] | _ => [] end).

Definition alerts (tr : list event) : list alert :=
  tr ≫= (fun ev => match ev with EvAlert s => [s] | _ => [] end).

Definition queries (tr : list event) : list event :=
  tr ≫= (fun ev => match ev with
                   | EvScheddQuery _ _ | EvStartdQuery _ => [ev]
                   | _ => []
                   end).

(** All entries waiting in the buffers. *)
Definition pending (st : locals) : list entry := concat (buffered_ads st).*2.

(** Buffer accounting: what was appended is what was delivered plus what
    still waits. *)
Definition accounted (st : locals) : Prop :=
  appended (trace st) ≡ₚ posted (trace st) ++ pending st.

(** The property the buffers are kept for: whenever a checkpoint message is
    put, every entry appended during the run was delivered before it. *)
Definition flushed_before_put (tr : list event) : Prop :=
  forall pre n c post, tr = pre ++ EvPut n c :: post -> appended tr ≡ₚ posted pre.

(** A statement keeps a property of the locals, however it is left. *)
Definition preserves (P : locals -> Prop) (c : stmt) : Prop :=
  forall st st' sg, P st -> c st = (st', sg) -> P st'.

(** ** Concrete pools *)

(** Five finished jobs in completion order; the third cannot be converted. *)
Definition five : list classad :=
  [job "j1" 1; job "j2" 2; broken_job "j3" 3; job "j4" 4; job "j5" 5].

(** Fifteen finished jobs, completion times 1 to 15. *)
Definition fifteen : list classad :=
  (fun i => job "j" (Z.of_nat i)) <$> seq 1 15.

(** ** Reading [index_time] *)

(** [ad.get(k, 0)] is an integer that is not positive: the attribute is
    missing or holds such an integer. *)
Definition not_positive (ad : classad) (k : string) : Prop :=
  ad !! k = None \/ exists z, ad !! k = Some (VInt z) /\ z <= 0.

(** The preferred attribute is passed over: it is missing, or [int()]
    raises on it, or what [int()] reads from it is not positive. *)
Definition passed_over (ad : classad) (k : string) : Prop :=
  forall n, py_int (ad_get ad k (VInt 0)) = inr n -> n <= 0.

(** ** Reading a run off the stream it consumed *)

(** The buffer entry of an ad, if it converts. *)
Definition entry_of (w : world) (ad : classad) : option entry :=
  (fun d => (unique_doc_id w d, d)) <$> to_json w ad.

(** The entries of the ads of a stream that convert, in stream order. *)
Definition entries_of (w : world) (ads : list classad) : list entry :=
  omap (entry_of w) ads.

(** [job_ad.get("EnteredCurrentStatus")] when it is an integer. *)
Definition completion (ad : classad) : Z :=
  match ad !! "EnteredCurrentStatus" with
  | Some (VInt z) => z
  | _ => 0
  end.

(** The greatest completion time among the cursor [c] and the ads that
    convert. *)
Definition running_max (w : world) (c : Z) (ads : list classad) : Z :=
  foldl (fun m ad => match to_json w ad with
                     | Some _ => Z.max m (completion ad)
                     | None => m
                     end) c ads.

(** The last ad of the stream that converts. *)
Definition last_converted (w : world) (ads : list classad) : option classad :=
  last (filter (fun ad => is_Some (to_json w ad)) ads).

(** One conversion alert if some ad of the stream does not convert. *)
Definition conversion_alerts (w : world) (ads : list classad) : list alert :=
  if forallb (fun ad => bool_decide (is_Some (to_json w ad))) ads then []
  else [ConversionError].

(** An ad that, if it converts, can be bucketed and compared with the
    cursor without an exception. *)
Definition well_timed (w : world) (a : args) (ad : classad) : Prop :=
  is_Some (to_json w ad) ->
  (exists z, ad !! "EnteredCurrentStatus" = Some (VInt z)) /\
  (exists t, index_time (LAUNCH_TIME w) (es_index_date_attr a) ad = inr t).

(** In a startd run the scalar [last_completion] shadows the timestamp of
    the composite cursor. *)
Definition coherent (st : locals) : Prop :=
  last_completion st = EnteredCurrentStatus (since st).

(** ** The startd and its [since] argument

    [startd.history("True", [], since=since_str)] belongs to the HTCondor
    bindings, which are outside the repository.  As HTCondor documents
    [since], the daemon reads its history newest first and ends the scan at
    the first ad on which the expression holds.  The expression built at
    line 200 holds of an ad that carries the job id and the timestamp the
    expression was built from.  What follows describes such a daemon; the
    workers themselves are modelled for every daemon. *)





(** How many conversion alerts a trace holds. *)
Definition conversion_alert_count (tr : list event) : nat :=
  length (filter (fun s => s = ConversionError) (alerts tr)).

(** The flag [sent_warnings] is raised exactly when the one conversion
    alert of the run has been fired. *)
Definition alerted_once (st : locals) : Prop :=
  conversion_alert_count (trace st) = if sent_warnings st then 1%nat else 0%nat.

(** ** Reading a trace bucket by bucket *)



(** Every call of the sink, whether it returned or raised. *)
Definition sink_calls (tr : list event) : list (string * list entry) :=
  tr ≫= (fun ev => match ev with
                   | EvPost i batch | EvPostRaised i batch => [(i, batch)]
                   | _ => []
                   end).

(** What waits in the buffer of bucket [idx] ([buffered_ads.get(idx, [])]). *)
Definition pending_in (idx : string) (st : locals) : list entry :=
  default [] (dict_get (buffered_ads st) idx).


(** No buffer has reached the bunch size. *)
Definition below_bunch (a : args) (st : locals) : Prop :=
  Forall (fun il => Z.of_nat (length il.2) < es_bunch_size a) (buffered_ads st).

(** No buffer is over the bunch size, and no call of the sink was given an
    empty batch or one over the bunch size. *)
Definition within_bunch (a : args) (st : locals) : Prop :=
  Forall (fun il => Z.of_nat (length il.2) <= es_bunch_size a) (buffered_ads st) /\
  Forall (fun il => 1 <= Z.of_nat (length il.2) <= es_bunch_size a)
         (sink_calls (trace st)).

(** The count is the number of entries appended, and it has not passed a
    cap that is set. *)
Definition counted (a : args) (st : locals) : Prop :=
  Z.of_nat (length (appended (trace st))) = count st /\
  (0 < process_max_documents a -> count st <= process_max_documents a).

(** A daemon whose history iterator behaves as [items], whatever it is
    asked. *)
Definition with_history (items : list item) (w : world) : world :=
  World (LAUNCH_TIME w) (time_time w) (time_remaining w) (to_json w) (unique_doc_id w)
        (get_index w) (post_ads_raises w) (fromtimestamp_raises w)
        (fun _ _ => items) (fun _ => items).


(** ** The checkpoint writer (history.py, lines 406-417) *)

(** What [checkpoint_queue.get()] hands to the writer. *)
Inductive queue_item : Type :=
  | QJob (name : string) (completion_date : cursor)
  | QPill                      (* [None], the poison pill *)
  | QEOF.                      (* [get()] raises EOFError *)

(** How [_chkp_updater] ends. *)
Inductive updater_end : Type :=
  | Stopped                    (* [break] *)
  | Blocked                    (* [get()] waits on an empty queue *)
  | Died (e : exn).            (* [update_checkpoint] raised: not handled *)

(** [_chkp_updater()]: [d n] tells what the disk does during the [n]-th
    rewrite of the file. *)
Fixpoint _chkp_updater (d : nat -> disk) (n : nat) (queue : list queue_item)
    (f : file) : file * updater_end :=
  match queue with
  | [] => (f, Blocked)
  | QPill :: _ => (f, Stopped)
  | QEOF :: _ => (f, Stopped)
  | QJob name completion_date :: rest =>
    match update_checkpoint (d n) name completion_date f with
    | (f', inr _) => _chkp_updater d (S n) rest f'
    | (f', inl e) => (f', Died e)
    end
  end.

(** The jobs the workers put on the queue, as queue items. *)
Definition as_jobs (jobs : list (string * cursor)) : list queue_item :=
  (fun kv => QJob kv.1 kv.2) <$> jobs.

(** [checkpoint[name] = completion_date], job after job. *)
Definition apply_jobs (checkpoint : gmap string cursor)
    (jobs : list (string * cursor)) : gmap string cursor :=
  foldl (fun m kv => <[kv.1 := kv.2]> m) checkpoint jobs.

(** ** Where a worker starts (history.py, lines 384 and 397) *)

(** [checkpoint.get(name, 0)] *)
Definition schedd_start (checkpoint : gmap string cursor) (name : string) : cursor :=
  default (Scalar 0) (checkpoint !! name).


(** The names [future.get] was called for, in order. *)
Definition waited (evs : list cevent) : list string :=
  evs ≫= fun ev => match ev with CWait name _ => [name] | _ => [] end.

(** The alerts the coordinator sent, in order. *)
Definition coordinator_alerts (evs : list cevent) : list alert :=
  evs ≫= fun ev => match ev with CAlert subject => [subject] | _ => [] end.

(** The alert the wait loop sends for a task, given what its
    [future.get] did. *)
Definition wait_alert (r : get_result) : list alert :=
  match r with
  | RaisesTimeout => [TimeoutWarning]
  | RaisesTransport => [TransportWarning]
  | _ => []
  end.

(** ** What stands behind an alert *)

(** An ad on which the loop body raises [TypeError]: text where a
    timestamp is compared, or no [EnteredCurrentStatus] at all. *)
Definition ill_typed (ad : classad) : Prop :=
  (exists s, ad !! "EnteredCurrentStatus" = Some (VStr s)) \/
  (exists s, ad !! "QDate" = Some (VStr s)) \/
  ad !! "EnteredCurrentStatus" = None.

(** The event that has to have happened for a worker to send an alert
    with the given subject, when its iterator behaves as [items]. *)
Definition justified (w : world) (items : list item) (subject : alert) : Prop :=
  match subject with
  | ConversionError => exists ad, Yield ad ∈ items /\ to_json w ad = None
  | TimeoutWarning => exists n, time_remaining w n < 0
  | QueryError =>
    (exists e, e <> RuntimeError /\ IterRaises e ∈ items) \/
    (exists ad, Yield ad ∈ items /\ ill_typed ad) \/
    (exists n, post_ads_raises w n = true)
  | TransportWarning => False
  end.

(** ** Where a cursor comes from *)

(** The cursor held in [st] is the one the run started with, [c0] and
    [s0], or it was read off an ad of [items] whose timestamp is greater
    than [c0]. *)
Definition read_off (k : kind) (items : list item) (c0 : Z) (s0 : since_t)
    (st : locals) : Prop :=
  (last_completion st = c0 /\ since st = s0) \/
  exists ad z,
    Yield ad ∈ items /\ ad !! "EnteredCurrentStatus" = Some (VInt z) /\ c0 < z /\
    last_completion st = z /\
    since st = match k with
               | Schedd => s0
               | Startd => Since (ad !! "GlobalJobId") z
               end.

(** ** Proof automation for statements *)

Ltac stmt_cases :=
  repeat match goal with
         | H : (if ?b then _ else _) _ = (_, _) |- _ => destruct b eqn:?
         | H : (if ?b then _ else _) = (_, _) |- _ => destruct b eqn:?
         | H : (match ?x with _ => _ end) = (_, _) |- _ => destruct x eqn:?
         | H : (match ?x with _ => _ end) _ = (_, _) |- _ => destruct x eqn:?
         | H : (_, _) = (_, _) |- _ => inversion H; subst; clear H
         end.

Ltac unfold_body :=
  unfold loop_body, and_then, append_ad, flush_if_full, and_then, post_ads,
    incr_count, update_cursor, check_deadline, check_cap, conversion_failed.

(** Reduce the projections of updated locals, and nothing else. *)
Ltac proj_simpl :=
  cbn [trace emit set_buffered set_count set_sent_warnings set_timed_out
       set_last_completion set_since tick_clock tick_post buffered_ads count
       sent_warnings timed_out last_completion since clock_calls post_calls
       events outcome fst snd].

Ltac proj_simpl_all :=
  cbn [trace emit set_buffered set_count set_sent_warnings set_timed_out
       set_last_completion set_since tick_clock tick_post buffered_ads count
       sent_warnings timed_out last_completion since clock_calls post_calls
       events outcome fst snd] in *.

(** * Properties *)

(** ** Reading traces: how the projections see one more event *)

Lemma appended_app tr1 tr2 : appended (tr1 ++ tr2) = appended tr1 ++ appended tr2.
Proof. unfold appended. apply bind_app. Qed.

Lemma posted_app tr1 tr2 : posted (tr1 ++ tr2) = posted tr1 ++ posted tr2.
Proof. unfold posted. apply bind_app. Qed.

Lemma puts_app tr1 tr2 : puts (tr1 ++ tr2) = puts tr1 ++ puts tr2.
Proof. unfold puts. apply bind_app. Qed.

Lemma alerts_app tr1 tr2 : alerts (tr1 ++ tr2) = alerts tr1 ++ alerts tr2.
Proof. unfold alerts. apply bind_app. Qed.

Lemma queries_app tr1 tr2 : queries (tr1 ++ tr2) = queries tr1 ++ queries tr2.
Proof. unfold queries. apply bind_app. Qed.

(** ** The dict [buffered_ads] *)


Lemma dict_set_append (d : list (string * list entry)) k e :
  concat (dict_set k (default [] (dict_get d k) ++ [e]) d).*2 ≡ₚ concat d.*2 ++ [e].
Proof.
  induction d as [|[k' l] d IH]; simpl.
  - reflexivity.
  - destruct (decide (k' = k)) as [->|Hne]; simpl.
    + rewrite <- !(assoc_L (++)). apply Permutation_app_head, Permutation_app_comm.
    + rewrite IH. by rewrite (assoc_L (++)).
Qed.

Lemma dict_set_clear (d : list (string * list entry)) k :
  concat (dict_set k [] d).*2 ++ default [] (dict_get d k) ≡ₚ concat d.*2.
Proof.
  induction d as [|[k' l] d IH]; simpl.
  - reflexivity.
  - destruct (decide (k' = k)) as [->|Hne]; simpl.
    + apply Permutation_app_comm.
    + rewrite <- (assoc_L (++)). by rewrite IH.
Qed.

(** ** Statements and what they preserve *)


Lemma preserves_and_then P c1 c2 :
  preserves P c1 -> preserves P c2 -> preserves P (c1 ;; c2).
Proof.
  intros H1 H2 st st' sg HP. unfold and_then.
  destruct (c1 st) as [st1 sg1] eqn:E1. specialize (H1 _ _ _ HP E1).
  destruct sg1; intros E; [exact (H2 _ _ _ H1 E)| |]; by inversion E; subst.
Qed.

Lemma preserves_skip P : preserves P (fun st => (st, Next)).
Proof. intros st st' sg HP [= <- _]. done. Qed.


(** ** Buffer accounting: nothing appended is lost while the sink is fed *)



Section Fed.
Variables (k : kind) (w : world) (a : args).
Hypothesis not_read_only : read_only a = false.
Hypothesis feeding : es_feed k a = true.

Lemma append_ad_accounted idx e : preserves accounted (append_ad idx e).
Proof.
  intros st st' sg Hacc [= <- _]. unfold accounted, pending in *. cbn.
  rewrite appended_app, posted_app. cbn. rewrite app_nil_r.
  rewrite dict_set_append, Hacc. by rewrite (assoc_L (++)).
Qed.

Lemma flush_if_full_accounted idx : preserves accounted (flush_if_full k w a idx).
Proof.
  intros st st' sg Hacc. unfold flush_if_full, and_then, post_ads.
  rewrite not_read_only, feeding. cbn.
  intros E. stmt_cases; auto; unfold accounted, pending in *; cbn in *.
  - rewrite appended_app, posted_app; cbn. by rewrite !app_nil_r.
  - rewrite appended_app, posted_app; cbn. rewrite !app_nil_r, Hacc.
    rewrite <- (assoc_L (++)). apply Permutation_app_head.
    rewrite <- (dict_set_clear _ idx) at 1. apply Permutation_app_comm.
Qed.

Lemma update_cursor_accounted job_ad : preserves accounted (update_cursor k job_ad).
Proof. intros st st' sg Hacc E. unfold update_cursor in E. stmt_cases; auto. Qed.

Lemma check_deadline_accounted : preserves accounted (check_deadline w).
Proof.
  intros st st' sg Hacc E. unfold check_deadline in E. stmt_cases; auto.
  unfold accounted, pending in *. cbn. rewrite appended_app, posted_app. cbn.
  by rewrite !app_nil_r.
Qed.

Lemma conversion_failed_accounted : preserves accounted conversion_failed.
Proof.
  intros st st' sg Hacc E. unfold conversion_failed in E. stmt_cases; auto.
  unfold accounted, pending in *. cbn. rewrite appended_app, posted_app. cbn.
  by rewrite !app_nil_r.
Qed.

Lemma loop_body_accounted job_ad : preserves accounted (loop_body k w a job_ad).
Proof.
  unfold loop_body. intros st st' sg Hacc.
  destruct (to_json w job_ad) as [dict_ad|]; [|by apply conversion_failed_accounted].
  destruct (index_time _ _ _) as [e|t]; [by intros [= <- _]|].
  revert st st' sg Hacc.
  repeat apply preserves_and_then;
    eauto using append_ad_accounted, flush_if_full_accounted,
      update_cursor_accounted, check_deadline_accounted.
  - by intros st st' sg Hacc [= <- _].
  - intros st st' sg Hacc E. unfold check_cap in E. by stmt_cases.
Qed.

Lemma for_steps_accounted items : preserves accounted (for_steps k w a items).
Proof.
  induction items as [|[job_ad|e] rest IH]; intros st st' sg Hacc; cbn.
  - by intros [= <- _].
  - destruct (loop_body k w a job_ad st) as [st1 sg1] eqn:E1.
    pose proof (loop_body_accounted _ _ _ _ Hacc E1).
    destruct sg1; intros E; [exact (IH _ _ _ H E)| |]; by inversion E; subst.
  - by intros [= <- _].
Qed.

Lemma except_handler_accounted e st : accounted st -> accounted (except_handler e st).
Proof.
  intros Hacc. destruct e; cbn; auto;
    unfold accounted, pending in *; cbn; rewrite appended_app, posted_app; cbn;
    by rewrite !app_nil_r.
Qed.

Lemma for_loop_accounted items st : accounted st -> accounted (for_loop k w a items st).
Proof.
  intros Hacc. unfold for_loop.
  destruct (for_steps k w a items st) as [st1 sg] eqn:E.
  pose proof (for_steps_accounted _ _ _ _ Hacc E).
  destruct sg; auto using except_handler_accounted.
Qed.

(** The final flush, when it runs to its end, has delivered every
    entry of the items it walked over. *)
Lemma post_remaining_posted items st st' :
  post_remaining k w a items st = (st', Next) ->
  posted (trace st') = posted (trace st) ++ concat items.*2.
Proof.
  revert st. induction items as [|[idx ad_list] rest IH]; intros st; cbn.
  - intros [= <-]. by rewrite app_nil_r.
  - unfold and_then. rewrite not_read_only, feeding. cbn.
    destruct ad_list as [|e ad_list].
    + intros E. by apply IH in E.
    + unfold post_ads. destruct (post_ads_raises w (post_calls st)); [done|].
      intros E. apply IH in E. rewrite E. cbn. rewrite posted_app. cbn.
      by rewrite app_nil_r, <- (assoc_L (++)).
Qed.
End Fed.

(** The final flush touches neither the buffers nor the flags, appends
    nothing, puts nothing, and is left normally or by an exception. *)
Lemma post_remaining_frame k w a items st st' sg :
  post_remaining k w a items st = (st', sg) ->
  buffered_ads st' = buffered_ads st /\ timed_out st' = timed_out st /\
  last_completion st' = last_completion st /\ since st' = since st /\
  appended (trace st') = appended (trace st) /\
  puts (trace st') = puts (trace st) /\
  alerts (trace st') = alerts (trace st) /\
  queries (trace st') = queries (trace st) /\
  sg <> Break.
Proof.
  revert st. induction items as [|[idx ad_list] rest IH]; intros st; cbn.
  - intros [= <- <-]. done.
  - unfold and_then.
    assert (Hpost : forall st1 sg1, post_ads w idx ad_list st = (st1, sg1) ->
      buffered_ads st1 = buffered_ads st /\ timed_out st1 = timed_out st /\
      last_completion st1 = last_completion st /\ since st1 = since st /\
      appended (trace st1) = appended (trace st) /\
      puts (trace st1) = puts (trace st) /\
      alerts (trace st1) = alerts (trace st) /\
      queries (trace st1) = queries (trace st) /\ sg1 <> Break).
    { unfold post_ads. intros st1 sg1 E. stmt_cases; cbn;
        rewrite appended_app, puts_app, alerts_app, queries_app; cbn;
        by rewrite !app_nil_r. }
    destruct ad_list as [|e ad_list];
      [|destruct (negb (read_only a)); [destruct (es_feed k a)|]];
      cbn beta; try apply IH.
    destruct (post_ads w idx (e :: ad_list) st) as [st1 sg1].
    specialize (Hpost _ _ eq_refl).
    destruct Hpost as (<- & <- & <- & <- & <- & <- & <- & <- & Hsg).
    destruct sg1; try done; try (by intros [= <- <-]); apply IH.
Qed.

(** ** Only the last statement of a worker puts a checkpoint message *)


Lemma loop_body_quiet k w a job_ad st st' sg :
  loop_body k w a job_ad st = (st', sg) ->
  puts (trace st') = puts (trace st) /\ queries (trace st') = queries (trace st).
Proof.
  unfold_body. intros E. stmt_cases; cbn;
    rewrite ?puts_app, ?queries_app; cbn; by rewrite ?app_nil_r.
Qed.

Lemma for_steps_quiet k w a items st st' sg :
  for_steps k w a items st = (st', sg) ->
  puts (trace st') = puts (trace st) /\ queries (trace st') = queries (trace st).
Proof.
  revert st. induction items as [|[job_ad|e] rest IH]; intros st; cbn.
  - by intros [= <- _].
  - destruct (loop_body k w a job_ad st) as [st1 sg1] eqn:E1.
    apply loop_body_quiet in E1 as [<- <-].
    destruct sg1; [apply IH| |]; by intros [= <- _].
  - by intros [= <- _].
Qed.

Lemma except_handler_quiet e st :
  puts (trace (except_handler e st)) = puts (trace st) /\
  queries (trace (except_handler e st)) = queries (trace st).
Proof. destruct e; cbn; rewrite ?puts_app, ?queries_app; cbn; by rewrite ?app_nil_r. Qed.

Lemma for_loop_quiet k w a items st :
  puts (trace (for_loop k w a items st)) = puts (trace st) /\
  queries (trace (for_loop k w a items st)) = queries (trace st).
Proof.
  unfold for_loop. destruct (for_steps k w a items st) as [st1 sg] eqn:E.
  apply for_steps_quiet in E as [<- <-]. destruct sg; auto using except_handler_quiet.
Qed.

Lemma query_issued_puts k a st : puts (trace (query_issued k a st)) = puts (trace st).
Proof.
  unfold query_issued. destruct (negb (dry_run a)), k; cbn;
    rewrite ?puts_app; cbn; by rewrite ?app_nil_r.
Qed.

Lemma put_in_puts pre n c post : (n, c) ∈ puts (pre ++ EvPut n c :: post).
Proof. rewrite puts_app. cbn. set_solver. Qed.

Lemma last_put_unique tr n c pre n' c' post :
  puts tr = [] -> tr ++ [EvPut n c] = pre ++ EvPut n' c' :: post ->
  pre = tr /\ post = [].
Proof.
  revert pre. induction tr as [|e tr IH]; intros pre Hno E.
  - destruct pre as [|e' [|e'' pre]]; by simplify_eq/=.
  - change (e :: tr) with ([e] ++ tr) in Hno. rewrite puts_app in Hno.
    apply app_eq_nil in Hno as [He Hno].
    destruct pre as [|e' pre]; cbn in E; injection E as -> E.
    + discriminate He.
    + by destruct (IH pre Hno E) as [-> ->].
Qed.


Lemma harvest_flushed k w a name st0 st sg :
  read_only a = false -> es_feed k a = true ->
  trace st0 = [] -> buffered_ads st0 = [] ->
  harvest k w a name st0 = (st, sg) ->
  flushed_before_put (trace st) /\ (sg <> Next -> puts (trace st) = []).
Proof.
  intros Hro Hfeed Htr Hbuf. unfold harvest, finish.
  set (st2 := for_loop k w a (history_iter k w a st0) (query_issued k a st0)).
  assert (Hacc : accounted st2).
  { apply for_loop_accounted; [done..|].
    unfold accounted, pending, query_issued.
    destruct (negb (dry_run a)), k; cbn; by rewrite Htr, Hbuf. }
  assert (Hno : puts (trace st2) = []).
  { unfold st2. rewrite (proj1 (for_loop_quiet _ _ _ _ _)), query_issued_puts.
    by rewrite Htr. }
  destruct (post_remaining k w a (buffered_ads st2) st2) as [st3 sg3] eqn:E3.
  pose proof (post_remaining_frame _ _ _ _ _ _ _ E3)
    as (Hb & _ & _ & _ & Happ & Hputs & _ & _ & Hbrk).
  assert (Hnone : flushed_before_put (trace st3)).
  { intros pre n c post Heq. pose proof (put_in_puts pre n c post) as Hin.
    rewrite <- Heq, Hputs, Hno in Hin. set_solver. }
  destruct sg3; [|done|].
  - apply (post_remaining_posted _ _ _ Hro Hfeed) in E3.
    destruct (fromtimestamp_raises w (last_completion st3));
      [intros [= <- <-]; split; [done|]; intros _; by rewrite Hputs|].
    destruct (negb (timed_out st3)); intros [= <- <-]; split; try done.
    intros pre n c post Heq. cbn in Heq.
    apply last_put_unique in Heq as [-> ->]; [|by rewrite Hputs].
    cbn. rewrite appended_app. cbn. rewrite app_nil_r, Happ, E3. exact Hacc.
  - intros [= <- <-]. split; [done|]. intros _. by rewrite Hputs.
Qed.


(** ** The checkpoint message and the flushes *)

(** While the sink is fed (the run is not read-only and the history feed
    of the worker's kind is on), a checkpoint message is put only after
    every entry appended to a buffer during the run has been delivered by a
    call of the sink that returned; and when an exception leaves the
    worker, as it does when a call of the final flush raises, no checkpoint
    message is put at all. *)
Theorem checkpoint_put_after_all_flushes (w : world) (a : args) (name : string)
    (k : kind) :
  read_only a = false ->
  es_feed k a = true ->
  match k with
  | Schedd => forall c,
      flushed_before_put (events (process_schedd w a name c)) /\
      (forall e, outcome (process_schedd w a name c) = inl e ->
                 puts (events (process_schedd w a name c)) = [])
  | Startd => forall s,
      flushed_before_put (events (process_startd w a name s)) /\
      (forall e, outcome (process_startd w a name s) = inl e ->
                 puts (events (process_startd w a name s)) = [])
  end.
Proof.
  intros Hro Hfeed.
  assert (Hpre : flushed_before_put [EvAlert TimeoutWarning]).
  { intros pre n c post Heq. pose proof (put_in_puts pre n c post) as Hin.
    rewrite <- Heq in Hin. cbn in Hin. set_solver. }
  destruct k; intros c.
  - unfold process_schedd. destruct (time_remaining w 0 <? 0); [by split|].
    destruct (harvest Schedd w a name _) as [st sg] eqn:E.
    apply harvest_flushed in E as [Hfl Hno]; [|done..].
    destruct sg; cbn; (split; [done|]); intros e' [=]. by apply Hno.
  - unfold process_startd. destruct (time_remaining w 0 <? 0); [by split|].
    destruct (harvest Startd w a name _) as [st sg] eqn:E.
    apply harvest_flushed in E as [Hfl Hno]; [|done..].
    destruct sg; cbn; (split; [done|]); intros e' [=]. by apply Hno.
Qed.

Lemma checkpoint_put_after_all_flushes_witness :
  read_only sim_args = false /\ es_feed Schedd sim_args = true /\
  flushed_before_put (events (process_schedd (sim_world five) sim_args "schedd1" 0)).
Proof.
  split; [reflexivity|]. split; [reflexivity|].
  apply (checkpoint_put_after_all_flushes (sim_world five) sim_args "schedd1" Schedd
           eq_refl eq_refl 0).
Defined.

(** A read-only run does not keep this order: the four convertible jobs
    are buffered, nothing is ever sent, and the checkpoint message is put. *)
Lemma read_only_run_puts_without_flush :
  ~ flushed_before_put
      (events (process_schedd (sim_world five) (with_read_only true sim_args)
                 "schedd1" 0)).
Proof.
  intros H.
  specialize (H (take 6 (events (process_schedd (sim_world five)
                   (with_read_only true sim_args) "schedd1" 0)))
                "schedd1" (Scalar 5) []).
  apply Permutation_length in H; [|by vm_compute].
  vm_compute in H. discriminate H.
Qed.

(** A flush inside the loop that raises does not keep the checkpoint
    message back: the handler around the loop catches the exception, the
    final flush sends the same batch again, and the message is put. *)
Example in_loop_flush_failure_is_retried :
  let r := process_schedd (with_sink (fun n => Nat.eqb n 0) (sim_world five))
             (with_bunch_size 1 sim_args) "schedd1" 0 in
  events r =
    [EvScheddQuery (history_query 0) 10000;
     EvAppend "htcondor-1" ("j1", job "j1" 1);
     EvPostRaised "htcondor-1" [("j1", job "j1" 1)];
     EvAlert QueryError;
     EvPost "htcondor-1" [("j1", job "j1" 1)];
     EvPut "schedd1" (Scalar 0)].
Proof. by vm_compute. Qed.

(** C1: the code does not keep the claim.  The comment above the put
    (lines 186-187) says that at this point all jobs have been processed
    and uploaded; the posts are guarded by [read_only] (lines 111, 168) and
    the put (line 188) is not.  In a read-only run over five jobs the four
    convertible ones are buffered, the sink is never called, and the worker
    puts and returns the cursor of the newest job; a feeding run started
    from that cursor then delivers the job at the cursor and nothing else,
    so the documents of the other three jobs never reach the sink. *)
Theorem read_only_run_advances_cursor_past_unsent_ads :
  let ro := process_schedd (sim_world five) (with_read_only true sim_args) "schedd1" 0 in
  let next := process_schedd (sim_world five) sim_args "schedd1" 5 in
  length (appended (events ro)) = 4%nat /\
  sink_calls (events ro) = [] /\
  puts (events ro) = [("schedd1", Scalar 5)] /\
  outcome ro = inr 5 /\
  posted (events next) = [("j5", job "j5" 5)].
Proof. repeat split; vm_compute; reflexivity. Qed.

(** The same gap opens in a run that feeds the sink when the loop is left
    early: with a cap of 1 over fifteen jobs that the daemon yields newest
    first, two jobs are delivered, the cursor put is that of the newest
    job, and the query built from it selects one of the fifteen. *)
Example capped_run_puts_cursor_past_unread_ads :
  let r := process_schedd (sim_world (rev fifteen)) (with_cap 1 sim_args) "schedd1" 0 in
  length (posted (events r)) = 2%nat /\
  puts (events r) = [("schedd1", Scalar 15)] /\
  length (filter (fun ad => selects (history_query 15) ad) fifteen) = 1%nat.
Proof. repeat split; vm_compute; reflexivity. Qed.

(** ** The query of a schedd run *)

Lemma harvest_queries k w a name st0 st sg :
  harvest k w a name st0 = (st, sg) ->
  queries (trace st) = queries (trace (query_issued k a st0)).
Proof.
  unfold harvest, finish.
  set (st2 := for_loop k w a (history_iter k w a st0) (query_issued k a st0)).
  destruct (post_remaining k w a (buffered_ads st2) st2) as [st3 sg3] eqn:E3.
  pose proof (post_remaining_frame _ _ _ _ _ _ _ E3)
    as (_ & _ & _ & _ & _ & _ & _ & Hq & _).
  assert (Hq2 : queries (trace st2) = queries (trace (query_issued k a st0))).
  { apply for_loop_quiet. }
  destruct sg3;
    [destruct (fromtimestamp_raises w (last_completion st3));
     [|destruct (negb (timed_out st3))]| |];
    intros [= <- <-]; cbn;
    rewrite ?queries_app; cbn; rewrite ?app_nil_r; congruence.
Qed.

Lemma classad_literal_in_range z :
  - int64_max <= z <= int64_max -> classad_literal z = z.
Proof.
  unfold classad_literal. intros Hz. rewrite Z.min_l by lia.
  destruct z; cbn; lia.
Qed.

Lemma history_query_selects c ad :
  - int64_max <= c <= int64_max ->
  selects (history_query c) ad = true <->
  exists z, ad !! "EnteredCurrentStatus" = Some (VInt z) /\ c <= z.
Proof.
  intros Hc. unfold selects, history_query. cbn [eval].
  rewrite (classad_literal_in_range c Hc).
  destruct (ad !! "EnteredCurrentStatus") as [[z|s]|]; cbn.
  - destruct (Z.leb_spec c z); split; try done.
    + intros _. by exists z.
    + intros (z' & [= <-] & Hle). lia.
  - split; [done|]. by intros (z & [=] & _).
  - split; [done|]. by intros (z & [=] & _).
Qed.

(** C2 (as amended): a schedd run that gets past the preflight and is not
    a dry run hands the daemon one query, built from the starting cursor
    [c]; for a cursor within the range of ClassAd's 64-bit integers that
    query selects exactly the ads whose [EnteredCurrentStatus] is greater
    than or equal to [c], so an ad whose ordering field equals the cursor
    is selected again. *)
Theorem schedd_query_selects_at_or_after_cursor (w : world) (a : args)
    (name : string) (c : Z) :
  dry_run a = false ->
  0 <= time_remaining w 0%nat ->
  - int64_max <= c <= int64_max ->
  queries (events (process_schedd w a name c)) =
    [EvScheddQuery (history_query c) (Z.max 10000 (process_max_documents a))] /\
  forall ad, selects (history_query c) ad = true <->
             exists z, ad !! "EnteredCurrentStatus" = Some (VInt z) /\ c <= z.
Proof.
  intros Hdry Hrem Hc. split; [|intros ad; by apply history_query_selects].
  unfold process_schedd. destruct (Z.ltb_spec (time_remaining w 0) 0); [lia|].
  destruct (harvest Schedd w a name _) as [st sg] eqn:E.
  apply harvest_queries in E. unfold query_issued in E. rewrite Hdry in E.
  cbn in E. by destruct sg.
Qed.

Lemma schedd_query_selects_at_or_after_cursor_witness :
  dry_run sim_args = false /\
  0 <= time_remaining (sim_world five) 0%nat /\
  - int64_max <= 3 <= int64_max /\
  queries (events (process_schedd (sim_world five) sim_args "schedd1" 3)) =
    [EvScheddQuery (history_query 3) 10000] /\
  (selects (history_query 3) (job "j3" 3) = true <->
   exists z, job "j3" 3 !! "EnteredCurrentStatus" = Some (VInt z) /\ 3 <= z).
Proof.
  assert (Hc : - int64_max <= 3 <= int64_max) by (vm_compute; split; discriminate).
  assert (Hrem : 0 <= time_remaining (sim_world five) 0%nat) by (vm_compute; discriminate).
  split; [reflexivity|]. split; [exact Hrem|]. split; [exact Hc|].
  destruct (schedd_query_selects_at_or_after_cursor (sim_world five) sim_args "schedd1" 3
              eq_refl Hrem Hc) as [Hq Hsel].
  split; [exact Hq|exact (Hsel (job "j3" 3))].
Defined.

(** C2 as stated fails: the query built from cursor 100 selects the job
    that entered its state at 100. *)
Lemma schedd_query_selects_the_cursor_itself :
  ~ (forall ad, selects (history_query 100) ad = true <->
                exists z, ad !! "EnteredCurrentStatus" = Some (VInt z) /\ 100 < z).
Proof.
  intros H. destruct (proj1 (H (job "j1" 100))) as (z & Hz & Hlt).
  - by vm_compute.
  - vm_compute in Hz. injection Hz as <-. lia.
Qed.

(** Beyond the 64-bit range the literal of the query no longer says the
    cursor: built from 2^63, the query selects a job that entered its state
    one second before. *)
Example history_query_out_of_range :
  selects (history_query (2 ^ 63)) (job "j1" (2 ^ 63 - 1)) = true.
Proof. by vm_compute. Qed.

(** ** The record cap *)

(** C3 claims that a cap of 10 over fifteen matching records lets exactly
    ten through.  Evaluated on such a stream, either worker converts,
    buffers and delivers eleven entries and puts the cursor of the eleventh
    job; no batch is left unflushed and the run is not timed out. *)
Theorem cap_of_ten_lets_eleven_through :
  (let r := process_schedd (sim_world fifteen) (with_cap 10 sim_args) "schedd1" 0 in
   length (appended (events r)) = 11%nat /\
   length (posted (events r)) = 11%nat /\
   alerts (events r) = [] /\
   puts (events r) = [("schedd1", Scalar 11)] /\
   outcome r = inr 11) /\
  (let r := process_startd (sim_world fifteen) (with_cap 10 sim_args) "node1"
              (Since (Some (VStr "Unknown")) 0) in
   length (appended (events r)) = 11%nat /\
   length (posted (events r)) = 11%nat /\
   alerts (events r) = [] /\
   puts (events r) = [("node1", Composite (Since (Some (VStr "j")) 11))] /\
   outcome r = inr (Since (Some (VStr "j")) 11)).
Proof. by vm_compute. Qed.

(** ** The preflight *)




(** ** The checkpoint file *)

Lemma load_dump_members l acc :
  l <> [] ->
  load_members (dump_members l) acc =
    Some (foldl (fun m kv => <[kv.1 := kv.2]> m) acc l).
Proof.
  revert acc. induction l as [|[k v] rest IH]; intros acc Hne; [done|].
  destruct rest as [|kv rest]; [done|].
  change (dump_members ((k, v) :: kv :: rest))
    with (TKey k :: TVal v :: TComma :: dump_members (kv :: rest)).
  cbn [load_members foldl]. by rewrite IH.
Qed.

Lemma foldl_insert_lookup (l : list (string * cursor)) (acc : gmap string cursor) i :
  NoDup l.*1 ->
  foldl (fun m kv => <[kv.1 := kv.2]> m) acc l !! i =
    match (list_to_map l : gmap string cursor) !! i with
    | Some v => Some v
    | None => acc !! i
    end.
Proof.
  revert acc. induction l as [|[k v] l IH]; intros acc Hnd; cbn.
  - by rewrite lookup_empty.
  - apply NoDup_cons in Hnd as [Hk Hnd]. rewrite IH by done.
    destruct (decide (k = i)) as [->|Hne].
    + rewrite lookup_insert_eq.
      rewrite (not_elem_of_list_to_map_1 _ i) by done.
      by rewrite lookup_insert_eq.
    + rewrite !lookup_insert_ne by done. done.
Qed.

Lemma json_load_dump (checkpoint : gmap string cursor) :
  json_load (json_dump checkpoint) = Some checkpoint.
Proof.
  unfold json_dump. destruct (map_to_list checkpoint) as [|kv l] eqn:E.
  - apply map_to_list_empty_iff in E as ->. done.
  - assert (json_load (TOpen :: dump_members (kv :: l))
            = load_members (dump_members (kv :: l)) ∅) as ->.
    { destruct kv as [k v]. by destruct l. }
    rewrite load_dump_members by done. f_equal. apply map_eq. intros i.
    rewrite <- E, foldl_insert_lookup by apply NoDup_fst_map_to_list.
    rewrite list_to_map_to_list, lookup_empty. by destruct (checkpoint !! i).
Qed.

(** C4 (as amended): [load_checkpoint] returns the mapping the file holds,
    and the empty mapping when the file is absent or cannot be opened; in
    these cases it does not raise. *)
Theorem load_checkpoint_tolerates_missing_file :
  (forall checkpoint, load_checkpoint (Text (json_dump checkpoint)) = inr checkpoint) /\
  load_checkpoint Absent = inr ∅ /\
  load_checkpoint Unreadable = inr ∅.
Proof.
  split; [|done]. intros checkpoint. unfold load_checkpoint.
  by rewrite json_load_dump.
Qed.

(** C4 as stated fails on a file that is present but cut short: the decode
    error is not an [IOError] and leaves [load_checkpoint]. *)
Lemma load_checkpoint_raises_on_torn_file :
  load_checkpoint (Text [TOpen; TKey "schedd1"]) = inl ValueError /\
  load_checkpoint (Text [TOpen; TKey "schedd1"]) <> inr ∅.
Proof. by vm_compute. Qed.

(** C5 (as amended): when neither the open nor any write raises,
    [update_checkpoint] leaves a file that holds the whole new mapping, the
    old one with the one key set, and nothing else; when the load before it
    raises, or the open, the exception leaves [update_checkpoint] and the
    file is left as it was. *)
Theorem update_checkpoint_rewrites_whole_store (d : disk) (name : string)
    (c : cursor) (f : file) :
  (forall e, load_checkpoint f = inl e ->
     update_checkpoint d name c f = (f, inl e)) /\
  (forall checkpoint, load_checkpoint f = inr checkpoint ->
     (open_w_raises d = true -> update_checkpoint d name c f = (f, inl IOError)) /\
     (open_w_raises d = false -> write_raises_at d = None ->
        update_checkpoint d name c f =
          (Text (json_dump (<[name := c]> checkpoint)), inr ()) /\
        load_checkpoint (Text (json_dump (<[name := c]> checkpoint)))
          = inr (<[name := c]> checkpoint))).
Proof.
  unfold update_checkpoint. split.
  - by intros e ->.
  - intros checkpoint ->. split.
    + by intros ->.
    + intros -> ->. split; [done|].
      unfold load_checkpoint. by rewrite json_load_dump.
Qed.

(** A first update on a missing file, and an update on a file that does
    not decode. *)
Lemma update_checkpoint_rewrites_whole_store_witness :
  load_checkpoint Absent = inr ∅ /\
  update_checkpoint (Disk false None) "schedd1" (Scalar 5) Absent =
    (Text (json_dump (<["schedd1" := Scalar 5]> ∅)), inr ()) /\
  load_checkpoint (Text [TOpen; TKey "schedd1"]) = inl ValueError /\
  update_checkpoint (Disk false None) "schedd1" (Scalar 5) (Text [TOpen; TKey "schedd1"])
    = (Text [TOpen; TKey "schedd1"], inl ValueError).
Proof.
  split; [reflexivity|]. split; [|split; [reflexivity|]].
  - exact (proj1 (proj2 (proj2 (update_checkpoint_rewrites_whole_store
                                  (Disk false None) "schedd1" (Scalar 5) Absent)
                           ∅ eq_refl) eq_refl eq_refl)).
  - exact (proj1 (update_checkpoint_rewrites_whole_store (Disk false None) "schedd1"
                    (Scalar 5) (Text [TOpen; TKey "schedd1"])) ValueError eq_refl).
Defined.

(** C5 as stated fails when a write raises partway: the file was emptied
    by the open and holds the pieces written so far, which is neither what
    it held before nor the new mapping, and it no longer loads. *)
Lemma update_checkpoint_torn_by_failed_write :
  let old := Text (json_dump {[ "schedd1" := Scalar 5 ]}) in
  let new := Text (json_dump (<["schedd2" := Scalar 7]> {[ "schedd1" := Scalar 5 ]})) in
  let after := update_checkpoint (Disk false (Some 2%nat)) "schedd2" (Scalar 7) old in
  load_checkpoint old = inr {[ "schedd1" := Scalar 5 ]} /\
  after.2 = inl IOError /\
  after.1 <> old /\ after.1 <> new /\
  load_checkpoint after.1 = inl ValueError.
Proof. by vm_compute. Qed.

(** ** Waiting for the workers *)

Lemma wait_futures_timeout clk i futures evs t name timeout :
  wait_futures clk i futures = (evs, t) ->
  CWait name timeout ∈ evs ->
  exists j future,
    futures !! j = Some (name, future) /\
    -30 < remaining_raw clk (i + j) /\
    timeout = remaining clk (i + j) + 10.
Proof.
  revert i evs t. induction futures as [|[n future] rest IH]; intros i evs t; cbn.
  - intros [= <- _] Hin. by apply elem_of_nil in Hin.
  - destruct (Z.ltb_spec (-30) (remaining_raw clk i)) as [Hraw|_].
    + assert (Hhere : exists j g, ((n, future) :: rest) !! j = Some (n, g) /\
                -30 < remaining_raw clk (i + j) /\
                remaining clk i + 10 = remaining clk (i + j) + 10).
      { exists 0%nat, future. by rewrite Nat.add_0_r. }
      assert (Hrest : forall handled evs' t',
                wait_futures clk (S i) rest = (evs', t') ->
                (forall ev, ev ∈ handled -> exists s, ev = CAlert s) ->
                CWait name timeout ∈ CWait n (remaining clk i + 10) :: handled ++ evs' ->
                exists j g, ((n, future) :: rest) !! j = Some (name, g) /\
                  -30 < remaining_raw clk (i + j) /\
                  timeout = remaining clk (i + j) + 10).
      { intros handled evs' t' E Hh Hin.
        apply elem_of_cons in Hin as [[= -> ->]|Hin]; [done|].
        apply elem_of_app in Hin as [Hin|Hin]; [by destruct (Hh _ Hin)|].
        destruct (IH _ _ _ E Hin) as (j & g & Hj & Hr & Ht).
        exists (S j), g. by rewrite Nat.add_succ_r. }
      destruct (wait_futures clk (S i) rest) as [evs' t'] eqn:E.
      destruct (future _); intros [= <- _] Hin.
      * eapply (Hrest []); [done| |done]. intros ev Hev. by apply elem_of_nil in Hev.
      * eapply (Hrest [_]); [done| |done]. intros ev Hev.
        apply list_elem_of_singleton in Hev. eauto.
      * eapply (Hrest [_]); [done| |done]. intros ev Hev.
        apply list_elem_of_singleton in Hev. eauto.
      * apply list_elem_of_singleton in Hin as [= -> ->]. done.
    + intros [= <- _] Hin. by apply elem_of_nil in Hin.
Qed.

(** C6 (as amended): every call of [future.get] the coordinator makes is
    given the remaining global time read at that moment plus ten seconds
    (and is made only if the raw remaining time is above -30). *)
Theorem wait_timeout_is_remaining_plus_ten (clk : coordinator_clock)
    (futures : list (string * (Z -> get_result))) (name : string) (timeout : Z) :
  CWait name timeout ∈ (process_histories_wait clk futures).1 ->
  exists j future,
    futures !! j = Some (name, future) /\
    -30 < remaining_raw clk j /\
    timeout = remaining clk j + 10.
Proof.
  unfold process_histories_wait.
  destruct (wait_futures clk 0 futures) as [evs t] eqn:E. intros Hin.
  assert (Hin' : CWait name timeout ∈ evs).
  { destruct t; cbn in Hin; try done.
    apply elem_of_app in Hin as [Hin|Hin]; [done|].
    by apply list_elem_of_singleton in Hin. }
  apply (wait_futures_timeout _ _ _ _ _ _ _ E Hin').
Qed.

Lemma wait_timeout_is_remaining_plus_ten_witness :
  let clk := CoordinatorClock (fun _ => 100) (fun _ => 100) in
  let futures := [("schedd1", fun _ : Z => Returned)] in
  CWait "schedd1" 110 ∈ (process_histories_wait clk futures).1 /\
  exists j future,
    futures !! j = Some ("schedd1", future) /\
    -30 < remaining_raw clk j /\
    110 = remaining clk j + 10.
Proof.
  intros clk futures.
  assert (Hin : CWait "schedd1" 110 ∈ (process_histories_wait clk futures).1).
  { vm_compute. constructor. }
  split; [exact Hin|].
  exact (wait_timeout_is_remaining_plus_ten clk futures "schedd1" 110 Hin).
Defined.

(** C6 as stated fails with 100 seconds left: the wait is given 110
    seconds, not max(10, 100). *)
Lemma wait_timeout_is_not_the_maximum :
  let clk := CoordinatorClock (fun _ => 100) (fun _ => 100) in
  process_histories_wait clk [("schedd1", fun _ : Z => Returned)]
    = ([CWait "schedd1" 110], AllWaited) /\
  110 <> Z.max 10 (remaining clk 0%nat).
Proof. by vm_compute. Qed.

(** ** The bucket of a record *)

Lemma index_time_preferred LAUNCH index_attr ad v n :
  ad !! index_attr = Some v -> py_int v = inr n -> 0 < n ->
  index_time LAUNCH index_attr ad = inr v.
Proof.
  intros Hattr Hint Hpos. unfold index_time, ad_get, ad_item. rewrite Hattr. cbn.
  rewrite Hint. by destruct (Z.ltb_spec 0 n); [|lia].
Qed.

Lemma index_time_passed_over LAUNCH index_attr ad :
  passed_over ad index_attr ->
  index_time LAUNCH index_attr ad =
    match py_gt (ad_get ad "EnteredCurrentStatus" (VInt 0)) 0 with
    | inl e => inl e
    | inr true => ad_item ad "EnteredCurrentStatus"
    | inr false =>
      match py_gt (ad_get ad "QDate" (VInt 0)) 0 with
      | inl e => inl e
      | inr true => ad_item ad "QDate"
      | inr false => inr (VInt LAUNCH)
      end
    end.
Proof.
  unfold passed_over, index_time. intros Hover.
  destruct (py_int (ad_get ad index_attr (VInt 0))) as [e|n]; [done|].
  specialize (Hover n eq_refl). by destruct (Z.ltb_spec 0 n); [lia|].
Qed.

Lemma py_gt_not_positive ad k :
  not_positive ad k -> py_gt (ad_get ad k (VInt 0)) 0 = inr false.
Proof.
  unfold ad_get. intros [Hnone|(z & Hz & Hle)].
  - by rewrite Hnone.
  - rewrite Hz. cbn. by destruct (Z.ltb_spec 0 z); [lia|].
Qed.

Lemma py_gt_positive ad k z :
  ad !! k = Some (VInt z) -> 0 < z ->
  py_gt (ad_get ad k (VInt 0)) 0 = inr true /\ ad_item ad k = inr (VInt z).
Proof.
  unfold ad_get, ad_item. intros -> Hpos. cbn.
  by destruct (Z.ltb_spec 0 z); [|lia].
Qed.

(** C7 (as amended): the timestamp a record is bucketed by is, in this
    order: the value of the configured attribute if it is present and
    positive as [int()] reads it (an integer, or text that is a decimal
    literal; the value is handed on as it is); else [EnteredCurrentStatus]
    if positive; else [QDate] if positive; else the time at which the
    module was loaded ([_LAUNCH_TIME]), which is the same for every worker
    run of the process and is not the time the worker started. *)
Theorem index_time_priority_order (LAUNCH : Z) (index_attr : string) (ad : classad) :
  (forall v n, ad !! index_attr = Some v -> py_int v = inr n -> 0 < n ->
     index_time LAUNCH index_attr ad = inr v) /\
  (forall e, passed_over ad index_attr ->
     ad !! "EnteredCurrentStatus" = Some (VInt e) -> 0 < e ->
     index_time LAUNCH index_attr ad = inr (VInt e)) /\
  (forall q, passed_over ad index_attr ->
     not_positive ad "EnteredCurrentStatus" ->
     ad !! "QDate" = Some (VInt q) -> 0 < q ->
     index_time LAUNCH index_attr ad = inr (VInt q)) /\
  (passed_over ad index_attr ->
     not_positive ad "EnteredCurrentStatus" ->
     not_positive ad "QDate" ->
     index_time LAUNCH index_attr ad = inr (VInt LAUNCH)).
Proof.
  split; [apply index_time_preferred|].
  split; [|split].
  - intros e Hover He Hpos. rewrite index_time_passed_over by done.
    by destruct (py_gt_positive _ _ _ He Hpos) as [-> ->].
  - intros q Hover Hecs Hq Hpos. rewrite index_time_passed_over by done.
    rewrite (py_gt_not_positive _ _ Hecs).
    by destruct (py_gt_positive _ _ _ Hq Hpos) as [-> ->].
  - intros Hover Hecs Hq. rewrite index_time_passed_over by done.
    by rewrite (py_gt_not_positive _ _ Hecs), (py_gt_not_positive _ _ Hq).
Qed.

(** The four rungs on one job: preferred attribute 150 (as an integer and
    as text), state entered at 200, queued at 90, module loaded at 1000. *)
Lemma index_time_priority_order_witness :
  let ad : classad := <["QDate" := VInt 90]> (job "j1" 200) in
  index_time 1000 "CompletionDate" (<["CompletionDate" := VInt 150]> ad)
    = inr (VInt 150) /\
  index_time 1000 "CompletionDate" (<["CompletionDate" := VStr "150"]> ad)
    = inr (VStr "150") /\
  index_time 1000 "CompletionDate" ad = inr (VInt 200) /\
  index_time 1000 "CompletionDate" (<["EnteredCurrentStatus" := VInt 0]> ad)
    = inr (VInt 90) /\
  index_time 1000 "CompletionDate" (job "j1" 0) = inr (VInt 1000).
Proof.
  intros ad.
  assert (Hover : forall ad' : classad,
            ad' !! "CompletionDate" = None -> passed_over ad' "CompletionDate").
  { intros ad' Hnone n. unfold ad_get. rewrite Hnone. cbn. intros [= <-]. lia. }
  split; [|split; [|split; [|split]]].
  - apply (proj1 (index_time_priority_order 1000 "CompletionDate"
                    (<["CompletionDate" := VInt 150]> ad)) (VInt 150) 150);
      [reflexivity|reflexivity|lia].
  - apply (proj1 (index_time_priority_order 1000 "CompletionDate"
                    (<["CompletionDate" := VStr "150"]> ad)) (VStr "150") 150);
      [reflexivity|vm_compute; reflexivity|lia].
  - apply (proj1 (proj2 (index_time_priority_order 1000 "CompletionDate" ad)) 200);
      [apply Hover; reflexivity|reflexivity|lia].
  - apply (proj1 (proj2 (proj2 (index_time_priority_order 1000 "CompletionDate"
                    (<["EnteredCurrentStatus" := VInt 0]> ad)))) 90);
      [apply Hover; reflexivity|right; exists 0; split; [reflexivity|lia]
      |reflexivity|lia].
  - apply (proj2 (proj2 (proj2 (index_time_priority_order 1000 "CompletionDate"
                    (job "j1" 0)))));
      [apply Hover; reflexivity|right; exists 0; split; [reflexivity|lia]
      |left; reflexivity].
Defined.

(** The bucketing examples of the specification, with 150 the preferred
    timestamp and 200 the fallback. *)
Example index_time_examples :
  index_time 1000 "CompletionDate"
    (<["CompletionDate" := VInt 150]> (job "j1" 200)) = inr (VInt 150) /\
  index_time 1000 "CompletionDate"
    (<["CompletionDate" := VStr "150"]> (job "j1" 200)) = inr (VStr "150") /\
  index_time 1000 "CompletionDate"
    (<["CompletionDate" := VInt 0]> (job "j1" 200)) = inr (VInt 200) /\
  index_time 1000 "CompletionDate"
    (<["CompletionDate" := VStr "soon"]> (job "j1" 200)) = inr (VInt 200) /\
  index_time 1000 "CompletionDate"
    (<["QDate" := VInt 90]> (job "j1" 0)) = inr (VInt 90) /\
  index_time 1000 "CompletionDate"
    (<["QDate" := VStr "then"]> (job "j1" 0)) = inl TypeError.
Proof. repeat split; vm_compute; reflexivity. Qed.

(** In the worker, the entry of a converted ad goes to the bucket named
    after the timestamp [index_time] returns for the module's launch time. *)
Lemma loop_body_bucket k w a job_ad dict_ad t st st' sg :
  to_json w job_ad = Some dict_ad ->
  index_time (LAUNCH_TIME w) (es_index_date_attr a) job_ad = inr t ->
  loop_body k w a job_ad st = (st', sg) ->
  exists tr,
    trace st' =
      trace st ++
      EvAppend (get_index w t (es_index_name a) (es_feed k a && negb (read_only a)))
               (unique_doc_id w dict_ad, dict_ad) :: tr.
Proof.
  intros Hconv Hidx. unfold_body. rewrite Hconv, Hidx. intros E.
  stmt_cases; cbn; rewrite <- ?(assoc_L (++)); by eexists.
Qed.

(** C7 as stated fails: the module was loaded at 1000 and the worker was
    entered at 1005; a job with no positive timestamp lands in the bucket
    of 1000, not in that of the worker's start. *)
Lemma bucket_of_last_resort_is_not_worker_start :
  let w := sim_world [job "j1" 0] in
  let r := process_schedd w sim_args "schedd1" 0 in
  time_time w = 1005 /\
  index_time (LAUNCH_TIME w) (es_index_date_attr sim_args) (job "j1" 0)
    = inr (VInt 1000) /\
  index_time (LAUNCH_TIME w) (es_index_date_attr sim_args) (job "j1" 0)
    <> inr (VInt (time_time w)) /\
  events r =
    [EvScheddQuery (history_query 0) 10000;
     EvAppend (get_index w (VInt 1000) "htcondor" true) ("j1", job "j1" 0);
     EvPost (get_index w (VInt 1000) "htcondor" true) [("j1", job "j1" 0)];
     EvPut "schedd1" (Scalar 0)] /\
  get_index w (VInt 1000) "htcondor" true
    <> get_index w (VInt (time_time w)) "htcondor" true.
Proof.
  cbv zeta. repeat split; try (vm_compute; reflexivity); vm_compute; intros [=].
Qed.

(** ** The loop over a stream in two parts *)

Lemma for_steps_app k w a items1 items2 st :
  for_steps k w a (items1 ++ items2) st =
    match for_steps k w a items1 st with
    | (st1, Next) => for_steps k w a items2 st1
    | r => r
    end.
Proof.
  revert st. induction items1 as [|[job_ad|e] rest IH]; intros st; cbn; [done| |done].
  destruct (loop_body k w a job_ad st) as [st1 []]; [apply IH|done..].
Qed.

(** ** A run that nothing interrupts *)

Section Calm.
Variables (k : kind) (w : world) (a : args).
Hypothesis not_read_only : read_only a = false.
Hypothesis feeding : es_feed k a = true.
Hypothesis sink_up : forall n, post_ads_raises w n = false.
Hypothesis in_time : forall n, 0 <= time_remaining w n.
Hypothesis in_range : forall t, fromtimestamp_raises w t = false.

(** One iteration over an ad that converts: it is left by [break] exactly
    when the count has passed the cap. *)
Lemma loop_body_converts job_ad dict_ad z t st :
  to_json w job_ad = Some dict_ad ->
  job_ad !! "EnteredCurrentStatus" = Some (VInt z) ->
  index_time (LAUNCH_TIME w) (es_index_date_attr a) job_ad = inr t ->
  exists st',
    loop_body k w a job_ad st
      = (st', if over_cap a (count st + 1) then Break else Next) /\
    appended (trace st') = appended (trace st) ++ [(unique_doc_id w dict_ad, dict_ad)] /\
    alerts (trace st') = alerts (trace st) /\
    count st' = count st + 1 /\
    last_completion st' = Z.max (last_completion st) z /\
    sent_warnings st' = sent_warnings st /\
    timed_out st' = timed_out st /\
    (k = Startd -> coherent st -> coherent st').
Proof.
  intros Hconv Hecs Hidx. unfold_body. rewrite Hconv, Hidx, Hecs.
  rewrite not_read_only, feeding. cbn.
  assert (Hclock : forall n, (time_remaining w n <? 0) = false).
  { intros n. destruct (Z.ltb_spec (time_remaining w n) 0); [|done].
    specialize (in_time n). lia. }
  destruct (Z.of_nat _ =? es_bunch_size a); cbn; rewrite ?sink_up; cbn;
    (destruct (last_completion st <? z) eqn:Hlt; cbn; [destruct k; cbn|]);
    rewrite Hclock; cbn.
  all: destruct (over_cap a (count st + 1)).
  all: eexists; split; [reflexivity|]; cbn.
  all: rewrite ?appended_app, ?alerts_app; cbn; rewrite ?app_nil_r.
  all: repeat split; try done; try lia.
  all: try (apply Z.ltb_lt in Hlt; lia); try (apply Z.ltb_ge in Hlt; lia).
  all: try (intros _; unfold coherent; cbn; intros; lia).
Qed.

Lemma under_cap n :
  process_max_documents a = 0 \/ n <= process_max_documents a ->
  over_cap a n = false.
Proof.
  unfold over_cap. intros [->|Hle]; [done|].
  destruct (Z.ltb_spec (process_max_documents a) n); [lia|]. apply andb_false_r.
Qed.

Lemma conversion_alerts_cons ad ads :
  conversion_alerts w (ad :: ads) =
    match to_json w ad with
    | Some _ => conversion_alerts w ads
    | None => [ConversionError]
    end.
Proof.
  unfold conversion_alerts. cbn [forallb].
  destruct (to_json w ad) as [d|]; case_bool_decide as H; cbn [andb]; try done;
    first [by destruct H as [? [=]] | exfalso; apply H; by eexists].
Qed.

Lemma entries_of_cons ad ads :
  entries_of w (ad :: ads) =
    match to_json w ad with
    | Some d => (unique_doc_id w d, d) :: entries_of w ads
    | None => entries_of w ads
    end.
Proof. unfold entries_of, entry_of. cbn. by destruct (to_json w ad). Qed.

Lemma running_max_cons c ad ads :
  running_max w c (ad :: ads) =
    match to_json w ad with
    | Some _ => running_max w (Z.max c (completion ad)) ads
    | None => running_max w c ads
    end.
Proof. unfold running_max. cbn. by destruct (to_json w ad). Qed.

(** The loop over a stream of ads that never raises and stays under the
    cap. *)
Lemma for_steps_calm ads : forall st,
  Forall (well_timed w a) ads ->
  process_max_documents a = 0 \/
    count st + Z.of_nat (length (entries_of w ads)) <= process_max_documents a ->
  exists st',
    for_steps k w a (Yield <$> ads) st = (st', Next) /\
    appended (trace st') = appended (trace st) ++ entries_of w ads /\
    alerts (trace st') =
      alerts (trace st) ++ (if sent_warnings st then [] else conversion_alerts w ads) /\
    count st' = count st + Z.of_nat (length (entries_of w ads)) /\
    last_completion st' = running_max w (last_completion st) ads /\
    timed_out st' = timed_out st /\
    (k = Startd -> coherent st -> coherent st').
Proof.
  induction ads as [|ad ads IH]; intros st Hwt Hcap.
  - exists st. destruct (sent_warnings st); cbn; rewrite ?app_nil_r;
      repeat split; try done; lia.
  - apply Forall_cons in Hwt as [Had Hwt]. rewrite conversion_alerts_cons.
    rewrite entries_of_cons, running_max_cons in *. cbn [fmap list_fmap for_steps].
    destruct (to_json w ad) as [dict_ad|] eqn:Hconv.
    + destruct Had as [[z Hz] [t Ht]]; [by rewrite Hconv|].
      rewrite length_cons, Nat2Z.inj_succ in *.
      destruct (loop_body_converts ad dict_ad z t st Hconv Hz Ht)
        as (st1 & -> & Happ & Hal & Hcnt & Hlc & Hsw & Hto & Hcoh).
      rewrite under_cap by (destruct Hcap; [by left|right; lia]).
      destruct (IH st1 Hwt)
        as (st' & -> & Happ' & Hal' & Hcnt' & Hlc' & Hto' & Hcoh');
        [rewrite Hcnt; lia|].
      exists st'. split; [done|].
      rewrite Happ', Happ, Hal', Hal, Hsw, Hcnt', Hcnt, Hlc', Hlc, Hto', Hto.
      cbn. rewrite <- (assoc_L (++)). unfold completion. rewrite Hz.
      repeat split; try done; [lia|auto].
    + unfold loop_body. rewrite Hconv. unfold conversion_failed.
      destruct (sent_warnings st) eqn:Hsw.
      * destruct (IH st Hwt Hcap)
          as (st' & -> & Happ' & Hal' & Hcnt' & Hlc' & Hto' & Hcoh').
        exists st'. rewrite Hsw in Hal'. done.
      * destruct (IH (set_sent_warnings true (emit (EvAlert ConversionError) st)) Hwt Hcap)
          as (st' & -> & Happ' & Hal' & Hcnt' & Hlc' & Hto' & Hcoh').
        exists st'. cbn in *.
        rewrite appended_app, alerts_app in *. cbn in *.
        rewrite !app_nil_r in *. repeat split; try done.
Qed.

Lemma post_remaining_calm items : forall st,
  exists st', post_remaining k w a items st = (st', Next).
Proof.
  induction items as [|[idx ad_list] rest IH]; intros st; cbn.
  - by exists st.
  - unfold and_then. rewrite not_read_only, feeding. cbn.
    destruct ad_list; [apply IH|].
    unfold post_ads. rewrite sink_up. apply IH.
Qed.

(** What follows a loop that was not timed out: everything still buffered
    is delivered and the cursor is put. *)
Lemma finish_calm name st2 :
  accounted st2 -> puts (trace st2) = [] -> timed_out st2 = false ->
  exists st,
    finish k w a name st2 = (st, Next) /\
    posted (trace st) ≡ₚ appended (trace st2) /\
    appended (trace st) = appended (trace st2) /\
    alerts (trace st) = alerts (trace st2) /\
    puts (trace st) = [(name, final_cursor k st)] /\
    last_completion st = last_completion st2 /\
    since st = since st2.
Proof.
  intros Hacc Hno Hto. unfold finish.
  destruct (post_remaining_calm (buffered_ads st2) st2) as [st3 E3].
  rewrite E3.
  pose proof (post_remaining_frame _ _ _ _ _ _ _ E3)
    as (_ & Hto3 & Hlc3 & Hsi3 & Happ3 & Hputs & Hal3 & _ & _).
  apply (post_remaining_posted _ _ _ not_read_only feeding) in E3.
  rewrite in_range, Hto3, Hto. cbn. eexists. split; [reflexivity|]. cbn.
  rewrite posted_app, appended_app, alerts_app, puts_app. cbn. rewrite !app_nil_r.
  rewrite Hputs, Hno, Hal3, Happ3, Hlc3, Hsi3. repeat split; try done.
  rewrite E3. unfold accounted, pending in Hacc. by rewrite <- Hacc.
Qed.

(** The locals with which the loop is entered. *)
Lemma query_issued_fresh st0 :
  trace st0 = [] -> buffered_ads st0 = [] -> count st0 = 0 ->
  sent_warnings st0 = false -> timed_out st0 = false ->
  let stq := query_issued k a st0 in
  appended (trace stq) = [] /\ alerts (trace stq) = [] /\
  posted (trace stq) = [] /\ puts (trace stq) = [] /\
  buffered_ads stq = [] /\ count stq = 0 /\
  sent_warnings stq = false /\ timed_out stq = false /\
  last_completion stq = last_completion st0 /\ since stq = since st0.
Proof.
  intros Htr Hbuf Hcnt Hsw Hto. unfold query_issued.
  destruct (negb (dry_run a)), k; cbn; by rewrite Htr.
Qed.

(** A whole harvest that nothing interrupts. *)
Lemma harvest_calm name st0 ads :
  trace st0 = [] -> buffered_ads st0 = [] -> count st0 = 0 ->
  sent_warnings st0 = false -> timed_out st0 = false ->
  history_iter k w a st0 = Yield <$> ads ->
  Forall (well_timed w a) ads ->
  process_max_documents a = 0 \/
    Z.of_nat (length (entries_of w ads)) <= process_max_documents a ->
  exists st,
    harvest k w a name st0 = (st, Next) /\
    posted (trace st) ≡ₚ entries_of w ads /\
    alerts (trace st) = conversion_alerts w ads /\
    puts (trace st) = [(name, final_cursor k st)] /\
    last_completion st = running_max w (last_completion st0) ads /\
    (k = Startd -> coherent st0 -> coherent st).
Proof.
  intros Htr Hbuf Hcnt Hsw Hto Hiter Hwt Hcap. unfold harvest. rewrite Hiter.
  destruct (query_issued_fresh st0 Htr Hbuf Hcnt Hsw Hto)
    as (Hqa & Hql & Hqp & Hqu & Hqb & Hqc & Hqs & Hqt & Hqlc & Hqsi).
  set (stq := query_issued k a st0) in *.
  destruct (for_steps_calm ads stq Hwt)
    as (st2 & Hsteps & Happ & Hal & _ & Hlc & Hto2 & Hcoh).
  { rewrite Hqc. destruct Hcap; [by left|right; lia]. }
  assert (Hloop : for_loop k w a (Yield <$> ads) stq = st2).
  { unfold for_loop. by rewrite Hsteps. }
  rewrite Hloop.
  assert (Hacc : accounted st2).
  { rewrite <- Hloop. apply for_loop_accounted; [done..|].
    unfold accounted, pending. by rewrite Hqa, Hqp, Hqb. }
  assert (Hno : puts (trace st2) = []).
  { apply for_steps_quiet in Hsteps as [-> _]. done. }
  destruct (finish_calm name st2 Hacc Hno)
    as (st & -> & Hposted & _ & Hal' & Hputs & Hlc' & Hsi'); [congruence|].
  exists st. split; [done|].
  rewrite Hposted, Happ, Hqa, Hal', Hal, Hql, Hqs, Hlc', Hlc, Hqlc.
  repeat split; try done.
  intros Hk Hc0. unfold coherent. rewrite Hlc', Hsi'.
  apply Hcoh; [done|]. unfold coherent. by rewrite Hqlc, Hqsi.
Qed.

(** A harvest stopped by the cap.  The loop breaks when the count, already
    incremented, is greater than the cap: the ad with which the number of
    converted ads reaches cap + 1 is still buffered, delivered, and counted
    into the cursor that is put. *)
Lemma cap_lets_one_more_through name st0 ads ad rest :
  trace st0 = [] -> buffered_ads st0 = [] -> count st0 = 0 ->
  sent_warnings st0 = false -> timed_out st0 = false ->
  history_iter k w a st0 = Yield <$> (ads ++ ad :: rest) ->
  Forall (well_timed w a) (ads ++ [ad]) ->
  is_Some (to_json w ad) ->
  0 < process_max_documents a ->
  Z.of_nat (length (entries_of w ads)) = process_max_documents a ->
  exists st,
    harvest k w a name st0 = (st, Next) /\
    appended (trace st) = entries_of w (ads ++ [ad]) /\
    Z.of_nat (length (appended (trace st))) = process_max_documents a + 1 /\
    posted (trace st) ≡ₚ entries_of w (ads ++ [ad]) /\
    puts (trace st) = [(name, final_cursor k st)] /\
    last_completion st = running_max w (last_completion st0) (ads ++ [ad]).
Proof.
  intros Htr Hbuf Hcnt Hsw Hto Hiter Hwt [dict_ad Hconv] Hpos Hlen.
  unfold harvest. rewrite Hiter.
  destruct (query_issued_fresh st0 Htr Hbuf Hcnt Hsw Hto)
    as (Hqa & Hql & Hqp & Hqu & Hqb & Hqc & Hqs & Hqt & Hqlc & Hqsi).
  set (stq := query_issued k a st0) in *.
  apply Forall_app in Hwt as [Hwt Had]. apply (proj1 (Forall_singleton _ _)) in Had.
  destruct (Had (ex_intro _ dict_ad Hconv)) as [[z Hz] [t Ht]].
  destruct (for_steps_calm ads stq Hwt)
    as (st1 & Hsteps & Happ & _ & Hcnt1 & Hlc & Hto1 & _).
  { right. rewrite Hqc. lia. }
  destruct (loop_body_converts ad dict_ad z t st1 Hconv Hz Ht)
    as (st2 & Hbody & Happ2 & _ & _ & Hlc2 & _ & Hto2 & _).
  assert (Hover : over_cap a (count st1 + 1) = true).
  { unfold over_cap. rewrite Hcnt1, Hqc, Hlen.
    destruct (Z.eqb_spec (process_max_documents a) 0); [lia|].
    destruct (Z.ltb_spec (process_max_documents a) (0 + process_max_documents a + 1));
      [done|lia]. }
  rewrite Hover in Hbody.
  assert (Hfor : for_steps k w a (Yield <$> (ads ++ ad :: rest)) stq = (st2, Break)).
  { rewrite fmap_app, for_steps_app, Hsteps. cbn. by rewrite Hbody. }
  assert (Hloop : for_loop k w a (Yield <$> (ads ++ ad :: rest)) stq = st2).
  { unfold for_loop. by rewrite Hfor. }
  rewrite Hloop.
  assert (Hacc : accounted st2).
  { rewrite <- Hloop. apply for_loop_accounted; [done..|].
    unfold accounted, pending. by rewrite Hqa, Hqp, Hqb. }
  assert (Hno : puts (trace st2) = []).
  { apply for_steps_quiet in Hfor as [-> _]. done. }
  assert (Hall : appended (trace st2) = entries_of w (ads ++ [ad])).
  { rewrite Happ2, Happ, Hqa. unfold entries_of, entry_of.
    rewrite omap_app. cbn. by rewrite Hconv. }
  destruct (finish_calm name st2 Hacc Hno)
    as (st & -> & Hposted & Happ' & _ & Hputs & Hlc' & _); [congruence|].
  exists st. split; [done|]. rewrite Hposted, Happ', Hall.
  repeat split; try done.
  - unfold entries_of at 1. rewrite omap_app, length_app. fold (entries_of w ads).
    unfold entry_of. cbn. rewrite Hconv. cbn. lia.
  - rewrite Hlc', Hlc2, Hlc, Hqlc. unfold running_max. rewrite foldl_app. cbn.
    rewrite Hconv. unfold completion. by rewrite Hz.
Qed.
End Calm.

(** C8 (as amended): take a run that is not a dry run, feeds the sink,
    and is cut short by neither the deadline, the cap, the sink nor the
    daemon, over ads that can be bucketed and compared.  Then every ad that
    fails conversion is skipped and every other ad is delivered exactly
    once; one conversion alert is fired if some ad fails and none
    otherwise; and the cursor put on the queue carries the greatest
    completion time among the starting cursor and the converted ads (which
    is that of the last converted ad only when no earlier one is greater). *)
Theorem conversion_failures_are_skipped (w : world) (a : args) (name : string)
    (k : kind) (ads : list classad) :
  read_only a = false ->
  es_feed k a = true ->
  dry_run a = false ->
  (forall n, post_ads_raises w n = false) ->
  (forall n, 0 <= time_remaining w n) ->
  (forall t, fromtimestamp_raises w t = false) ->
  process_max_documents a = 0 \/
    Z.of_nat (length (entries_of w ads)) <= process_max_documents a ->
  Forall (well_timed w a) ads ->
  match k with
  | Schedd => forall c,
      schedd_history w (history_query c) (Z.max 10000 (process_max_documents a))
        = Yield <$> ads ->
      let r := process_schedd w a name c in
      posted (events r) ≡ₚ entries_of w ads /\
      alerts (events r) = conversion_alerts w ads /\
      puts (events r) = [(name, Scalar (running_max w c ads))] /\
      outcome r = inr (running_max w c ads)
  | Startd => forall s,
      startd_history w (since_str s) = Yield <$> ads ->
      let r := process_startd w a name s in
      posted (events r) ≡ₚ entries_of w ads /\
      alerts (events r) = conversion_alerts w ads /\
      exists s',
        puts (events r) = [(name, Composite s')] /\
        outcome r = inr s' /\
        EnteredCurrentStatus s' = running_max w (EnteredCurrentStatus s) ads
  end.
Proof.
  intros Hro Hfeed Hdry Hsink Htime Hrange Hcap Hwt.
  assert (Hpre : (time_remaining w 0 <? 0) = false).
  { destruct (Z.ltb_spec (time_remaining w 0) 0); [|done].
    specialize (Htime 0%nat). lia. }
  destruct k; intros c Hiter r; unfold r.
  - unfold process_schedd. rewrite Hpre.
    destruct (harvest_calm Schedd w a Hro Hfeed Hsink Htime Hrange name
                (init_locals c (Since None c)) ads)
      as (st & -> & Hposted & Hal & Hputs & Hlc & _); try done.
    { unfold history_iter. by rewrite Hdry. }
    cbn [events outcome]. cbn in Hlc, Hputs. by rewrite Hputs, Hlc.
  - unfold process_startd. rewrite Hpre.
    destruct (harvest_calm Startd w a Hro Hfeed Hsink Htime Hrange name
                (init_locals (EnteredCurrentStatus c) c) ads)
      as (st & -> & Hposted & Hal & Hputs & Hlc & Hcoh); try done.
    { unfold history_iter. by rewrite Hdry. }
    cbn [events outcome]. cbn in Hlc, Hputs. repeat split; try done.
    exists (since st). repeat split; try done.
    rewrite <- Hlc. symmetry. by apply Hcoh.
Qed.

(** Five ads, the third of which does not convert: four documents are
    delivered and one alert is fired. *)
Lemma conversion_failures_are_skipped_witness :
  let w := sim_world five in
  let r := process_schedd w sim_args "schedd1" 0 in
  Forall (well_timed w sim_args) five /\
  length (entries_of w five) = 4%nat /\
  conversion_alerts w five = [ConversionError] /\
  posted (events r) ≡ₚ entries_of w five /\
  alerts (events r) = conversion_alerts w five /\
  puts (events r) = [("schedd1", Scalar (running_max w 0 five))] /\
  outcome r = inr (running_max w 0 five).
Proof.
  intros w r.
  assert (Hwt : Forall (well_timed w sim_args) five).
  { unfold five.
    apply List.Forall_cons; [intros _; split; [exists 1|exists (VInt 1)]; by vm_compute|].
    apply List.Forall_cons; [intros _; split; [exists 2|exists (VInt 2)]; by vm_compute|].
    apply List.Forall_cons; [intros _; split; [exists 3|exists (VInt 3)]; by vm_compute|].
    apply List.Forall_cons; [intros _; split; [exists 4|exists (VInt 4)]; by vm_compute|].
    apply List.Forall_cons; [intros _; split; [exists 5|exists (VInt 5)]; by vm_compute|].
    apply List.Forall_nil. }
  split; [exact Hwt|]. split; [by vm_compute|]. split; [by vm_compute|].
  refine (conversion_failures_are_skipped w sim_args "schedd1" Schedd five
            eq_refl eq_refl eq_refl (fun _ => eq_refl) _ (fun _ => eq_refl)
            (or_introl eq_refl) Hwt 0 _).
  - intros n. by vm_compute.
  - by vm_compute.
Defined.

Example five_jobs_third_broken :
  let r := process_schedd (sim_world five) sim_args "schedd1" 0 in
  length (posted (events r)) = 4%nat /\
  alerts (events r) = [ConversionError] /\
  puts (events r) = [("schedd1", Scalar 5)] /\
  outcome r = inr 5.
Proof. by vm_compute. Qed.

(** C8 as stated fails on a stream in which the newest job comes first:
    the last ad converted completed at 1, and the cursor put is 5. *)
Lemma cursor_put_is_not_that_of_last_record :
  let w := sim_world (rev five) in
  let r := process_schedd w sim_args "schedd1" 0 in
  schedd_history w (history_query 0) 10000 = Yield <$> rev five /\
  last_converted w (rev five) = Some (job "j1" 1) /\
  completion (job "j1" 1) = 1 /\
  puts (events r) = [("schedd1", Scalar 5)] /\
  puts (events r) <> [("schedd1", Scalar (completion (job "j1" 1)))].
Proof.
  cbv zeta. repeat split; try (vm_compute; reflexivity).
  vm_compute. intros [=].
Qed.

(** ** At most one conversion alert, in every run *)

Lemma conversion_alert_count_app tr1 tr2 :
  conversion_alert_count (tr1 ++ tr2) =
    (conversion_alert_count tr1 + conversion_alert_count tr2)%nat.
Proof.
  unfold conversion_alert_count. by rewrite alerts_app, filter_app, length_app.
Qed.

Lemma conversion_alert_count_snoc tr e :
  conversion_alert_count (tr ++ [e]) =
    (conversion_alert_count tr +
     match e with EvAlert ConversionError => 1 | _ => 0 end)%nat.
Proof. rewrite conversion_alert_count_app. f_equal. by destruct e as [[]| | | | | |]. Qed.

Lemma loop_body_alerted_once k w a job_ad : preserves alerted_once (loop_body k w a job_ad).
Proof.
  intros st st' sg Hinv. unfold alerted_once in *. unfold_body. intros E.
  stmt_cases; cbn [trace emit set_buffered set_count set_sent_warnings set_timed_out
                     set_last_completion set_since tick_clock tick_post sent_warnings];
    rewrite ?conversion_alert_count_snoc, ?Nat.add_0_r; try done.
  all: repeat match goal with
              | H : sent_warnings _ = _ |- _ => rewrite H in *; clear H
              end.
  all: rewrite ?Hinv; done.
Qed.

Lemma for_steps_alerted_once k w a items : preserves alerted_once (for_steps k w a items).
Proof.
  induction items as [|[job_ad|e] rest IH]; intros st st' sg Hinv; cbn.
  - by intros [= <- _].
  - destruct (loop_body k w a job_ad st) as [st1 sg1] eqn:E1.
    pose proof (loop_body_alerted_once _ _ _ _ _ _ _ Hinv E1).
    destruct sg1; intros E; [exact (IH _ _ _ H E)| |]; by inversion E; subst.
  - by intros [= <- _].
Qed.

Lemma harvest_alerted_once k w a name st0 st sg :
  trace st0 = [] -> sent_warnings st0 = false ->
  harvest k w a name st0 = (st, sg) ->
  (conversion_alert_count (trace st) <= 1)%nat.
Proof.
  intros Htr Hsw. unfold harvest, finish.
  set (stq := query_issued k a st0).
  assert (Hq : alerted_once stq).
  { unfold stq, query_issued, alerted_once.
    destruct (negb (dry_run a)), k; cbn; by rewrite Htr, Hsw. }
  assert (H2 : (conversion_alert_count
                  (trace (for_loop k w a (history_iter k w a st0) stq)) <= 1)%nat).
  { unfold for_loop.
    destruct (for_steps k w a (history_iter k w a st0) stq) as [st1 sg1] eqn:E.
    pose proof (for_steps_alerted_once _ _ _ _ _ _ _ Hq E) as H1.
    unfold alerted_once in H1.
    assert (conversion_alert_count (trace st1) <= 1)%nat
      by (rewrite H1; destruct (sent_warnings st1); lia).
    destruct sg1 as [| |[]]; cbn [except_handler trace emit];
      rewrite ?conversion_alert_count_snoc; lia. }
  revert H2. generalize (for_loop k w a (history_iter k w a st0) stq). intros st2 H2.
  destruct (post_remaining k w a (buffered_ads st2) st2) as [st3 sg3] eqn:E3.
  pose proof (post_remaining_frame _ _ _ _ _ _ _ E3)
    as (_ & _ & _ & _ & _ & _ & Hal & _ & _).
  assert (H3 : (conversion_alert_count (trace st3) <= 1)%nat).
  { unfold conversion_alert_count in *. by rewrite Hal. }
  destruct sg3;
    [destruct (fromtimestamp_raises w (last_completion st3));
     [|destruct (negb (timed_out st3))]| |];
    intros [= <- <-];
    cbn [trace emit]; rewrite ?conversion_alert_count_snoc; lia.
Qed.

(** Whatever happens during a run, and whatever the arguments, at most one
    conversion alert is fired. *)
Lemma at_most_one_conversion_alert w a name :
  (forall c, (conversion_alert_count (events (process_schedd w a name c)) <= 1)%nat) /\
  (forall s, (conversion_alert_count (events (process_startd w a name s)) <= 1)%nat).
Proof.
  split; intros c; [unfold process_schedd|unfold process_startd];
    (destruct (time_remaining w 0 <? 0); [vm_compute; lia|]).
  - destruct (harvest Schedd w a name _) as [st sg] eqn:E.
    apply harvest_alerted_once in E; [|done..]. by destruct sg.
  - destruct (harvest Startd w a name _) as [st sg] eqn:E.
    apply harvest_alerted_once in E; [|done..]. by destruct sg.
Qed.

(** ** The composite cursor of a startd run *)

(** One iteration either keeps the cursor or moves it to the ad at hand,
    and then only to a strictly greater timestamp. *)
Lemma loop_body_since w a job_ad st st' sg :
  coherent st ->
  loop_body Startd w a job_ad st = (st', sg) ->
  coherent st' /\
  (since st' = since st \/
   exists z, job_ad !! "EnteredCurrentStatus" = Some (VInt z) /\
             EnteredCurrentStatus (since st) < z /\
             since st' = Since (job_ad !! "GlobalJobId") z).
Proof.
  unfold coherent. intros Hcoh. unfold_body. intros E.
  stmt_cases; cbn; (split; [done|]); try (by left).
  all: right; eexists; split; [done|]; split; [|done].
  all: repeat match goal with
              | H : (_ <? _) = true |- _ => apply Z.ltb_lt in H; cbn in H
              end; lia.
Qed.

Lemma for_steps_since w a items st st' sg :
  coherent st ->
  for_steps Startd w a items st = (st', sg) ->
  coherent st' /\
  (since st' = since st \/
   EnteredCurrentStatus (since st) < EnteredCurrentStatus (since st')).
Proof.
  revert st. induction items as [|[job_ad|e] rest IH]; intros st Hcoh; cbn.
  - intros [= <- _]. by split; [|left].
  - destruct (loop_body Startd w a job_ad st) as [st1 sg1] eqn:E1.
    destruct (loop_body_since _ _ _ _ _ _ Hcoh E1) as [Hcoh1 Hstep].
    assert (Hmono : since st1 = since st \/
              EnteredCurrentStatus (since st) < EnteredCurrentStatus (since st1)).
    { destruct Hstep as [->|(z & _ & Hlt & ->)]; [by left|by right]. }
    destruct sg1; try (by intros [= <- _]).
    intros E. destruct (IH _ Hcoh1 E) as [Hcoh' Hrest]. split; [done|].
    destruct Hmono as [<-|Hlt]; [done|]. right.
    destruct Hrest as [->|Hlt']; [done|lia].
  - intros [= <- _]. by split; [|left].
Qed.



(** ** More on the dict [buffered_ads] *)

Lemma dict_get_set_eq {V} (d : list (string * V)) k v :
  dict_get (dict_set k v d) k = Some v.
Proof.
  induction d as [|[k' v'] d IH]; cbn.
  - by rewrite decide_True.
  - destruct (decide (k' = k)) as [->|Hne]; cbn.
    + by rewrite decide_True.
    + by rewrite decide_False.
Qed.


Lemma dict_set_set {V} (d : list (string * V)) k v v' :
  dict_set k v (dict_set k v' d) = dict_set k v d.
Proof.
  induction d as [|[k0 v0] d IH]; cbn.
  - by rewrite decide_True.
  - destruct (decide (k0 = k)) as [->|Hne]; cbn.
    + by rewrite decide_True.
    + by rewrite decide_False, IH.
Qed.




Lemma dict_set_Forall {V} (P : string * V -> Prop) (d : list (string * V)) k v :
  Forall P d -> P (k, v) -> Forall P (dict_set k v d).
Proof.
  intros Hd Hv. induction Hd as [|[k' v'] d Hx Hd IH]; cbn.
  - by apply Forall_singleton.
  - destruct (decide (k' = k)); by apply List.Forall_cons.
Qed.

Lemma dict_get_Forall {V} (P : string * V -> Prop) (d : list (string * V)) k v :
  Forall P d -> dict_get d k = Some v -> P (k, v).
Proof.
  intros Hd. induction Hd as [|[k' v'] d Hx Hd IH]; cbn; [done|].
  destruct (decide (k' = k)) as [->|]; [by intros [= <-]|done].
Qed.

(** ** Traces bucket by bucket *)



Lemma sink_calls_app tr1 tr2 : sink_calls (tr1 ++ tr2) = sink_calls tr1 ++ sink_calls tr2.
Proof. unfold sink_calls. apply bind_app. Qed.

(** ** Each bucket gets its own entries, in order *)


Section FedBuckets.
Variables (k : kind) (w : world) (a : args).
Hypothesis not_read_only : read_only a = false.
Hypothesis feeding : es_feed k a = true.






End FedBuckets.





(** ** The size of the batches *)

Section Bunches.
Variables (k : kind) (w : world) (a : args).
Hypothesis bunch_positive : 1 <= es_bunch_size a.

Lemma pending_below idx st :
  below_bunch a st -> Z.of_nat (length (pending_in idx st)) < es_bunch_size a.
Proof.
  unfold below_bunch, pending_in. intros Hb.
  destruct (dict_get (buffered_ads st) idx) as [l|] eqn:E; cbn; [|lia].
  apply (dict_get_Forall _ _ _ _ Hb E).
Qed.

Lemma append_flush_bunch idx e st st1 st2 sg :
  below_bunch a st -> within_bunch a st ->
  append_ad idx e st = (st1, Next) ->
  flush_if_full k w a idx st1 = (st2, sg) ->
  within_bunch a st2 /\ (sg = Next -> below_bunch a st2).
Proof.
  intros Hb [_ Hcalls] [= <-]. pose proof (pending_below idx st Hb) as Hlt.
  unfold pending_in in Hlt. unfold flush_if_full, and_then, post_ads. proj_simpl.
  rewrite dict_get_set_eq. cbn [from_option id].
  set (ad_list := default [] (dict_get (buffered_ads st) idx) ++ [e]).
  assert (Hlen : Z.of_nat (length ad_list) <= es_bunch_size a).
  { unfold ad_list. rewrite length_app, Nat2Z.inj_add. cbn [length]. lia. }
  assert (Hpos : 1 <= Z.of_nat (length ad_list)).
  { unfold ad_list. rewrite length_app, Nat2Z.inj_add. cbn [length]. lia. }
  clearbody ad_list.
  assert (Hweak : Forall (fun il : string * list entry =>
                    Z.of_nat (length il.2) <= es_bunch_size a) (buffered_ads st)).
  { eapply Forall_impl; [exact Hb|]. cbn. intros; lia. }
  destruct (Z.eqb_spec (Z.of_nat (length ad_list)) (es_bunch_size a)) as [Hfull|Hnot].
  - destruct (negb (read_only a) && es_feed k a);
      [destruct (post_ads_raises w (post_calls _))|]; intros [= <- <-];
      unfold within_bunch, below_bunch; proj_simpl; rewrite ?dict_set_set;
      rewrite ?sink_calls_app; cbn [sink_calls mbind list_bind app]; rewrite ?app_nil_r.
    + split; [|done]. split.
      * apply dict_set_Forall; [done|]. cbn [fst snd length]; lia.
      * apply Forall_app. split; [done|]. apply Forall_singleton. cbn [fst snd length]; lia.
    + split; [split|intros _].
      * apply dict_set_Forall; [done|]; cbn [fst snd length]; lia.
      * apply Forall_app. split; [done|]. apply Forall_singleton. cbn [fst snd length]; lia.
      * apply dict_set_Forall; [done|]; cbn [fst snd length]; lia.
    + split; [split|intros _]; try done.
      * apply dict_set_Forall; [done|]; cbn [fst snd length]; lia.
      * apply dict_set_Forall; [done|]; cbn [fst snd length]; lia.
  - intros [= <- <-]. unfold within_bunch, below_bunch. proj_simpl.
    rewrite sink_calls_app. cbn [sink_calls mbind list_bind app]. rewrite app_nil_r.
    split; [split; [|done]|intros _].
    + apply dict_set_Forall; [done|]. cbn [fst snd length]; lia.
    + apply dict_set_Forall; [done|]. cbn [fst snd length]; lia.
Qed.

Lemma bunch_frame st st' :
  buffered_ads st' = buffered_ads st ->
  sink_calls (trace st') = sink_calls (trace st) ->
  (within_bunch a st -> within_bunch a st') /\ (below_bunch a st -> below_bunch a st').
Proof. unfold within_bunch, below_bunch. by intros -> ->. Qed.

(** What follows the flush in the loop body touches neither the buffers
    nor the sink. *)
Lemma after_flush_frame job_ad st st' sg :
  (incr_count ;; update_cursor k job_ad ;; check_deadline w ;; check_cap a) st = (st', sg) ->
  buffered_ads st' = buffered_ads st /\ sink_calls (trace st') = sink_calls (trace st).
Proof.
  unfold and_then, incr_count, update_cursor, check_deadline, check_cap. intros E.
  stmt_cases; proj_simpl; rewrite ?sink_calls_app; cbn [sink_calls mbind list_bind app];
    by rewrite ?app_nil_r.
Qed.

Lemma loop_body_bunch job_ad st st' sg :
  below_bunch a st -> within_bunch a st ->
  loop_body k w a job_ad st = (st', sg) ->
  within_bunch a st' /\ (sg = Next -> below_bunch a st').
Proof.
  intros Hb Hw. unfold loop_body.
  destruct (to_json w job_ad) as [dict_ad|].
  2:{ unfold conversion_failed. intros E.
      assert (buffered_ads st' = buffered_ads st /\
              sink_calls (trace st') = sink_calls (trace st)) as [Hbuf Hs].
      { stmt_cases; proj_simpl; rewrite ?sink_calls_app;
          cbn [sink_calls mbind list_bind app]; by rewrite ?app_nil_r. }
      destruct (bunch_frame _ _ Hbuf Hs). auto. }
  destruct (index_time _ _ _) as [e|t]; [by intros [= <- <-]|].
  set (idx := get_index w t _ _). set (e := (unique_doc_id w dict_ad, dict_ad)).
  unfold and_then at 1.
  destruct (append_ad idx e st) as [st1 sg1] eqn:E1.
  assert (sg1 = Next) as -> by (by injection E1).
  unfold and_then at 1.
  destruct (flush_if_full k w a idx st1) as [st2 sg2] eqn:E2.
  destruct (append_flush_bunch _ _ _ _ _ _ Hb Hw E1 E2) as [Hw2 Hb2].
  destruct sg2; try (by intros [= <- <-]).
  intros E. apply after_flush_frame in E as [Hbuf Hs].
  destruct (bunch_frame _ _ Hbuf Hs). auto.
Qed.

Lemma for_steps_bunch items : forall st st' sg,
  below_bunch a st -> within_bunch a st ->
  for_steps k w a items st = (st', sg) ->
  within_bunch a st'.
Proof.
  induction items as [|[job_ad|e] rest IH]; intros st st' sg Hb Hw; cbn.
  - by intros [= <- _].
  - destruct (loop_body k w a job_ad st) as [st1 sg1] eqn:E1.
    destruct (loop_body_bunch _ _ _ _ Hb Hw E1) as [Hw1 Hb1].
    destruct sg1; try (by intros [= <- _]). apply IH; auto.
  - by intros [= <- _].
Qed.

(** The final flush hands over what the buffers hold, leaving out the
    empty ones. *)
Lemma post_remaining_bunch items : forall st st' sg,
  Forall (fun il : string * list entry =>
            Z.of_nat (length il.2) <= es_bunch_size a) items ->
  Forall (fun il : string * list entry =>
            1 <= Z.of_nat (length il.2) <= es_bunch_size a) (sink_calls (trace st)) ->
  post_remaining k w a items st = (st', sg) ->
  Forall (fun il : string * list entry =>
            1 <= Z.of_nat (length il.2) <= es_bunch_size a) (sink_calls (trace st')).
Proof.
  induction items as [|[i l] rest IH]; intros st st' sg Hitems Hcalls; cbn.
  - by intros [= <- _].
  - apply Forall_cons in Hitems as [Hl Hitems]. cbn in Hl. unfold and_then.
    destruct l as [|e l]; [|destruct (negb (read_only a)); [destruct (es_feed k a)|]];
      cbn beta; try (by apply IH).
    assert (Hnew : Forall (fun il : string * list entry =>
              1 <= Z.of_nat (length il.2) <= es_bunch_size a)
              (sink_calls (trace st) ++ [(i, e :: l)])).
    { apply Forall_app. split; [done|]. apply Forall_singleton.
      cbn [snd length] in *. lia. }
    unfold post_ads. destruct (post_ads_raises w (post_calls st)).
    + intros [= <- _]. proj_simpl. by rewrite sink_calls_app.
    + apply IH; [done|]. proj_simpl. by rewrite sink_calls_app.
Qed.

Lemma harvest_bunch name st0 st sg :
  trace st0 = [] -> buffered_ads st0 = [] ->
  harvest k w a name st0 = (st, sg) ->
  Forall (fun il : string * list entry =>
            1 <= Z.of_nat (length il.2) <= es_bunch_size a) (sink_calls (trace st)).
Proof.
  intros Htr Hbuf. unfold harvest, finish, for_loop.
  assert (Hq : below_bunch a (query_issued k a st0) /\
               within_bunch a (query_issued k a st0)).
  { unfold below_bunch, within_bunch, query_issued.
    destruct (negb (dry_run a)), k; proj_simpl; rewrite Htr, Hbuf; cbn; done. }
  destruct Hq as [Hb Hw].
  destruct (for_steps k w a (history_iter k w a st0) (query_issued k a st0))
    as [st1 sg1] eqn:E1.
  pose proof (for_steps_bunch _ _ _ _ Hb Hw E1) as Hw1.
  set (st2 := match sg1 with Raise e => except_handler e st1 | _ => st1 end).
  assert (Hw2 : within_bunch a st2).
  { unfold st2. destruct sg1 as [| |e]; try done.
    refine (proj1 (bunch_frame st1 _ _ _) Hw1); destruct e; try done;
      cbn [except_handler]; proj_simpl; rewrite sink_calls_app; cbn; by rewrite app_nil_r. }
  replace (match sg1 with Raise e => except_handler e st1 | _ => st1 end) with st2
    by done.
  clearbody st2. destruct Hw2 as [Hbuf2 Hcalls2].
  destruct (post_remaining k w a (buffered_ads st2) st2) as [st3 sg3] eqn:E3.
  pose proof (post_remaining_bunch _ _ _ _ Hbuf2 Hcalls2 E3) as H3.
  destruct sg3; [|by intros [= <- <-]..].
  destruct (fromtimestamp_raises w (last_completion st3)); [by intros [= <- <-]|].
  destruct (negb (timed_out st3)); intros [= <- <-]; [|done].
  proj_simpl. rewrite sink_calls_app. cbn. by rewrite app_nil_r.
Qed.
End Bunches.

(** X2: with a bunch size of at least one, no call of the sink is given an
    empty batch or a batch of more than [es_bunch_size] entries, whatever
    the daemon yields and whatever fails on the way. *)
Theorem batches_are_bounded (w : world) (a : args) (name : string) :
  1 <= es_bunch_size a ->
  (forall c idx batch,
     (idx, batch) ∈ sink_calls (events (process_schedd w a name c)) ->
     1 <= Z.of_nat (length batch) <= es_bunch_size a) /\
  (forall s idx batch,
     (idx, batch) ∈ sink_calls (events (process_startd w a name s)) ->
     1 <= Z.of_nat (length batch) <= es_bunch_size a).
Proof.
  intros Hpos. split; intros c idx batch.
  - unfold process_schedd. destruct (time_remaining w 0 <? 0).
    { intros Hin. cbn in Hin. by apply elem_of_nil in Hin. }
    destruct (harvest Schedd w a name _) as [st sg] eqn:E.
    apply (harvest_bunch Schedd w a Hpos) in E; [|done..].
    intros Hin. assert (Hin' : (idx, batch) ∈ sink_calls (trace st)) by (by destruct sg).
    apply (proj1 (Forall_forall _ _) E _ Hin').
  - unfold process_startd. destruct (time_remaining w 0 <? 0).
    { intros Hin. cbn in Hin. by apply elem_of_nil in Hin. }
    destruct (harvest Startd w a name _) as [st sg] eqn:E.
    apply (harvest_bunch Startd w a Hpos) in E; [|done..].
    intros Hin. assert (Hin' : (idx, batch) ∈ sink_calls (trace st)) by (by destruct sg).
    apply (proj1 (Forall_forall _ _) E _ Hin').
Qed.

(** Fifteen jobs of one bucket in bunches of four: three full batches in
    the loop and the last three jobs in the final flush. *)
Lemma batches_are_bounded_witness :
  let a := with_bunch_size 4 (Args false false true true 250 0 "NoSuchAttr" "htcondor") in
  let w := sim_world ((fun i => <["QDate" := VInt 9]> (job "j" (Z.of_nat i - 20))) <$> seq 1 15) in
  1 <= es_bunch_size a /\
  length <$> (sink_calls (events (process_startd w a "node1" (Since None (-30))))).*2
    = [4; 4; 4; 3]%nat /\
  (forall idx batch,
     (idx, batch) ∈ sink_calls (events (process_startd w a "node1" (Since None (-30)))) ->
     1 <= Z.of_nat (length batch) <= es_bunch_size a).
Proof.
  intros a w. split; [by vm_compute|]. split; [by vm_compute|].
  apply (proj2 (batches_are_bounded w a "node1" ltac:(by vm_compute))).
Defined.

(** ** What a worker puts and what it returns *)

Lemma harvest_put_returned k w a name st0 st sg :
  puts (trace st0) = [] ->
  harvest k w a name st0 = (st, sg) ->
  puts (trace st) = [] \/ (sg = Next /\ puts (trace st) = [(name, final_cursor k st)]).
Proof.
  intros Hno. unfold harvest, finish.
  set (st2 := for_loop k w a (history_iter k w a st0) (query_issued k a st0)).
  assert (Hno2 : puts (trace st2) = []).
  { unfold st2. rewrite (proj1 (for_loop_quiet _ _ _ _ _)), query_issued_puts. done. }
  destruct (post_remaining k w a (buffered_ads st2) st2) as [st3 sg3] eqn:E3.
  pose proof (post_remaining_frame _ _ _ _ _ _ _ E3)
    as (_ & _ & _ & _ & _ & Hputs & _ & _ & _).
  rewrite Hno2 in Hputs.
  destruct sg3;
    [destruct (fromtimestamp_raises w (last_completion st3));
     [|destruct (negb (timed_out st3))]| |];
    intros [= <- <-]; proj_simpl; rewrite ?puts_app, ?Hputs; auto.
Qed.

Lemma schedd_put_returned (w : world) (a : args) (name : string) (c : Z) :
  puts (events (process_schedd w a name c)) = [] \/
  exists z, puts (events (process_schedd w a name c)) = [(name, Scalar z)] /\
            outcome (process_schedd w a name c) = inr z.
Proof.
  unfold process_schedd. destruct (time_remaining w 0 <? 0); [by left|].
  destruct (harvest Schedd w a name _) as [st sg] eqn:E.
  apply harvest_put_returned in E as [Hno|[-> Hput]]; [| |done].
  - left. by destruct sg.
  - right. exists (last_completion st). split; [exact Hput|reflexivity].
Qed.

Lemma startd_put_returned (w : world) (a : args) (name : string) (s : since_t) :
  puts (events (process_startd w a name s)) = [] \/
  exists s', puts (events (process_startd w a name s)) = [(name, Composite s')] /\
             outcome (process_startd w a name s) = inr s'.
Proof.
  unfold process_startd. destruct (time_remaining w 0 <? 0); [by left|].
  destruct (harvest Startd w a name _) as [st sg] eqn:E.
  apply harvest_put_returned in E as [Hno|[-> Hput]]; [| |done].
  - left. by destruct sg.
  - right. exists (since st). split; [exact Hput|reflexivity].
Qed.

(** X3: a worker puts at most one checkpoint message; the message is put
    under the worker's own name and carries exactly the cursor the worker
    returns. *)
Theorem put_is_the_cursor_returned (w : world) (a : args) (name : string) :
  (forall c,
     let r := process_schedd w a name c in
     puts (events r) = [] \/
     exists z, puts (events r) = [(name, Scalar z)] /\ outcome r = inr z) /\
  (forall s,
     let r := process_startd w a name s in
     puts (events r) = [] \/
     exists s', puts (events r) = [(name, Composite s')] /\ outcome r = inr s').
Proof.
  split; intros c r; unfold r.
  - apply schedd_put_returned.
  - apply startd_put_returned.
Qed.

(** ** The cursor only moves forward *)

Lemma loop_body_monotone k w a job_ad st st' sg :
  loop_body k w a job_ad st = (st', sg) ->
  last_completion st <= last_completion st'.
Proof.
  unfold_body. intros E. stmt_cases; proj_simpl; try lia.
  all: repeat match goal with
              | H : (_ <? _) = true |- _ => apply Z.ltb_lt in H; revert H; proj_simpl; intros H
              end; lia.
Qed.

Lemma for_steps_monotone k w a items : forall st st' sg,
  for_steps k w a items st = (st', sg) ->
  last_completion st <= last_completion st'.
Proof.
  induction items as [|[job_ad|e] rest IH]; intros st st' sg; cbn.
  - intros [= <- _]. lia.
  - destruct (loop_body k w a job_ad st) as [st1 sg1] eqn:E1.
    apply loop_body_monotone in E1.
    destruct sg1; try (intros [= <- _]; lia).
    intros E. apply IH in E. lia.
  - intros [= <- _]. lia.
Qed.

Lemma harvest_monotone k w a name st0 st sg :
  harvest k w a name st0 = (st, sg) ->
  last_completion st0 <= last_completion st.
Proof.
  unfold harvest, finish, for_loop.
  destruct (for_steps k w a (history_iter k w a st0) (query_issued k a st0))
    as [st1 sg1] eqn:E1.
  apply for_steps_monotone in E1.
  assert (Hq : last_completion (query_issued k a st0) = last_completion st0).
  { unfold query_issued. by destruct (negb (dry_run a)), k. }
  set (st2 := match sg1 with Raise e => except_handler e st1 | _ => st1 end).
  assert (H2 : last_completion st2 = last_completion st1).
  { unfold st2. by destruct sg1 as [| |[]]. }
  destruct (post_remaining k w a (buffered_ads st2) st2) as [st3 sg3] eqn:E3.
  pose proof (post_remaining_frame _ _ _ _ _ _ _ E3)
    as (_ & _ & Hlc & _ & _ & _ & _ & _ & _).
  destruct sg3;
    [destruct (fromtimestamp_raises w (last_completion st3));
     [|destruct (negb (timed_out st3))]| |];
    intros [= <- <-]; proj_simpl; lia.
Qed.

Lemma harvest_coherent w a name st0 st sg :
  coherent st0 ->
  harvest Startd w a name st0 = (st, sg) ->
  coherent st.
Proof.
  intros Hc. unfold harvest, finish, for_loop.
  assert (Hq : coherent (query_issued Startd a st0)).
  { unfold query_issued. by destruct (negb (dry_run a)). }
  destruct (for_steps Startd w a (history_iter Startd w a st0) (query_issued Startd a st0))
    as [st1 sg1] eqn:E1.
  destruct (for_steps_since _ _ _ _ _ _ Hq E1) as [Hc1 _].
  set (st2 := match sg1 with Raise e => except_handler e st1 | _ => st1 end).
  assert (H2 : coherent st2).
  { unfold st2. by destruct sg1 as [| |[]]. }
  destruct (post_remaining Startd w a (buffered_ads st2) st2) as [st3 sg3] eqn:E3.
  pose proof (post_remaining_frame _ _ _ _ _ _ _ E3)
    as (_ & _ & Hlc & Hsi & _ & _ & _ & _ & _).
  assert (H3 : coherent st3) by (unfold coherent in *; congruence).
  destruct sg3;
    [destruct (fromtimestamp_raises w (last_completion st3));
     [|destruct (negb (timed_out st3))]| |];
    by intros [= <- <-].
Qed.

(** X4: the cursor a worker returns, and so the cursor it puts, is never
    behind the cursor it was started with: the completion time for a
    schedd, the timestamp of the composite cursor for a startd. *)
Theorem returned_cursor_never_moves_back (w : world) (a : args) (name : string) :
  (forall c c', outcome (process_schedd w a name c) = inr c' -> c <= c') /\
  (forall s s', outcome (process_startd w a name s) = inr s' ->
     EnteredCurrentStatus s <= EnteredCurrentStatus s').
Proof.
  split; intros c c'.
  - unfold process_schedd. destruct (time_remaining w 0 <? 0).
    { intros [= <-]. lia. }
    destruct (harvest Schedd w a name _) as [st sg] eqn:E.
    apply harvest_monotone in E. cbn in E.
    destruct sg; intros [= <-]; done.
  - unfold process_startd. destruct (time_remaining w 0 <? 0).
    { intros [= <-]. lia. }
    destruct (harvest Startd w a name _) as [st sg] eqn:E.
    pose proof (harvest_monotone _ _ _ _ _ _ _ E) as Hm.
    apply harvest_coherent in E; [|done]. unfold coherent in E. cbn in Hm.
    destruct sg; intros [= <-]; lia.
Qed.

Lemma returned_cursor_never_moves_back_witness :
  outcome (process_schedd (sim_world (rev five)) sim_args "schedd1" 2) = inr 5 /\
  2 <= 5.
Proof.
  assert (H : outcome (process_schedd (sim_world (rev five)) sim_args "schedd1" 2)
              = inr 5) by (by vm_compute).
  split; [exact H|].
  exact (proj1 (returned_cursor_never_moves_back (sim_world (rev five)) sim_args
                  "schedd1") 2 5 H).
Defined.

(** ** A timed-out run keeps its progress to itself *)

(** What one iteration can add to the alerts. *)
Lemma loop_body_alerts k w a job_ad st st' sg :
  loop_body k w a job_ad st = (st', sg) ->
  (alerts (trace st') = alerts (trace st) /\ timed_out st' = timed_out st) \/
  (alerts (trace st') = alerts (trace st) ++ [ConversionError] /\
   timed_out st' = timed_out st) \/
  (alerts (trace st') = alerts (trace st) ++ [TimeoutWarning] /\ timed_out st' = true).
Proof.
  unfold_body. intros E.
  stmt_cases; proj_simpl; rewrite ?alerts_app; cbn [alerts mbind list_bind app];
    rewrite ?app_nil_r; auto.
Qed.

Lemma for_steps_timeout_flag k w a items : forall st st' sg,
  (TimeoutWarning ∈ alerts (trace st) -> timed_out st = true) ->
  for_steps k w a items st = (st', sg) ->
  (TimeoutWarning ∈ alerts (trace st') -> timed_out st' = true).
Proof.
  induction items as [|[job_ad|e] rest IH]; intros st st' sg Hinv; cbn.
  - by intros [= <- _].
  - destruct (loop_body k w a job_ad st) as [st1 sg1] eqn:E1.
    assert (H1 : TimeoutWarning ∈ alerts (trace st1) -> timed_out st1 = true).
    { destruct (loop_body_alerts _ _ _ _ _ _ _ E1) as [[-> ->]|[[-> ->]|[-> ->]]];
        [done| |done].
      intros [Hin|Hin]%elem_of_app; [auto|].
      by apply list_elem_of_singleton in Hin. }
    destruct sg1; try (by intros [= <- _]). by apply IH.
  - by intros [= <- _].
Qed.

Lemma harvest_timeout_no_put k w a name st0 st sg :
  trace st0 = [] ->
  harvest k w a name st0 = (st, sg) ->
  TimeoutWarning ∈ alerts (trace st) -> puts (trace st) = [].
Proof.
  intros Htr. unfold harvest, finish, for_loop.
  assert (Hq : TimeoutWarning ∈ alerts (trace (query_issued k a st0)) ->
               timed_out (query_issued k a st0) = true).
  { unfold query_issued. destruct (negb (dry_run a)), k; proj_simpl;
      rewrite ?alerts_app, Htr; cbn; intros Hin; by apply elem_of_nil in Hin. }
  assert (Hqp : puts (trace (query_issued k a st0)) = []).
  { by rewrite query_issued_puts, Htr. }
  destruct (for_steps k w a (history_iter k w a st0) (query_issued k a st0))
    as [st1 sg1] eqn:E1.
  pose proof (for_steps_timeout_flag _ _ _ _ _ _ _ Hq E1) as H1.
  apply for_steps_quiet in E1 as [Hp1 _]. rewrite Hqp in Hp1.
  set (st2 := match sg1 with Raise e => except_handler e st1 | _ => st1 end).
  assert (H2 : (TimeoutWarning ∈ alerts (trace st2) -> timed_out st2 = true) /\
               puts (trace st2) = []).
  { unfold st2. destruct sg1 as [| |[]]; try done; cbn [except_handler]; proj_simpl;
      rewrite alerts_app, puts_app, Hp1; cbn [alerts puts mbind list_bind app];
      (split; [|done]); intros [Hin|Hin]%elem_of_app; auto;
      by apply list_elem_of_singleton in Hin. }
  clearbody st2. destruct H2 as [H2 Hp2].
  destruct (post_remaining k w a (buffered_ads st2) st2) as [st3 sg3] eqn:E3.
  pose proof (post_remaining_frame _ _ _ _ _ _ _ E3)
    as (_ & Hto & _ & _ & _ & Hputs & Hal & _ & _).
  rewrite Hp2 in Hputs.
  destruct sg3; [|by intros [= <- <-]..].
  destruct (fromtimestamp_raises w (last_completion st3)); [by intros [= <- <-]|].
  destruct (timed_out st3) eqn:Ht; cbn [negb]; intros [= <- <-]; [done|].
  proj_simpl. rewrite alerts_app, Hal. cbn [alerts mbind list_bind app].
  rewrite app_nil_r. intros Hin. apply H2 in Hin. congruence.
Qed.

(** X5: a run that has sent a timeout alert, at its entry or in the middle
    of the stream, puts no checkpoint message: the progress of that run is
    not recorded. *)
Theorem timeout_alert_means_no_put (w : world) (a : args) (name : string) :
  (forall c, TimeoutWarning ∈ alerts (events (process_schedd w a name c)) ->
             puts (events (process_schedd w a name c)) = []) /\
  (forall s, TimeoutWarning ∈ alerts (events (process_startd w a name s)) ->
             puts (events (process_startd w a name s)) = []).
Proof.
  split; intros c.
  - unfold process_schedd. destruct (time_remaining w 0 <? 0); [done|].
    destruct (harvest Schedd w a name _) as [st sg] eqn:E.
    pose proof (fun H => harvest_timeout_no_put _ _ _ _ _ _ _ H E) as Hno.
    specialize (Hno eq_refl). by destruct sg.
  - unfold process_startd. destruct (time_remaining w 0 <? 0); [done|].
    destruct (harvest Startd w a name _) as [st sg] eqn:E.
    pose proof (fun H => harvest_timeout_no_put _ _ _ _ _ _ _ H E) as Hno.
    specialize (Hno eq_refl). by destruct sg.
Qed.

(** A schedd whose clock runs out after the second job. *)
Lemma timeout_alert_means_no_put_witness :
  let w := World 1000 1005 (fun n => if (n <? 2)%nat then 5 else -1) sim_to_json
             (fun d => py_format (d !! "GlobalJobId"))
             (fun t template _ => template +:+ "-" +:+ py_format (Some t))
             (fun _ => false) (fun _ => false)
             (fun _ _ => Yield <$> five) (fun _ => Yield <$> five) in
  let r := process_schedd w sim_args "schedd1" 0 in
  TimeoutWarning ∈ alerts (events r) /\
  length (posted (events r)) = 2%nat /\
  outcome r = inr 2 /\
  puts (events r) = [].
Proof.
  intros w r.
  assert (H : TimeoutWarning ∈ alerts (events r)) by (vm_compute; constructor).
  split; [exact H|]. split; [by vm_compute|]. split; [by vm_compute|].
  exact (proj1 (timeout_alert_means_no_put w sim_args "schedd1") 0 H).
Defined.

(** ** Runs that must not write to the sink *)

Lemma loop_body_no_sink k w a job_ad st st' sg :
  negb (read_only a) && es_feed k a = false ->
  loop_body k w a job_ad st = (st', sg) ->
  sink_calls (trace st') = sink_calls (trace st).
Proof.
  intros Hoff. unfold_body. rewrite Hoff. intros E.
  stmt_cases; proj_simpl; rewrite ?sink_calls_app; cbn [sink_calls mbind list_bind app];
    by rewrite ?app_nil_r.
Qed.

Lemma for_steps_no_sink k w a items : forall st st' sg,
  negb (read_only a) && es_feed k a = false ->
  for_steps k w a items st = (st', sg) ->
  sink_calls (trace st') = sink_calls (trace st).
Proof.
  induction items as [|[job_ad|e] rest IH]; intros st st' sg Hoff; cbn.
  - by intros [= <- _].
  - destruct (loop_body k w a job_ad st) as [st1 sg1] eqn:E1.
    apply loop_body_no_sink in E1 as <-; [|done].
    destruct sg1; try (by intros [= <- _]). by apply IH.
  - by intros [= <- _].
Qed.

Lemma post_remaining_no_sink k w a items : forall st st' sg,
  negb (read_only a) && es_feed k a = false ->
  post_remaining k w a items st = (st', sg) ->
  st' = st.
Proof.
  induction items as [|[i l] rest IH]; intros st st' sg Hoff; cbn.
  - by intros [= <- _].
  - unfold and_then.
    destruct l as [|e l]; [by apply IH|].
    destruct (negb (read_only a)); [destruct (es_feed k a); [done|]|]; by apply IH.
Qed.

Lemma harvest_no_sink k w a name st0 st sg :
  negb (read_only a) && es_feed k a = false ->
  trace st0 = [] ->
  harvest k w a name st0 = (st, sg) ->
  sink_calls (trace st) = [].
Proof.
  intros Hoff Htr. unfold harvest, finish, for_loop.
  assert (Hq : sink_calls (trace (query_issued k a st0)) = []).
  { unfold query_issued. destruct (negb (dry_run a)), k; proj_simpl;
      rewrite ?sink_calls_app, Htr; done. }
  destruct (for_steps k w a (history_iter k w a st0) (query_issued k a st0))
    as [st1 sg1] eqn:E1.
  apply for_steps_no_sink in E1; [|done]. rewrite Hq in E1.
  set (st2 := match sg1 with Raise e => except_handler e st1 | _ => st1 end).
  assert (H2 : sink_calls (trace st2) = []).
  { unfold st2. destruct sg1 as [| |[]]; try done; cbn [except_handler]; proj_simpl;
      by rewrite sink_calls_app, E1. }
  clearbody st2.
  destruct (post_remaining k w a (buffered_ads st2) st2) as [st3 sg3] eqn:E3.
  apply post_remaining_no_sink in E3 as ->; [|done].
  destruct sg3; [|by intros [= <- <-]..].
  destruct (fromtimestamp_raises w (last_completion st2)); [by intros [= <- <-]|].
  destruct (negb (timed_out st2)); intros [= <- <-]; [|done].
  proj_simpl. by rewrite sink_calls_app, H2.
Qed.

(** X6: a run asked to be read-only or dry, or one whose history feed is
    off, never calls the sink: no batch is posted and no post is even
    attempted, in the loop or in the final flush. *)
Theorem nothing_sent_when_read_only (w : world) (a : args) (name : string) (k : kind) :
  read_only a = true \/ dry_run a = true \/ es_feed k a = false ->
  match k with
  | Schedd => forall c, sink_calls (events (process_schedd w a name c)) = []
  | Startd => forall s, sink_calls (events (process_startd w a name s)) = []
  end.
Proof.
  intros Hoff.
  destruct (dry_run a) eqn:Hdry.
  { destruct k; intros c;
      [unfold process_schedd|unfold process_startd];
      unfold harvest, history_iter, query_issued, for_loop, finish;
      rewrite Hdry; cbn;
      (destruct (time_remaining w 0 <? 0); [done|]);
      (destruct (fromtimestamp_raises w _); [done|]); done. }
  assert (Hoff' : negb (read_only a) && es_feed k a = false).
  { destruct Hoff as [Hro|[Hd|Hfeed]]; [by rewrite Hro|done|by rewrite Hfeed, andb_false_r]. }
  destruct k; intros c.
  - unfold process_schedd. destruct (time_remaining w 0 <? 0); [done|].
    destruct (harvest Schedd w a name _) as [st sg] eqn:E.
    apply harvest_no_sink in E; [|done..]. by destruct sg.
  - unfold process_startd. destruct (time_remaining w 0 <? 0); [done|].
    destruct (harvest Startd w a name _) as [st sg] eqn:E.
    apply harvest_no_sink in E; [|done..]. by destruct sg.
Qed.

Lemma nothing_sent_when_read_only_witness :
  let a := with_read_only true (with_bunch_size 2 sim_args) in
  let r := process_schedd (sim_world five) a "schedd1" 0 in
  (read_only a = true \/ dry_run a = true \/ es_feed Schedd a = false) /\
  length (appended (events r)) = 4%nat /\
  sink_calls (events r) = [].
Proof.
  intros a r. split; [by left|]. split; [by vm_compute|].
  apply (nothing_sent_when_read_only (sim_world five) a "schedd1" Schedd
           (or_introl eq_refl) 0).
Defined.

(** X7: a dry run that gets past the preflight asks no daemon, buffers and
    sends nothing, and still puts the cursor it was started with, so the
    checkpoint entry of the source is written again unchanged. *)
Theorem dry_run_puts_cursor_unchanged (w : world) (a : args) (name : string) :
  dry_run a = true ->
  0 <= time_remaining w 0%nat ->
  (forall c, fromtimestamp_raises w c = false ->
     process_schedd w a name c = Run [EvPut name (Scalar c)] (inr c)) /\
  (forall s, fromtimestamp_raises w (EnteredCurrentStatus s) = false ->
     process_startd w a name s = Run [EvPut name (Composite s)] (inr s)).
Proof.
  intros Hdry Hrem.
  assert (Hpre : (time_remaining w 0 <? 0) = false).
  { destruct (Z.ltb_spec (time_remaining w 0) 0); [lia|done]. }
  split; intros c Hfmt.
  - unfold process_schedd, harvest, history_iter, query_issued, for_loop, finish.
    rewrite Hpre, Hdry. cbn. by rewrite Hfmt.
  - unfold process_startd, harvest, history_iter, query_issued, for_loop, finish.
    rewrite Hpre, Hdry. cbn. by rewrite Hfmt.
Qed.

Lemma dry_run_puts_cursor_unchanged_witness :
  let a := Args true true true true 250 0 "CompletionDate" "htcondor" in
  dry_run a = true /\
  0 <= time_remaining (sim_world five) 0%nat /\
  process_schedd (sim_world five) a "schedd1" 7 = Run [EvPut "schedd1" (Scalar 7)] (inr 7).
Proof.
  intros a. split; [reflexivity|]. split; [by vm_compute|].
  apply (proj1 (dry_run_puts_cursor_unchanged (sim_world five) a "schedd1" eq_refl
                  ltac:(by vm_compute)) 7).
  reflexivity.
Defined.

(** ** A daemon that fails in the middle of its answer *)

Section Fault.
Variables (k : kind) (w : world) (a : args).
Hypothesis not_read_only : read_only a = false.
Hypothesis feeding : es_feed k a = true.
Hypothesis sink_up : forall n, post_ads_raises w n = false.
Hypothesis in_time : forall n, 0 <= time_remaining w n.
Hypothesis in_range : forall t, fromtimestamp_raises w t = false.

(** A stream that raises after the ads [ads]: the ads are harvested as in
    a calm run, and the handler around the loop decides on the alert. *)
Lemma harvest_fault name st0 ads e rest :
  trace st0 = [] -> buffered_ads st0 = [] -> count st0 = 0 ->
  sent_warnings st0 = false -> timed_out st0 = false ->
  history_iter k w a st0 = (Yield <$> ads) ++ IterRaises e :: rest ->
  Forall (well_timed w a) ads ->
  process_max_documents a = 0 \/
    Z.of_nat (length (entries_of w ads)) <= process_max_documents a ->
  exists st,
    harvest k w a name st0 = (st, Next) /\
    posted (trace st) ≡ₚ entries_of w ads /\
    alerts (trace st) =
      conversion_alerts w ads ++
      match e with RuntimeError => [] | _ => [QueryError] end /\
    puts (trace st) = [(name, final_cursor k st)] /\
    last_completion st = running_max w (last_completion st0) ads /\
    (k = Startd -> coherent st0 -> coherent st).
Proof.
  intros Htr Hbuf Hcnt Hsw Hto Hiter Hwt Hcap. unfold harvest. rewrite Hiter.
  destruct (query_issued_fresh k a feeding st0 Htr Hbuf Hcnt Hsw Hto)
    as (Hqa & Hql & Hqp & Hqu & Hqb & Hqc & Hqs & Hqt & Hqlc & Hqsi).
  set (stq := query_issued k a st0) in *.
  destruct (for_steps_calm k w a not_read_only feeding sink_up in_time ads stq Hwt)
    as (st1 & Hsteps & Happ & Hal & _ & Hlc & Hto1 & Hcoh).
  { rewrite Hqc. destruct Hcap; [by left|right; lia]. }
  assert (Hfor : for_steps k w a ((Yield <$> ads) ++ IterRaises e :: rest) stq
                 = (st1, Raise e)).
  { by rewrite for_steps_app, Hsteps. }
  set (st2 := except_handler e st1).
  assert (Hloop : for_loop k w a ((Yield <$> ads) ++ IterRaises e :: rest) stq = st2).
  { unfold for_loop. by rewrite Hfor. }
  rewrite Hloop.
  assert (Hacc : accounted st2).
  { rewrite <- Hloop. apply for_loop_accounted; [done..|].
    unfold accounted, pending. by rewrite Hqa, Hqp, Hqb. }
  assert (Hno : puts (trace st2) = []).
  { rewrite <- Hloop. rewrite (proj1 (for_loop_quiet _ _ _ _ _)). done. }
  assert (H2 : appended (trace st2) = appended (trace st1) /\
               alerts (trace st2) =
                 alerts (trace st1) ++ match e with RuntimeError => [] | _ => [QueryError] end /\
               timed_out st2 = timed_out st1 /\
               last_completion st2 = last_completion st1 /\ since st2 = since st1).
  { unfold st2. destruct e; cbn [except_handler]; proj_simpl;
      rewrite ?appended_app, ?alerts_app; cbn; by rewrite ?app_nil_r. }
  destruct H2 as (Ha2 & Hal2 & Ht2 & Hlc2 & Hsi2).
  destruct (finish_calm k w a not_read_only feeding sink_up in_range name st2 Hacc Hno)
    as (st & -> & Hposted & _ & Hal' & Hputs & Hlc' & Hsi'); [congruence|].
  exists st. split; [done|].
  rewrite Hposted, Ha2, Happ, Hqa, Hal', Hal2, Hal, Hql, Hqs, Hlc', Hlc2, Hlc, Hqlc.
  repeat split; try done.
  intros Hk Hc0. unfold coherent. rewrite Hlc', Hsi', Hlc2, Hsi2.
  apply Hcoh; [done|]. unfold coherent. by rewrite Hqlc, Hqsi.
Qed.
End Fault.

(** X8: when the daemon's answer breaks off with an exception after some
    ads, in a run that nothing else disturbs, the worker keeps what it has
    read: every converted ad read before the failure is delivered, the
    cursor put is the greatest completion time among them and the starting
    cursor, and the run is not marked timed out.  A [RuntimeError] of the
    daemon is only logged; any other exception sends one query-error
    alert. *)
Theorem daemon_failure_keeps_what_was_read (w : world) (a : args) (name : string)
    (k : kind) (ads : list classad) (e : exn) (rest : list item) :
  read_only a = false ->
  es_feed k a = true ->
  dry_run a = false ->
  (forall n, post_ads_raises w n = false) ->
  (forall n, 0 <= time_remaining w n) ->
  (forall t, fromtimestamp_raises w t = false) ->
  process_max_documents a = 0 \/
    Z.of_nat (length (entries_of w ads)) <= process_max_documents a ->
  Forall (well_timed w a) ads ->
  match k with
  | Schedd => forall c,
      schedd_history w (history_query c) (Z.max 10000 (process_max_documents a))
        = (Yield <$> ads) ++ IterRaises e :: rest ->
      let r := process_schedd w a name c in
      posted (events r) ≡ₚ entries_of w ads /\
      alerts (events r) =
        conversion_alerts w ads ++ match e with RuntimeError => [] | _ => [QueryError] end /\
      puts (events r) = [(name, Scalar (running_max w c ads))] /\
      outcome r = inr (running_max w c ads)
  | Startd => forall s,
      startd_history w (since_str s) = (Yield <$> ads) ++ IterRaises e :: rest ->
      let r := process_startd w a name s in
      posted (events r) ≡ₚ entries_of w ads /\
      alerts (events r) =
        conversion_alerts w ads ++ match e with RuntimeError => [] | _ => [QueryError] end /\
      exists s',
        puts (events r) = [(name, Composite s')] /\
        outcome r = inr s' /\
        EnteredCurrentStatus s' = running_max w (EnteredCurrentStatus s) ads
  end.
Proof.
  intros Hro Hfeed Hdry Hsink Htime Hrange Hcap Hwt.
  assert (Hpre : (time_remaining w 0 <? 0) = false).
  { destruct (Z.ltb_spec (time_remaining w 0) 0); [|done].
    specialize (Htime 0%nat). lia. }
  destruct k; intros c Hiter r; unfold r.
  - unfold process_schedd. rewrite Hpre.
    destruct (harvest_fault Schedd w a Hro Hfeed Hsink Htime Hrange name
                (init_locals c (Since None c)) ads e rest)
      as (st & -> & Hposted & Hal & Hputs & Hlc & _); try done.
    { unfold history_iter. by rewrite Hdry. }
    cbn [events outcome]. cbn in Hlc, Hputs. by rewrite Hputs, Hlc.
  - unfold process_startd. rewrite Hpre.
    destruct (harvest_fault Startd w a Hro Hfeed Hsink Htime Hrange name
                (init_locals (EnteredCurrentStatus c) c) ads e rest)
      as (st & -> & Hposted & Hal & Hputs & Hlc & Hcoh); try done.
    { unfold history_iter. by rewrite Hdry. }
    cbn [events outcome]. cbn in Hlc, Hputs. repeat split; try done.
    exists (since st). repeat split; try done.
    rewrite <- Hlc. symmetry. by apply Hcoh.
Qed.

(** A schedd that yields two jobs and then fails. *)
Lemma daemon_failure_keeps_what_was_read_witness :
  let ads := [job "j1" 1; job "j2" 2] in
  let w := with_history ((Yield <$> ads) ++ [IterRaises RuntimeError; Yield (job "j3" 3)])
             (sim_world []) in
  let r := process_schedd w sim_args "schedd1" 0 in
  Forall (well_timed w sim_args) ads /\
  posted (events r) ≡ₚ entries_of w ads /\
  alerts (events r) = conversion_alerts w ads ++ [] /\
  puts (events r) = [("schedd1", Scalar (running_max w 0 ads))] /\
  outcome r = inr (running_max w 0 ads) /\
  running_max w 0 ads = 2.
Proof.
  intros ads w r.
  assert (Hwt : Forall (well_timed w sim_args) ads).
  { unfold ads.
    apply List.Forall_cons; [intros _; split; [exists 1|exists (VInt 1)]; by vm_compute|].
    apply List.Forall_cons; [intros _; split; [exists 2|exists (VInt 2)]; by vm_compute|].
    apply List.Forall_nil. }
  split; [exact Hwt|].
  assert (Hmax : running_max w 0 ads = 2) by (by vm_compute).
  pose proof (daemon_failure_keeps_what_was_read w sim_args "schedd1" Schedd ads
                RuntimeError [Yield (job "j3" 3)]
                eq_refl eq_refl eq_refl (fun _ => eq_refl)
                (fun _ => ltac:(by vm_compute)) (fun _ => eq_refl)
                (or_introl eq_refl) Hwt 0 eq_refl) as (H1 & H2 & H3 & H4).
  split; [exact H1|]. split; [exact H2|]. split; [exact H3|]. split; [exact H4|exact Hmax].
Defined.

(** ** How far past the cap a run can go *)

Lemma appended_length_snoc tr ev :
  length (appended (tr ++ [ev])) =
    (length (appended tr) + match ev with EvAppend _ _ => 1 | _ => 0 end)%nat.
Proof. rewrite appended_app, length_app. f_equal. by destruct ev. Qed.

Lemma not_over_cap a n :
  over_cap a n = false -> 0 < process_max_documents a -> n <= process_max_documents a.
Proof.
  unfold over_cap. intros H Hpos.
  destruct (Z.eqb_spec (process_max_documents a) 0); [lia|].
  destruct (Z.ltb_spec (process_max_documents a) n); [done|lia].
Qed.

Lemma loop_body_counted k w a job_ad st st' sg :
  counted a st ->
  loop_body k w a job_ad st = (st', sg) ->
  (sg = Next -> counted a st') /\
  (0 < process_max_documents a ->
   Z.of_nat (length (appended (trace st'))) <= process_max_documents a + 1).
Proof.
  intros [Hlen Hcap]. unfold_body. intros E.
  stmt_cases; unfold counted; proj_simpl; rewrite ?appended_length_snoc; cbn beta iota.
  all: repeat match goal with
              | H : over_cap _ _ = false |- _ =>
                pose proof (not_over_cap _ _ H); clear H
              | H : over_cap _ _ = true |- _ => clear H
              end.
  all: proj_simpl_all.
  all: split; [try done; intros _; split; intros; lia|intros; lia].
Qed.

Lemma for_steps_counted k w a items : forall st st' sg,
  counted a st ->
  for_steps k w a items st = (st', sg) ->
  0 < process_max_documents a ->
  Z.of_nat (length (appended (trace st'))) <= process_max_documents a + 1.
Proof.
  induction items as [|[job_ad|e] rest IH]; intros st st' sg Hc; cbn.
  - intros [= <- _] Hpos. destruct Hc as [-> Hc]. specialize (Hc Hpos). lia.
  - destruct (loop_body k w a job_ad st) as [st1 sg1] eqn:E1.
    destruct (loop_body_counted _ _ _ _ _ _ _ Hc E1) as [Hnext Hbound].
    destruct sg1; try (by intros [= <- _]). apply IH. by apply Hnext.
  - intros [= <- _] Hpos. destruct Hc as [-> Hc]. specialize (Hc Hpos). lia.
Qed.

Lemma harvest_counted k w a name st0 st sg :
  trace st0 = [] -> count st0 = 0 ->
  harvest k w a name st0 = (st, sg) ->
  0 < process_max_documents a ->
  Z.of_nat (length (appended (trace st))) <= process_max_documents a + 1.
Proof.
  intros Htr Hcnt. unfold harvest, finish, for_loop.
  assert (Hq : counted a (query_issued k a st0)).
  { unfold counted, query_issued. destruct (negb (dry_run a)), k; proj_simpl;
      rewrite ?appended_length_snoc, Htr, Hcnt; cbn; split; try done; intros; lia. }
  destruct (for_steps k w a (history_iter k w a st0) (query_issued k a st0))
    as [st1 sg1] eqn:E1.
  pose proof (for_steps_counted _ _ _ _ _ _ _ Hq E1) as H1.
  set (st2 := match sg1 with Raise e => except_handler e st1 | _ => st1 end).
  assert (H2 : length (appended (trace st2)) = length (appended (trace st1))).
  { unfold st2. destruct sg1 as [| |[]]; try done; cbn [except_handler]; proj_simpl;
      rewrite appended_length_snoc; lia. }
  clearbody st2.
  destruct (post_remaining k w a (buffered_ads st2) st2) as [st3 sg3] eqn:E3.
  pose proof (post_remaining_frame _ _ _ _ _ _ _ E3)
    as (_ & _ & _ & _ & Happ & _ & _ & _ & _).
  destruct sg3;
    [destruct (fromtimestamp_raises w (last_completion st3));
     [|destruct (negb (timed_out st3))]| |];
    intros [= <- <-] Hpos; proj_simpl; rewrite ?appended_length_snoc, Happ, H2;
    specialize (H1 Hpos); lia.
Qed.

(** X9: with a cap of [process_max_documents] > 0, a run never buffers more
    than cap + 1 entries, whatever the daemon yields and whatever fails on
    the way. *)
Theorem cap_bounds_the_run (w : world) (a : args) (name : string) :
  0 < process_max_documents a ->
  (forall c, Z.of_nat (length (appended (events (process_schedd w a name c))))
             <= process_max_documents a + 1) /\
  (forall s, Z.of_nat (length (appended (events (process_startd w a name s))))
             <= process_max_documents a + 1).
Proof.
  intros Hpos. split; intros c.
  - unfold process_schedd. destruct (time_remaining w 0 <? 0); [cbn; lia|].
    destruct (harvest Schedd w a name _) as [st sg] eqn:E.
    pose proof (fun H1 H2 => harvest_counted _ _ _ _ _ _ _ H1 H2 E Hpos) as Hb.
    specialize (Hb eq_refl eq_refl). by destruct sg.
  - unfold process_startd. destruct (time_remaining w 0 <? 0); [cbn; lia|].
    destruct (harvest Startd w a name _) as [st sg] eqn:E.
    pose proof (fun H1 H2 => harvest_counted _ _ _ _ _ _ _ H1 H2 E Hpos) as Hb.
    specialize (Hb eq_refl eq_refl). by destruct sg.
Qed.

Lemma cap_bounds_the_run_witness :
  0 < process_max_documents (with_cap 3 sim_args) /\
  length (appended (events (process_schedd (sim_world fifteen) (with_cap 3 sim_args)
                              "schedd1" 0))) = 4%nat /\
  Z.of_nat (length (appended (events (process_schedd (sim_world fifteen)
                                        (with_cap 3 sim_args) "schedd1" 0))))
    <= process_max_documents (with_cap 3 sim_args) + 1.
Proof.
  split; [by vm_compute|]. split; [by vm_compute|].
  apply (proj1 (cap_bounds_the_run (sim_world fifteen) (with_cap 3 sim_args) "schedd1"
                  ltac:(by vm_compute)) 0).
Defined.

(** X10: with a cap of [process_max_documents] > 0 and a daemon that
    yields more convertible ads than that, a run that nothing else
    disturbs stops after the ad with which the count passes the cap: the
    first cap + 1 convertible ads are buffered and delivered, the ads after
    them are not read, and the cursor put is the greatest completion time
    among the starting cursor and the ads read. *)
Theorem cap_stops_after_one_more (w : world) (a : args) (name : string) (k : kind)
    (ads : list classad) (ad : classad) (rest : list classad) :
  read_only a = false ->
  es_feed k a = true ->
  dry_run a = false ->
  (forall n, post_ads_raises w n = false) ->
  (forall n, 0 <= time_remaining w n) ->
  (forall t, fromtimestamp_raises w t = false) ->
  Forall (well_timed w a) (ads ++ [ad]) ->
  is_Some (to_json w ad) ->
  0 < process_max_documents a ->
  Z.of_nat (length (entries_of w ads)) = process_max_documents a ->
  match k with
  | Schedd => forall c,
      schedd_history w (history_query c) (Z.max 10000 (process_max_documents a))
        = Yield <$> (ads ++ ad :: rest) ->
      let r := process_schedd w a name c in
      appended (events r) = entries_of w (ads ++ [ad]) /\
      posted (events r) ≡ₚ entries_of w (ads ++ [ad]) /\
      puts (events r) = [(name, Scalar (running_max w c (ads ++ [ad])))] /\
      outcome r = inr (running_max w c (ads ++ [ad]))
  | Startd => forall s,
      startd_history w (since_str s) = Yield <$> (ads ++ ad :: rest) ->
      let r := process_startd w a name s in
      appended (events r) = entries_of w (ads ++ [ad]) /\
      posted (events r) ≡ₚ entries_of w (ads ++ [ad]) /\
      exists s',
        puts (events r) = [(name, Composite s')] /\
        outcome r = inr s' /\
        EnteredCurrentStatus s' = running_max w (EnteredCurrentStatus s) (ads ++ [ad])
  end.
Proof.
  intros Hro Hfeed Hdry Hsink Htime Hrange Hwt Hconv Hpos Hlen.
  assert (Hpre : (time_remaining w 0 <? 0) = false).
  { destruct (Z.ltb_spec (time_remaining w 0) 0); [|done].
    specialize (Htime 0%nat). lia. }
  destruct k; intros c Hiter r; unfold r.
  - unfold process_schedd. rewrite Hpre.
    destruct (cap_lets_one_more_through Schedd w a Hro Hfeed Hsink Htime Hrange name
                (init_locals c (Since None c)) ads ad rest)
      as (st & -> & Happ & _ & Hposted & Hputs & Hlc); try done.
    { unfold history_iter. by rewrite Hdry. }
    cbn [events outcome]. cbn in Hlc, Hputs. by rewrite Hputs, Hlc.
  - unfold process_startd. rewrite Hpre.
    pose proof (fun st sg => harvest_coherent w a name
                  (init_locals (EnteredCurrentStatus c) c) st sg eq_refl) as Hcoh.
    destruct (cap_lets_one_more_through Startd w a Hro Hfeed Hsink Htime Hrange name
                (init_locals (EnteredCurrentStatus c) c) ads ad rest)
      as (st & Hh & Happ & _ & Hposted & Hputs & Hlc); try done.
    { unfold history_iter. by rewrite Hdry. }
    specialize (Hcoh _ _ Hh). rewrite Hh.
    cbn [events outcome]. cbn in Hlc, Hputs. repeat split; try done.
    exists (since st). repeat split; try done.
    rewrite <- Hlc. symmetry. exact Hcoh.
Qed.

(** A cap of two over five convertible jobs. *)
Lemma cap_stops_after_one_more_witness :
  let a := with_cap 2 sim_args in
  let ads := [job "j1" 1; job "j2" 2] in
  let rest := [job "j4" 4; job "j5" 5] in
  let w := with_history (Yield <$> (ads ++ job "j3" 3 :: rest)) (sim_world []) in
  let r := process_schedd w a "schedd1" 0 in
  Forall (well_timed w a) (ads ++ [job "j3" 3]) /\
  is_Some (to_json w (job "j3" 3)) /\
  0 < process_max_documents a /\
  Z.of_nat (length (entries_of w ads)) = process_max_documents a /\
  appended (events r) = entries_of w (ads ++ [job "j3" 3]) /\
  posted (events r) ≡ₚ entries_of w (ads ++ [job "j3" 3]) /\
  puts (events r) = [("schedd1", Scalar (running_max w 0 (ads ++ [job "j3" 3])))] /\
  outcome r = inr (running_max w 0 (ads ++ [job "j3" 3])) /\
  running_max w 0 (ads ++ [job "j3" 3]) = 3.
Proof.
  intros a ads rest w r.
  assert (Hwt : Forall (well_timed w a) (ads ++ [job "j3" 3])).
  { unfold ads. cbn [app].
    apply List.Forall_cons; [intros _; split; [exists 1|exists (VInt 1)]; by vm_compute|].
    apply List.Forall_cons; [intros _; split; [exists 2|exists (VInt 2)]; by vm_compute|].
    apply List.Forall_cons; [intros _; split; [exists 3|exists (VInt 3)]; by vm_compute|].
    apply List.Forall_nil. }
  assert (Hconv : is_Some (to_json w (job "j3" 3))) by (by eexists).
  assert (Hpos : 0 < process_max_documents a) by (by vm_compute).
  assert (Hlen : Z.of_nat (length (entries_of w ads)) = process_max_documents a)
    by (by vm_compute).
  assert (Hmax : running_max w 0 (ads ++ [job "j3" 3]) = 3) by (by vm_compute).
  pose proof (cap_stops_after_one_more w a "schedd1" Schedd ads (job "j3" 3) rest
                eq_refl eq_refl eq_refl (fun _ => eq_refl)
                (fun _ => ltac:(by vm_compute)) (fun _ => eq_refl)
                Hwt Hconv Hpos Hlen 0 eq_refl) as (H1 & H2 & H3 & H4).
  repeat (split; [assumption|]). exact Hmax.
Defined.

(** ** What [index_time] returns and when it raises *)

(** The rungs below the preferred attribute. *)
Lemma index_time_cases LAUNCH index_attr ad :
  index_time LAUNCH index_attr ad =
    match py_int (ad_get ad index_attr (VInt 0)) with
    | inr n =>
      if 0 <? n then ad_item ad index_attr
      else
        match py_gt (ad_get ad "EnteredCurrentStatus" (VInt 0)) 0 with
        | inl e => inl e
        | inr true => ad_item ad "EnteredCurrentStatus"
        | inr false =>
          match py_gt (ad_get ad "QDate" (VInt 0)) 0 with
          | inl e => inl e
          | inr true => ad_item ad "QDate"
          | inr false => inr (VInt LAUNCH)
          end
        end
    | inl _ =>
      match py_gt (ad_get ad "EnteredCurrentStatus" (VInt 0)) 0 with
      | inl e => inl e
      | inr true => ad_item ad "EnteredCurrentStatus"
      | inr false =>
        match py_gt (ad_get ad "QDate" (VInt 0)) 0 with
        | inl e => inl e
        | inr true => ad_item ad "QDate"
        | inr false => inr (VInt LAUNCH)
        end
      end
    end.
Proof.
  unfold index_time. destruct (py_int (ad_get ad index_attr (VInt 0))) as [e|n]; [done|].
  by destruct (0 <? n).
Qed.


Lemma lower_rungs_raise LAUNCH ad e :
  match py_gt (ad_get ad "EnteredCurrentStatus" (VInt 0)) 0 with
  | inl e => inl e
  | inr true => ad_item ad "EnteredCurrentStatus"
  | inr false =>
    match py_gt (ad_get ad "QDate" (VInt 0)) 0 with
    | inl e => inl e
    | inr true => ad_item ad "QDate"
    | inr false => inr (VInt LAUNCH)
    end
  end = inl e ->
  e = TypeError /\
  ((exists s, ad !! "EnteredCurrentStatus" = Some (VStr s)) \/
   (exists s, ad !! "QDate" = Some (VStr s))).
Proof.
  unfold ad_get, ad_item, py_gt.
  destruct (ad !! "EnteredCurrentStatus") as [[z|s']|] eqn:He; cbn;
    [destruct (0 <? z); [done|]|intros [= <-]; eauto|];
    (destruct (ad !! "QDate") as [[q|s'']|] eqn:Hq; cbn;
     [destruct (0 <? q); done|intros [= <-]; eauto|done]).
Qed.



(** X12: the only exception [index_time] lets out is a [TypeError], and
    only for an ad that holds text under [EnteredCurrentStatus] or under
    [QDate]; text under the configured attribute alone never makes it
    raise, nor does a missing attribute. *)
Theorem index_time_raises_only_on_text (LAUNCH : Z) (index_attr : string)
    (ad : classad) (e : exn) :
  index_time LAUNCH index_attr ad = inl e ->
  e = TypeError /\
  ((exists s, ad !! "EnteredCurrentStatus" = Some (VStr s)) \/
   (exists s, ad !! "QDate" = Some (VStr s))).
Proof.
  rewrite index_time_cases.
  destruct (py_int (ad_get ad index_attr (VInt 0))) as [e'|n] eqn:Hint.
  - apply lower_rungs_raise.
  - destruct (Z.ltb_spec 0 n); [|apply lower_rungs_raise].
    unfold ad_item, ad_get in *. destruct (ad !! index_attr) as [v0|]; [done|].
    cbn in Hint. injection Hint as <-. lia.
Qed.

Lemma index_time_raises_only_on_text_witness :
  index_time 1000 "CompletionDate" (<["QDate" := VStr "then"]> (job "j1" 0))
    = inl TypeError /\
  exists s, (<["QDate" := VStr "then"]> (job "j1" 0) : classad) !! "QDate" = Some (VStr s).
Proof.
  assert (H : index_time 1000 "CompletionDate" (<["QDate" := VStr "then"]> (job "j1" 0))
              = inl TypeError) by (vm_compute; reflexivity).
  split; [exact H|].
  destruct (index_time_raises_only_on_text 1000 "CompletionDate" _ _ H)
    as [_ [[s Hs]|Hq]]; [discriminate Hs|exact Hq].
Defined.

(** ** The checkpoint writer *)

Lemma load_members_prefix (l : list (string * cursor)) (n : nat)
    (acc : gmap string cursor) :
  (n < length (dump_members l))%nat ->
  take n (dump_members l) <> [TClose] /\
  load_members (take n (dump_members l)) acc = None.
Proof.
  revert n acc. induction l as [|[k v] rest IH]; intros n acc Hn.
  - cbn in Hn. assert (n = 0%nat) as -> by lia. done.
  - destruct rest as [|kv rest'].
    + cbn in Hn. destruct n as [|[|[|n]]]; cbn; try done. lia.
    + change (dump_members ((k, v) :: kv :: rest'))
        with (TKey k :: TVal v :: TComma :: dump_members (kv :: rest')) in *.
      destruct n as [|[|[|n]]]; try done.
      cbn [length] in Hn.
      change (take (S (S (S n))) (TKey k :: TVal v :: TComma :: dump_members (kv :: rest')))
        with (TKey k :: TVal v :: TComma :: take n (dump_members (kv :: rest'))).
      split; [done|].
      cbn [load_members]. apply IH. lia.
Qed.

Lemma json_load_prefix (checkpoint : gmap string cursor) (n : nat) :
  (n < length (json_dump checkpoint))%nat ->
  json_load (take n (json_dump checkpoint)) = None.
Proof.
  unfold json_dump. intros Hn. destruct n as [|n]; [done|].
  cbn [length] in Hn. cbn [take].
  destruct (load_members_prefix (map_to_list checkpoint) n ∅) as [Hne Hload]; [lia|].
  unfold json_load.
  destruct (take n (dump_members (map_to_list checkpoint))) as [|t ts] eqn:E; [done|].
  destruct t; try done. by destruct ts.
Qed.

Lemma update_checkpoint_sound (name : string) (c : cursor) (f : file)
    (checkpoint : gmap string cursor) :
  load_checkpoint f = inr checkpoint ->
  update_checkpoint (Disk false None) name c f
    = (Text (json_dump (<[name := c]> checkpoint)), inr ()).
Proof. unfold update_checkpoint. by intros ->. Qed.

Lemma load_checkpoint_dump (checkpoint : gmap string cursor) :
  load_checkpoint (Text (json_dump checkpoint)) = inr checkpoint.
Proof. unfold load_checkpoint. by rewrite json_load_dump. Qed.

Lemma apply_jobs_untouched (checkpoint : gmap string cursor)
    (jobs : list (string * cursor)) (name : string) :
  name ∉ jobs.*1 -> apply_jobs checkpoint jobs !! name = checkpoint !! name.
Proof.
  unfold apply_jobs. revert checkpoint.
  induction jobs as [|[k v] jobs IH]; intros checkpoint Hnot; [done|].
  cbn in *. apply not_elem_of_cons in Hnot as [Hne Hnot].
  rewrite IH by done. by rewrite lookup_insert_ne.
Qed.

Lemma apply_jobs_last (checkpoint : gmap string cursor)
    (before after : list (string * cursor)) (name : string) (c : cursor) :
  name ∉ after.*1 ->
  apply_jobs checkpoint (before ++ (name, c) :: after) !! name = Some c.
Proof.
  intros Hnot. unfold apply_jobs. rewrite foldl_app. cbn [foldl].
  fold (apply_jobs (<[(name, c).1 := (name, c).2]>
                      (foldl (fun m kv => <[kv.1 := kv.2]> m) checkpoint before)) after).
  rewrite apply_jobs_untouched by done. cbn. by rewrite lookup_insert_eq.
Qed.

Lemma updater_drains (d : nat -> disk) (jobs : list (string * cursor))
    (stop : queue_item) (rest : list queue_item) :
  (forall n, d n = Disk false None) ->
  stop = QPill \/ stop = QEOF ->
  forall (n : nat) (f : file) (checkpoint : gmap string cursor),
  load_checkpoint f = inr checkpoint ->
  exists f',
    _chkp_updater d n (as_jobs jobs ++ stop :: rest) f = (f', Stopped) /\
    load_checkpoint f' = inr (apply_jobs checkpoint jobs) /\
    (jobs = [] -> f' = f).
Proof.
  intros Hd Hstop. induction jobs as [|[k v] jobs IH]; intros n f checkpoint Hload.
  - exists f. cbn. by destruct Hstop as [-> | ->].
  - cbn. rewrite Hd, (update_checkpoint_sound _ _ _ _ Hload).
    destruct (IH (S n) _ _ (load_checkpoint_dump (<[k := v]> checkpoint)))
      as (f' & Hrun & Hl & _).
    exists f'. by repeat split.
Qed.

(** X13: on a disk that takes every write, the writer applies every job
    that precedes the poison pill (or the end of the queue), in queue
    order, and stops; what follows the pill is never applied.  The file it
    leaves decodes to the previous mapping with the jobs' cursors set one
    after the other. *)
Theorem writer_applies_all_jobs_before_the_pill (d : nat -> disk)
    (jobs : list (string * cursor)) (stop : queue_item) (rest : list queue_item)
    (f : file) (checkpoint : gmap string cursor) :
  (forall n, d n = Disk false None) ->
  stop = QPill \/ stop = QEOF ->
  load_checkpoint f = inr checkpoint ->
  exists f',
    _chkp_updater d 0 (as_jobs jobs ++ stop :: rest) f = (f', Stopped) /\
    load_checkpoint f' = inr (apply_jobs checkpoint jobs) /\
    (forall before after name c,
       jobs = before ++ (name, c) :: after -> name ∉ after.*1 ->
       apply_jobs checkpoint jobs !! name = Some c) /\
    (forall name, name ∉ jobs.*1 ->
       apply_jobs checkpoint jobs !! name = checkpoint !! name).
Proof.
  intros Hd Hstop Hload.
  destruct (updater_drains d jobs stop rest Hd Hstop 0%nat f checkpoint Hload)
    as (f' & Hrun & Hl & _).
  exists f'. repeat split; [done..| |].
  - intros before after name c -> Hnot. by apply apply_jobs_last.
  - intros name Hnot. by apply apply_jobs_untouched.
Qed.

Lemma writer_applies_all_jobs_before_the_pill_witness :
  exists f',
    _chkp_updater (fun _ => Disk false None) 0
      (as_jobs [("a", Scalar 5); ("b", Scalar 7); ("a", Scalar 9)]
         ++ QPill :: [QJob "b" (Scalar 1)]) Absent = (f', Stopped) /\
    load_checkpoint f'
      = inr (apply_jobs ∅ [("a", Scalar 5); ("b", Scalar 7); ("a", Scalar 9)]) /\
    apply_jobs ∅ [("a", Scalar 5); ("b", Scalar 7); ("a", Scalar 9)] !! "a"
      = Some (Scalar 9) /\
    apply_jobs ∅ [("a", Scalar 5); ("b", Scalar 7); ("a", Scalar 9)] !! "b"
      = Some (Scalar 7).
Proof.
  destruct (writer_applies_all_jobs_before_the_pill (fun _ => Disk false None)
              [("a", Scalar 5); ("b", Scalar 7); ("a", Scalar 9)] QPill
              [QJob "b" (Scalar 1)] Absent ∅)
    as (f' & Hrun & Hl & _); [reflexivity|by left|reflexivity|].
  exists f'. repeat split; [exact Hrun|exact Hl|vm_compute; reflexivity..].
Defined.

Lemma apply_jobs_perm (checkpoint : gmap string cursor)
    (jobs jobs' : list (string * cursor)) :
  NoDup jobs.*1 -> jobs ≡ₚ jobs' ->
  apply_jobs checkpoint jobs = apply_jobs checkpoint jobs'.
Proof.
  intros Hnd Hperm. apply map_eq. intros i. unfold apply_jobs.
  assert (Hnd' : NoDup jobs'.*1) by by rewrite <- Hperm.
  rewrite !foldl_insert_lookup by done.
  by rewrite (list_to_map_proper (M := gmap string) jobs jobs' Hnd Hperm).
Qed.

(** X14: when no daemon name occurs twice among the queued jobs, the
    order in which the workers' jobs reach the queue does not matter: the
    writer leaves a file that decodes to the same mapping. *)
Theorem queue_order_is_immaterial_for_distinct_names (d : nat -> disk)
    (jobs jobs' : list (string * cursor)) (f : file)
    (checkpoint : gmap string cursor) :
  (forall n, d n = Disk false None) ->
  load_checkpoint f = inr checkpoint ->
  NoDup jobs.*1 -> jobs ≡ₚ jobs' ->
  exists f1 f2,
    _chkp_updater d 0 (as_jobs jobs ++ [QPill]) f = (f1, Stopped) /\
    _chkp_updater d 0 (as_jobs jobs' ++ [QPill]) f = (f2, Stopped) /\
    load_checkpoint f1 = inr (apply_jobs checkpoint jobs) /\
    load_checkpoint f2 = load_checkpoint f1.
Proof.
  intros Hd Hload Hnd Hperm.
  destruct (updater_drains d jobs QPill [] Hd (or_introl eq_refl) 0%nat f _ Hload)
    as (f1 & Hr1 & Hl1 & _).
  destruct (updater_drains d jobs' QPill [] Hd (or_introl eq_refl) 0%nat f _ Hload)
    as (f2 & Hr2 & Hl2 & _).
  exists f1, f2. repeat split; [done..|].
  by rewrite Hl1, Hl2, (apply_jobs_perm _ _ _ Hnd Hperm).
Qed.

Lemma queue_order_is_immaterial_for_distinct_names_witness :
  exists f1 f2,
    _chkp_updater (fun _ => Disk false None) 0
      (as_jobs [("a", Scalar 5); ("b", Scalar 7)] ++ [QPill]) Absent = (f1, Stopped) /\
    _chkp_updater (fun _ => Disk false None) 0
      (as_jobs [("b", Scalar 7); ("a", Scalar 5)] ++ [QPill]) Absent = (f2, Stopped) /\
    load_checkpoint f1 = inr (apply_jobs ∅ [("a", Scalar 5); ("b", Scalar 7)]) /\
    load_checkpoint f2 = load_checkpoint f1.
Proof.
  apply (queue_order_is_immaterial_for_distinct_names (fun _ => Disk false None)
           [("a", Scalar 5); ("b", Scalar 7)] [("b", Scalar 7); ("a", Scalar 5)]
           Absent ∅).
  - reflexivity.
  - reflexivity.
  - apply (bool_decide_unpack _). vm_compute. exact I.
  - apply perm_swap.
Defined.

(** X15: a rewrite of the checkpoint file that fails partway always leaves
    a file that cannot be decoded, and nothing repairs it: [load_checkpoint]
    raises [ValueError] on it, every later [update_checkpoint] raises
    [ValueError] and leaves the file as it is, and the writer dies at the
    first job it takes from the queue. *)
Theorem failed_write_leaves_file_undecodable_for_good (d : disk) (name : string)
    (c : cursor) (f : file) (checkpoint : gmap string cursor) (n : nat) :
  load_checkpoint f = inr checkpoint ->
  open_w_raises d = false ->
  write_raises_at d = Some n ->
  (n < length (json_dump (<[name := c]> checkpoint)))%nat ->
  exists f',
    update_checkpoint d name c f = (f', inl IOError) /\
    load_checkpoint f' = inl ValueError /\
    (forall d' name' c', update_checkpoint d' name' c' f' = (f', inl ValueError)) /\
    (forall d' i name' c' rest,
       _chkp_updater d' i (QJob name' c' :: rest) f' = (f', Died ValueError)).
Proof.
  intros Hload Hopen Hwrite Hn.
  exists (Text (take n (json_dump (<[name := c]> checkpoint)))).
  assert (Hbad : load_checkpoint (Text (take n (json_dump (<[name := c]> checkpoint))))
                 = inl ValueError).
  { unfold load_checkpoint. by rewrite json_load_prefix. }
  assert (Hupd : forall d' name' c',
            update_checkpoint d' name' c'
              (Text (take n (json_dump (<[name := c]> checkpoint))))
            = (Text (take n (json_dump (<[name := c]> checkpoint))), inl ValueError)).
  { intros. unfold update_checkpoint. by rewrite Hbad. }
  repeat split; [|done|done|].
  - unfold update_checkpoint. rewrite Hload, Hopen, Hwrite.
    by apply Nat.ltb_lt in Hn as ->.
  - intros. cbn [_chkp_updater]. by rewrite Hupd.
Qed.

Lemma failed_write_leaves_file_undecodable_for_good_witness :
  exists f',
    update_checkpoint (Disk false (Some 2%nat)) "a" (Scalar 5) Absent = (f', inl IOError) /\
    load_checkpoint f' = inl ValueError /\
    (forall d' name' c', update_checkpoint d' name' c' f' = (f', inl ValueError)) /\
    (forall d' i name' c' rest,
       _chkp_updater d' i (QJob name' c' :: rest) f' = (f', Died ValueError)).
Proof.
  apply (failed_write_leaves_file_undecodable_for_good (Disk false (Some 2%nat))
           "a" (Scalar 5) Absent ∅ 2%nat).
  - reflexivity.
  - reflexivity.
  - reflexivity.
  - vm_compute. lia.
Defined.

(** ** The loop that waits for the workers *)

Lemma waited_app (evs1 evs2 : list cevent) :
  waited (evs1 ++ evs2) = waited evs1 ++ waited evs2.
Proof. unfold waited. apply bind_app. Qed.

Lemma coordinator_alerts_app (evs1 evs2 : list cevent) :
  coordinator_alerts (evs1 ++ evs2) = coordinator_alerts evs1 ++ coordinator_alerts evs2.
Proof. unfold coordinator_alerts. apply bind_app. Qed.

Lemma waited_wait (name : string) (timeout : Z) (evs : list cevent) :
  waited (CWait name timeout :: evs) = name :: waited evs.
Proof. reflexivity. Qed.

Lemma waited_alert (subject : alert) (evs : list cevent) :
  waited (CAlert subject :: evs) = waited evs.
Proof. reflexivity. Qed.

Lemma coordinator_alerts_wait (name : string) (timeout : Z) (evs : list cevent) :
  coordinator_alerts (CWait name timeout :: evs) = coordinator_alerts evs.
Proof. reflexivity. Qed.

Lemma coordinator_alerts_alert (subject : alert) (evs : list cevent) :
  coordinator_alerts (CAlert subject :: evs) = subject :: coordinator_alerts evs.
Proof. reflexivity. Qed.

(** The tasks of [before] are all waited for when the clock allows it and
    none of them raises an exception the loop does not handle; the loop
    then goes on with the rest. *)
Lemma wait_futures_prefix (clk : coordinator_clock)
    (before rest : list (string * (Z -> get_result))) : forall i,
  (forall j, (j < length before)%nat -> -30 < remaining_raw clk (i + j)) ->
  (forall j name future e, before !! j = Some (name, future) ->
     future (remaining clk (i + j) + 10) <> RaisesOther e) ->
  exists evs,
    wait_futures clk i before = (evs, AllWaited) /\
    wait_futures clk i (before ++ rest)
      = (evs ++ (wait_futures clk (i + length before) rest).1,
         (wait_futures clk (i + length before) rest).2) /\
    waited evs = before.*1 /\
    (CTerminate ∉ evs) /\
    coordinator_alerts evs
      = mjoin (imap (fun j nf => wait_alert (nf.2 (remaining clk (i + j) + 10))) before).
Proof.
  induction before as [|[name future] before IH]; intros i Hraw Hother.
  - exists []. cbn. rewrite Nat.add_0_r. repeat split; [|by apply not_elem_of_nil].
    by destruct (wait_futures clk i rest).
  - destruct (IH (S i)) as (evs & Hrun & Happ & Hw & Hterm & Hal).
    { intros j Hj. replace (S i + j)%nat with (i + S j)%nat by lia.
      apply Hraw. cbn. lia. }
    { intros j n g e Hj. replace (S i + j)%nat with (i + S j)%nat by lia.
      exact (Hother (S j) n g e Hj). }
    pose proof (Hraw 0%nat ltac:(cbn; lia)) as H0.
    pose proof (fun e => Hother 0%nat name future e eq_refl) as Ho.
    rewrite Nat.add_0_r in H0, Ho.
    apply Z.ltb_lt in H0.
    assert (Himap : mjoin (imap (fun j nf => wait_alert (nf.2 (remaining clk (i + j) + 10)))
                             ((name, future) :: before))
                    = wait_alert (future (remaining clk i + 10)) ++ coordinator_alerts evs).
    { cbn [imap mjoin list_join]. rewrite Nat.add_0_r. cbn [snd]. f_equal.
      rewrite Hal. f_equal.
      apply imap_ext. intros j nf _. cbn. by replace (i + S j)%nat with (S (i + j))%nat by lia. }
    replace (i + length ((name, future) :: before))%nat
      with (S i + length before)%nat by (cbn; lia).
    rewrite Himap. clear Himap Hal.
    exists (CWait name (remaining clk i + 10)
              :: (CAlert <$> wait_alert (future (remaining clk i + 10))) ++ evs).
    cbn [wait_futures app]. rewrite H0, Hrun, Happ.
    set (X := wait_futures clk (S i + length before) rest).
    destruct X as [evs2 t2]. cbn [fst snd].
    assert (Hnot : forall subject : list alert,
              CTerminate ∉ CWait name (remaining clk i + 10) :: (CAlert <$> subject) ++ evs).
    { intros subject Hin. apply elem_of_cons in Hin as [?|Hin]; [done|].
      apply elem_of_app in Hin as [Hin|Hin]; [|done].
      apply list_elem_of_fmap in Hin as (? & ? & _). done. }
    destruct (future (remaining clk i + 10)) eqn:Hf; [| | |by destruct (Ho e)].
    all: cbn [wait_alert fmap list_fmap app]; repeat split.
    all: rewrite ?waited_wait, ?waited_alert, ?coordinator_alerts_wait,
           ?coordinator_alerts_alert, ?Hw; try done.
    all: try apply (Hnot []).
    all: apply (Hnot [_]).
Qed.

(** X16: as long as the clock stays above -30 seconds and no worker
    raises anything but a timeout or a transport error, the coordinator
    waits for every task, in dispatch order, sends for each task the alert
    that belongs to its failure and none for a task that returned, and
    does not terminate the pool. *)
Theorem every_task_is_waited_for (clk : coordinator_clock)
    (futures : list (string * (Z -> get_result))) :
  (forall j, (j < length futures)%nat -> -30 < remaining_raw clk j) ->
  (forall j name future e, futures !! j = Some (name, future) ->
     future (remaining clk j + 10) <> RaisesOther e) ->
  exists evs,
    process_histories_wait clk futures = (evs, AllWaited) /\
    waited evs = futures.*1 /\
    (CTerminate ∉ evs) /\
    coordinator_alerts evs
      = mjoin (imap (fun j nf => wait_alert (nf.2 (remaining clk j + 10))) futures).
Proof.
  intros Hraw Hother.
  destruct (wait_futures_prefix clk futures [] 0%nat Hraw Hother)
    as (evs & Hrun & _ & Hw & Hterm & Hal).
  exists evs. unfold process_histories_wait. rewrite Hrun. done.
Qed.

Lemma every_task_is_waited_for_witness :
  exists evs,
    process_histories_wait (CoordinatorClock (fun _ => 100) (fun _ => 100))
      [("a", fun _ => Returned); ("b", fun _ => RaisesTimeout);
       ("c", fun _ => RaisesTransport)] = (evs, AllWaited) /\
    waited evs = ["a"; "b"; "c"] /\
    (CTerminate ∉ evs) /\
    coordinator_alerts evs = [TimeoutWarning; TransportWarning].
Proof.
  apply (every_task_is_waited_for (CoordinatorClock (fun _ => 100) (fun _ => 100))
           [("a", fun _ => Returned); ("b", fun _ => RaisesTimeout);
            ("c", fun _ => RaisesTransport)]).
  - intros j _. cbn. lia.
  - intros [|[|[|j]]] name future e [=]; subst; done.
Defined.

(** X17: when the clock has fallen to -30 seconds or below at the moment
    the wait for a task would begin, the coordinator waits neither for
    that task nor for any task after it: the loop ends there, and the pool
    is terminated as the last thing.  The tasks before it were all waited
    for. *)
Theorem late_clock_ends_the_wait_and_terminates_pool (clk : coordinator_clock)
    (before after : list (string * (Z -> get_result)))
    (name : string) (future : Z -> get_result) :
  (forall j, (j < length before)%nat -> -30 < remaining_raw clk j) ->
  (forall j n g e, before !! j = Some (n, g) ->
     g (remaining clk j + 10) <> RaisesOther e) ->
  remaining_raw clk (length before) <= -30 ->
  exists evs,
    process_histories_wait clk (before ++ (name, future) :: after)
      = (evs ++ [CTerminate], TookTooLong) /\
    wait_futures clk 0 before = (evs, AllWaited) /\
    waited (evs ++ [CTerminate]) = before.*1 /\
    CTerminate ∉ evs.
Proof.
  intros Hraw Hother Hlate.
  destruct (wait_futures_prefix clk before ((name, future) :: after) 0%nat Hraw Hother)
    as (evs & Hrun & Happ & Hw & Hterm & _).
  exists evs. unfold process_histories_wait. rewrite Happ.
  cbn [wait_futures Nat.add].
  destruct (Z.ltb_spec (-30) (remaining_raw clk (length before))) as [?|_]; [lia|].
  cbn [fst snd]. rewrite app_nil_r. repeat split; [done| |done].
  rewrite waited_app, Hw. cbn. by rewrite app_nil_r.
Qed.

Lemma late_clock_ends_the_wait_and_terminates_pool_witness :
  exists evs,
    process_histories_wait
      (CoordinatorClock (fun i => if (i <? 1)%nat then 5 else -31) (fun _ => 0))
      ([("a", fun _ => Returned)] ++ ("b", fun _ => Returned) :: [("c", fun _ => Returned)])
      = (evs ++ [CTerminate], TookTooLong) /\
    wait_futures
      (CoordinatorClock (fun i => if (i <? 1)%nat then 5 else -31) (fun _ => 0))
      0 [("a", fun _ => Returned)] = (evs, AllWaited) /\
    waited (evs ++ [CTerminate]) = ["a"] /\
    CTerminate ∉ evs.
Proof.
  apply (late_clock_ends_the_wait_and_terminates_pool
           (CoordinatorClock (fun i => if (i <? 1)%nat then 5 else -31) (fun _ => 0))
           [("a", fun _ => Returned)] [("c", fun _ => Returned)] "b" (fun _ => Returned)).
  - intros [|j] Hj; cbn in *; lia.
  - intros [|j] n g e [=]; subst; done.
  - cbn. lia.
Defined.

(** X18: an exception of a worker that is neither a timeout nor a
    transport error is not handled by the wait loop: it leaves the loop at
    that task, the tasks after it are not waited for, no alert is sent
    for it, and the pool is not terminated by the loop. *)
Theorem other_worker_exception_leaves_the_wait (clk : coordinator_clock)
    (before after : list (string * (Z -> get_result)))
    (name : string) (future : Z -> get_result) (e : exn) :
  (forall j, (j <= length before)%nat -> -30 < remaining_raw clk j) ->
  (forall j n g e', before !! j = Some (n, g) ->
     g (remaining clk j + 10) <> RaisesOther e') ->
  future (remaining clk (length before) + 10) = RaisesOther e ->
  exists evs,
    process_histories_wait clk (before ++ (name, future) :: after)
      = (evs ++ [CWait name (remaining clk (length before) + 10)], Uncaught e) /\
    wait_futures clk 0 before = (evs, AllWaited) /\
    waited (evs ++ [CWait name (remaining clk (length before) + 10)])
      = before.*1 ++ [name] /\
    CTerminate ∉ evs.
Proof.
  intros Hraw Hother Hfut.
  destruct (wait_futures_prefix clk before ((name, future) :: after) 0%nat)
    as (evs & Hrun & Happ & Hw & Hterm & _).
  { intros j Hj. apply Hraw. lia. }
  { exact Hother. }
  exists evs. unfold process_histories_wait. rewrite Happ.
  cbn [wait_futures Nat.add].
  pose proof (Hraw (length before) ltac:(lia)) as Hb. apply Z.ltb_lt in Hb.
  rewrite Hb, Hfut. cbn [fst snd]. repeat split; [done| |done].
  rewrite waited_app, Hw. done.
Qed.

Lemma other_worker_exception_leaves_the_wait_witness :
  exists evs,
    process_histories_wait (CoordinatorClock (fun _ => 100) (fun _ => 100))
      ([("a", fun _ => RaisesTimeout)] ++ ("b", fun _ => RaisesOther ValueError)
         :: [("c", fun _ => Returned)])
      = (evs ++ [CWait "b" (100 + 10)], Uncaught ValueError) /\
    wait_futures (CoordinatorClock (fun _ => 100) (fun _ => 100)) 0
      [("a", fun _ => RaisesTimeout)] = (evs, AllWaited) /\
    waited (evs ++ [CWait "b" (100 + 10)]) = ["a"] ++ ["b"] /\
    CTerminate ∉ evs.
Proof.
  apply (other_worker_exception_leaves_the_wait
           (CoordinatorClock (fun _ => 100) (fun _ => 100))
           [("a", fun _ => RaisesTimeout)] [("c", fun _ => Returned)] "b"
           (fun _ => RaisesOther ValueError) ValueError).
  - intros j _. cbn. lia.
  - intros [|j] n g e' [=]; subst; done.
  - reflexivity.
Defined.

(** ** From one run to the next *)




(** Without the proviso the cursor is lost: a startd whose machine name is
    that of the schedd puts later, and the schedd's next run is handed the
    startd's cursor. *)
Example later_put_under_the_same_name_wins :
  let r := process_schedd (sim_world five) sim_args "host1" 0 in
  let after := [("host1", Composite (Since (Some (VStr "a")) 7))] in
  let left := _chkp_updater (fun _ => Disk false None) 0
                (as_jobs (puts (events r) ++ after) ++ [QPill]) Absent in
  puts (events r) = [("host1", Scalar 5)] /\
  left.2 = Stopped /\
  match load_checkpoint left.1 with
  | inr checkpoint' =>
    schedd_start checkpoint' "host1" = Composite (Since (Some (VStr "a")) 7)
  | inl _ => False
  end.
Proof.
  cbv zeta. split; [vm_compute; reflexivity|]. split; vm_compute; reflexivity.
Qed.

(** ** No alert without a cause *)

Lemma alerts_snoc tr ev :
  alerts (tr ++ [ev]) = alerts tr ++ match ev with EvAlert s => [s] | _ => [] end.
Proof. rewrite alerts_app. f_equal. by destruct ev. Qed.

Lemma index_time_raise_ill_typed (LAUNCH : Z) (index_attr : string) (ad : classad)
    (e : exn) :
  index_time LAUNCH index_attr ad = inl e -> e = TypeError /\ ill_typed ad.
Proof.
  assert (Hlow : e = TypeError /\
                 ((exists s, ad !! "EnteredCurrentStatus" = Some (VStr s)) \/
                  (exists s, ad !! "QDate" = Some (VStr s))) ->
                 e = TypeError /\ ill_typed ad).
  { unfold ill_typed. intros [-> [?|?]]; auto. }
  rewrite index_time_cases.
  destruct (py_int (ad_get ad index_attr (VInt 0))) as [e'|n] eqn:Hint.
  - intros Hr. by apply Hlow, (lower_rungs_raise LAUNCH).
  - destruct (Z.ltb_spec 0 n); [|intros Hr; by apply Hlow, (lower_rungs_raise LAUNCH)].
    unfold ad_item, ad_get in *. destruct (ad !! index_attr) as [v0|]; [done|].
    cbn in Hint. injection Hint as <-. lia.
Qed.

Lemma loop_body_justified k w a items job_ad st st' sg :
  Yield job_ad ∈ items ->
  Forall (justified w items) (alerts (trace st)) ->
  loop_body k w a job_ad st = (st', sg) ->
  Forall (justified w items) (alerts (trace st')) /\
  (forall e, sg = Raise e -> e <> RuntimeError /\ justified w items QueryError).
Proof.
  intros Hin Hinv. unfold_body. intros E.
  stmt_cases; proj_simpl; rewrite ?alerts_snoc, ?app_nil_r; (split; [|intros e' [=]; subst]).
  all: repeat match goal with
              | H : index_time _ _ _ = inl _ |- _ =>
                apply index_time_raise_ill_typed in H as [-> ?]
              end.
  all: try assumption.
  all: try (apply Forall_app; split; [assumption|]; apply Forall_singleton).
  all: try (split; [done|]).
  all: cbn [justified].
  all: try (by exists job_ad).
  all: try (right; left; by exists job_ad).
  all: try (right; right; by eexists).
  all: try (eexists; apply Z.ltb_lt; eassumption).
  all: try (right; left; exists job_ad; split; [done|]; unfold ill_typed; eauto).
Qed.

Lemma for_steps_justified k w a items rest : forall st st' sg,
  (forall x, x ∈ rest -> x ∈ items) ->
  Forall (justified w items) (alerts (trace st)) ->
  for_steps k w a rest st = (st', sg) ->
  Forall (justified w items) (alerts (trace st')) /\
  (forall e, sg = Raise e -> e <> RuntimeError -> justified w items QueryError).
Proof.
  induction rest as [|[job_ad|e] rest IH]; intros st st' sg Hsub Hinv; cbn.
  - intros [= <- <-]. by split.
  - destruct (loop_body k w a job_ad st) as [st1 sg1] eqn:E1.
    destruct (loop_body_justified _ _ _ items _ _ _ _
                (Hsub _ (list_elem_of_here _ _)) Hinv E1) as [Hinv1 Hraise].
    destruct sg1.
    + apply IH; [|done]. intros x Hx. by apply Hsub, list_elem_of_further.
    + intros [= <- <-]. by split.
    + intros [= <- <-]. split; [done|]. intros e' [= <-] _. by apply (Hraise e).
  - intros [= <- <-]. split; [done|]. intros e' [= <-] Hne.
    left. exists e. split; [done|]. apply Hsub, list_elem_of_here.
Qed.

Lemma harvest_justified k w a name st0 st sg :
  trace st0 = [] ->
  harvest k w a name st0 = (st, sg) ->
  Forall (justified w (history_iter k w a st0)) (alerts (trace st)).
Proof.
  intros Htr. unfold harvest, finish, for_loop.
  assert (Hq : Forall (justified w (history_iter k w a st0))
                 (alerts (trace (query_issued k a st0)))).
  { unfold query_issued. destruct (negb (dry_run a)), k; proj_simpl;
      rewrite ?alerts_snoc, Htr; constructor. }
  destruct (for_steps k w a (history_iter k w a st0) (query_issued k a st0))
    as [st1 sg1] eqn:E1.
  destruct (for_steps_justified _ _ _ _ _ _ _ _ (fun _ H => H) Hq E1) as [H1 Hraise].
  set (st2 := match sg1 with Raise e => except_handler e st1 | _ => st1 end).
  assert (H2 : Forall (justified w (history_iter k w a st0)) (alerts (trace st2))).
  { unfold st2. destruct sg1 as [| |e]; try done.
    destruct e; cbn [except_handler]; proj_simpl; rewrite ?alerts_snoc; try done.
    all: apply Forall_app; split; [done|]; apply Forall_singleton.
    all: by apply (Hraise _ eq_refl). }
  clearbody st2.
  destruct (post_remaining k w a (buffered_ads st2) st2) as [st3 sg3] eqn:E3.
  pose proof (post_remaining_frame _ _ _ _ _ _ _ E3)
    as (_ & _ & _ & _ & _ & _ & Hal & _ & _).
  destruct sg3;
    [destruct (fromtimestamp_raises w (last_completion st3));
     [|destruct (negb (timed_out st3))]| |];
    intros [= <- <-]; proj_simpl; rewrite ?alerts_snoc, ?app_nil_r, Hal; done.
Qed.

(** X20: a worker sends no alert without a cause.  A conversion alert
    means that the daemon yielded an ad the converter failed on; a timeout
    alert that the clock read below zero; a query alert that the iterator
    raised something other than [RuntimeError], or that a yielded ad holds
    text (or nothing) where a timestamp is compared, or that a call of the
    sink failed.  The transport alert is never sent by a worker. *)
Theorem worker_alerts_have_a_cause (w : world) (a : args) (name : string)
    (subject : alert) :
  (forall c,
     subject ∈ alerts (events (process_schedd w a name c)) ->
     justified w (schedd_history w (history_query c)
                    (Z.max 10000 (process_max_documents a))) subject) /\
  (forall s,
     subject ∈ alerts (events (process_startd w a name s)) ->
     justified w (startd_history w (since_str s)) subject).
Proof.
  assert (Hweak : forall items, justified w [] subject -> justified w items subject).
  { intros items. destruct subject; cbn [justified]; try done.
    - intros (ad & Hin & _). by apply elem_of_nil in Hin.
    - intros [(e & _ & Hin)|[(ad & Hin & _)|?]]; [by apply elem_of_nil in Hin
                                                   |by apply elem_of_nil in Hin|auto]. }
  split; intros c.
  - unfold process_schedd. destruct (time_remaining w 0 <? 0) eqn:Hpre.
    + cbn. intros Hin. apply list_elem_of_singleton in Hin as ->.
      exists 0%nat. by apply Z.ltb_lt.
    + destruct (harvest Schedd w a name _) as [st sg] eqn:E.
      apply harvest_justified in E; [|done].
      assert (Hal : subject ∈ alerts (trace st) ->
                justified w (schedd_history w (history_query c)
                               (Z.max 10000 (process_max_documents a))) subject).
      { intros Hin. pose proof (proj1 (Forall_forall _ _) E _ Hin) as H.
        revert H. unfold history_iter. destruct (negb (dry_run a)); [done|apply Hweak]. }
      by destruct sg.
  - unfold process_startd. destruct (time_remaining w 0 <? 0) eqn:Hpre.
    + cbn. intros Hin. apply list_elem_of_singleton in Hin as ->.
      exists 0%nat. by apply Z.ltb_lt.
    + destruct (harvest Startd w a name _) as [st sg] eqn:E.
      apply harvest_justified in E; [|done].
      assert (Hal : subject ∈ alerts (trace st) ->
                justified w (startd_history w (since_str c)) subject).
      { intros Hin. pose proof (proj1 (Forall_forall _ _) E _ Hin) as H.
        revert H. unfold history_iter. destruct (negb (dry_run a)); [done|apply Hweak]. }
      by destruct sg.
Qed.

Lemma worker_alerts_have_a_cause_witness :
  ConversionError ∈ alerts (events (process_schedd (sim_world five) sim_args "schedd1" 0)) /\
  justified (sim_world five)
    (schedd_history (sim_world five) (history_query 0)
       (Z.max 10000 (process_max_documents sim_args))) ConversionError.
Proof.
  assert (H : ConversionError
              ∈ alerts (events (process_schedd (sim_world five) sim_args "schedd1" 0)))
    by (vm_compute; constructor).
  split; [exact H|].
  exact (proj1 (worker_alerts_have_a_cause (sim_world five) sim_args "schedd1"
                  ConversionError) 0 H).
Defined.

(** ** Where the cursor a worker returns comes from *)

Lemma loop_body_read_off k w a items c0 s0 job_ad st st' sg :
  Yield job_ad ∈ items ->
  read_off k items c0 s0 st ->
  loop_body k w a job_ad st = (st', sg) ->
  read_off k items c0 s0 st'.
Proof.
  intros Hin Hinv.
  assert (Hle : c0 <= last_completion st).
  { destruct Hinv as [[-> _]|(ad & z & _ & _ & Hlt & -> & _)]; lia. }
  unfold_body. intros E.
  stmt_cases; proj_simpl; try exact Hinv.
  all: repeat match goal with
              | H : (_ <? _) = true |- _ =>
                apply Z.ltb_lt in H; revert H; proj_simpl; intros H
              end.
  all: right; eexists job_ad, _; repeat split; proj_simpl; try done; try lia.
  all: destruct Hinv as [[_ Hs]|(? & ? & _ & _ & _ & _ & Hs)]; by rewrite ?Hs.
Qed.

Lemma for_steps_read_off k w a items c0 s0 rest : forall st st' sg,
  (forall x, x ∈ rest -> x ∈ items) ->
  read_off k items c0 s0 st ->
  for_steps k w a rest st = (st', sg) ->
  read_off k items c0 s0 st'.
Proof.
  induction rest as [|[job_ad|e] rest IH]; intros st st' sg Hsub Hinv; cbn.
  - by intros [= <- _].
  - destruct (loop_body k w a job_ad st) as [st1 sg1] eqn:E1.
    pose proof (loop_body_read_off _ _ _ items c0 s0 _ _ _ _
                  (Hsub _ (list_elem_of_here _ _)) Hinv E1) as Hinv1.
    destruct sg1; try (by intros [= <- _]).
    apply IH; [|done]. intros x Hx. by apply Hsub, list_elem_of_further.
  - by intros [= <- _].
Qed.

Lemma harvest_read_off k w a name st0 st sg :
  harvest k w a name st0 = (st, sg) ->
  read_off k (history_iter k w a st0) (last_completion st0) (since st0) st.
Proof.
  unfold harvest, finish, for_loop.
  assert (Hq : read_off k (history_iter k w a st0) (last_completion st0) (since st0)
                 (query_issued k a st0)).
  { left. unfold query_issued. by destruct (negb (dry_run a)), k. }
  destruct (for_steps k w a (history_iter k w a st0) (query_issued k a st0))
    as [st1 sg1] eqn:E1.
  pose proof (for_steps_read_off _ _ _ _ _ _ _ _ _ _ (fun _ H => H) Hq E1) as H1.
  set (st2 := match sg1 with Raise e => except_handler e st1 | _ => st1 end).
  assert (H2 : last_completion st2 = last_completion st1 /\ since st2 = since st1).
  { unfold st2. by destruct sg1 as [| |[]]. }
  clearbody st2. destruct H2 as [Hlc2 Hsi2].
  destruct (post_remaining k w a (buffered_ads st2) st2) as [st3 sg3] eqn:E3.
  pose proof (post_remaining_frame _ _ _ _ _ _ _ E3)
    as (_ & _ & Hlc & Hsi & _ & _ & _ & _ & _).
  assert (H3 : read_off k (history_iter k w a st0) (last_completion st0) (since st0) st3).
  { unfold read_off in *. by rewrite Hlc, Hsi, Hlc2, Hsi2. }
  destruct sg3;
    [destruct (fromtimestamp_raises w (last_completion st3));
     [|destruct (negb (timed_out st3))]| |];
    intros [= <- <-]; exact H3.
Qed.

(** X21: the cursor a worker returns is never made up.  It is the cursor
    the worker was started with, or it was read off an ad the daemon
    yielded in this run: that ad's [EnteredCurrentStatus] (and, for a
    startd, its [GlobalJobId] beside it), which is then greater than the
    timestamp the worker was started with. *)
Theorem returned_cursor_is_read_off_an_ad (w : world) (a : args) (name : string) :
  (forall c z,
     outcome (process_schedd w a name c) = inr z ->
     z = c \/
     exists ad,
       Yield ad ∈ schedd_history w (history_query c)
                    (Z.max 10000 (process_max_documents a)) /\
       ad !! "EnteredCurrentStatus" = Some (VInt z) /\ c < z) /\
  (forall s s',
     outcome (process_startd w a name s) = inr s' ->
     s' = s \/
     exists ad z,
       Yield ad ∈ startd_history w (since_str s) /\
       ad !! "EnteredCurrentStatus" = Some (VInt z) /\
       EnteredCurrentStatus s < z /\
       s' = Since (ad !! "GlobalJobId") z).
Proof.
  split.
  - intros c z. unfold process_schedd.
    destruct (time_remaining w 0 <? 0); [intros [= <-]; by left|].
    destruct (harvest Schedd w a name _) as [st sg] eqn:E.
    apply harvest_read_off in E. revert E. unfold history_iter. cbn [init_locals last_completion since].
    intros Hinv Hout.
    assert (z = last_completion st) as -> by (by destruct sg; inversion Hout).
    destruct Hinv as [[-> _]|(ad & z & Hin & Hz & Hlt & -> & _)]; [by left|].
    right. exists ad. destruct (negb (dry_run a)); [done|by apply elem_of_nil in Hin].
  - intros s s'. unfold process_startd.
    destruct (time_remaining w 0 <? 0); [intros [= <-]; by left|].
    destruct (harvest Startd w a name _) as [st sg] eqn:E.
    apply harvest_read_off in E. revert E. unfold history_iter. cbn [init_locals last_completion since].
    intros Hinv Hout.
    assert (s' = since st) as -> by (by destruct sg; inversion Hout).
    destruct Hinv as [[_ ->]|(ad & z & Hin & Hz & Hlt & _ & ->)]; [by left|].
    right. exists ad, z. destruct (negb (dry_run a)); [done|by apply elem_of_nil in Hin].
Qed.

Lemma returned_cursor_is_read_off_an_ad_witness :
  outcome (process_schedd (sim_world five) sim_args "schedd1" 2) = inr 5 /\
  (5 = 2 \/
   exists ad,
     Yield ad ∈ schedd_history (sim_world five) (history_query 2)
                  (Z.max 10000 (process_max_documents sim_args)) /\
     ad !! "EnteredCurrentStatus" = Some (VInt 5) /\ 2 < 5).
Proof.
  assert (H : outcome (process_schedd (sim_world five) sim_args "schedd1" 2) = inr 5)
    by (vm_compute; reflexivity).
  split; [exact H|].
  exact (proj1 (returned_cursor_is_read_off_an_ad (sim_world five) sim_args "schedd1")
           2 5 H).
Defined.

(** ** The exceptions that leave a worker *)

Lemma post_remaining_raise k w a items : forall st st' e,
  post_remaining k w a items st = (st', Raise e) ->
  e = TransportError /\ read_only a = false /\ es_feed k a = true /\
  exists n, post_ads_raises w n = true.
Proof.
  induction items as [|[idx ad_list] rest IH]; intros st st' e; cbn [post_remaining].
  - intros [=].
  - unfold and_then, post_ads.
    destruct ad_list as [|x ad_list]; [apply IH|].
    destruct (negb (read_only a)) eqn:Hro; [|apply IH].
    destruct (es_feed k a) eqn:Hfeed; [|apply IH].
    destruct (post_ads_raises w (post_calls st)) eqn:Hpost; [|apply IH].
    intros [= <- <-]. apply negb_true_iff in Hro. eauto.
Qed.

Lemma harvest_raise k w a name st0 st e :
  harvest k w a name st0 = (st, Raise e) ->
  (e = TransportError /\ read_only a = false /\ es_feed k a = true /\
   exists n, post_ads_raises w n = true) \/
  (e = OtherException /\ exists t, fromtimestamp_raises w t = true).
Proof.
  unfold harvest, finish.
  set (st2 := for_loop k w a (history_iter k w a st0) (query_issued k a st0)).
  destruct (post_remaining k w a (buffered_ads st2) st2) as [st3 sg3] eqn:E3.
  destruct sg3 as [| |e3].
  - destruct (fromtimestamp_raises w (last_completion st3)) eqn:Hts.
    + intros [= <- <-]. right. eauto.
    + by destruct (negb (timed_out st3)).
  - done.
  - intros [= <- <-]. left. by apply post_remaining_raise in E3.
Qed.

(** X22: no exception raised inside the [try] block leaves a worker, be
    it the daemon's, the sink's or a [TypeError] of the loop body.  An
    exception that leaves the worker comes from what follows the block: a
    [TransportError] of a sink call in the final flush (which needs a run
    that feeds the sink), or the exception of the date formatting of the
    summary line; and then no checkpoint message has been put.  The calls
    that set the worker up before the block are taken not to raise. *)
Theorem only_final_flush_and_summary_raise (w : world) (a : args) (name : string)
    (e : exn) :
  (forall c,
     outcome (process_schedd w a name c) = inl e ->
     puts (events (process_schedd w a name c)) = [] /\
     ((e = TransportError /\ read_only a = false /\ es_feed Schedd a = true /\
       exists n, post_ads_raises w n = true) \/
      (e = OtherException /\ exists t, fromtimestamp_raises w t = true))) /\
  (forall s,
     outcome (process_startd w a name s) = inl e ->
     puts (events (process_startd w a name s)) = [] /\
     ((e = TransportError /\ read_only a = false /\ es_feed Startd a = true /\
       exists n, post_ads_raises w n = true) \/
      (e = OtherException /\ exists t, fromtimestamp_raises w t = true))).
Proof.
  split; intros c.
  - unfold process_schedd. destruct (time_remaining w 0 <? 0); [done|].
    destruct (harvest Schedd w a name _) as [st sg] eqn:E.
    destruct sg as [| |e']; [done..|]. intros [= ->]. split.
    + pose proof (fun H => harvest_put_returned _ _ _ _ _ _ _ H E) as Hput.
      by destruct (Hput eq_refl) as [?|[? _]].
    + by apply harvest_raise in E.
  - unfold process_startd. destruct (time_remaining w 0 <? 0); [done|].
    destruct (harvest Startd w a name _) as [st sg] eqn:E.
    destruct sg as [| |e']; [done..|]. intros [= ->]. split.
    + pose proof (fun H => harvest_put_returned _ _ _ _ _ _ _ H E) as Hput.
      by destruct (Hput eq_refl) as [?|[? _]].
    + by apply harvest_raise in E.
Qed.

Lemma only_final_flush_and_summary_raise_witness :
  let w := with_sink (fun _ => true) (sim_world five) in
  outcome (process_schedd w sim_args "schedd1" 0) = inl TransportError /\
  puts (events (process_schedd w sim_args "schedd1" 0)) = [] /\
  ((TransportError = TransportError /\ read_only sim_args = false /\
    es_feed Schedd sim_args = true /\ exists n, post_ads_raises w n = true) \/
   (TransportError = OtherException /\ exists t, fromtimestamp_raises w t = true)).
Proof.
  intros w.
  assert (H : outcome (process_schedd w sim_args "schedd1" 0) = inl TransportError)
    by (vm_compute; reflexivity).
  split; [exact H|].
  exact (proj1 (only_final_flush_and_summary_raise w sim_args "schedd1" TransportError)
           0 H).
Defined.

(** ** The composite cursor and the next run *)





